(** * codex-wakatime: the activity extractor, the rate limiter and the
      turn orchestrator, embedded and verified.

    JavaScript strings are sequences of UTF-16 code units; a code unit is
    modelled as a binary natural number and a string as a list of them.
    String literals of the source are written with [str]. *)

From Stdlib Require Import Ascii String.
From Stdlib Require Import List Bool Arith NArith ZArith Lia.
Import ListNotations.

Set Implicit Arguments.

(** ** Code units and strings *)

Definition cu := N.
Definition jsstring := list cu.

Fixpoint str (s : string) : jsstring :=
  match s with
  | EmptyString => []
  | String a s' => N_of_ascii a :: str s'
  end.

Definition cu_eqb (a b : cu) : bool := N.eqb a b.

Fixpoint jseqb (a b : jsstring) : bool :=
  match a, b with
  | [], [] => true
  | x :: a', y :: b' => cu_eqb x y && jseqb a' b'
  | _, _ => false
  end.

Definition CHAR_FORWARD_SLASH : cu := 47%N.
Definition CHAR_DOT : cu := 46%N.
Definition CHAR_BACKTICK : cu := 96%N.
Definition CHAR_LF : cu := 10%N.

Definition in_range (lo hi c : cu) : bool := (lo <=? c)%N && (c <=? hi)%N.
Arguments in_range (lo hi c)%_N_scope.

(** [\w] : ASCII letters, digits and the underscore. *)
Definition isWord (c : cu) : bool :=
  in_range 65 90 c || in_range 97 122 c || in_range 48 57 c || cu_eqb c 95%N.

Definition isAlpha (c : cu) : bool :=
  in_range 65 90 c || in_range 97 122 c.

(** [\s], and the characters removed by [String.prototype.trim]:
    ECMAScript WhiteSpace and LineTerminator. *)
Definition isSpace (c : cu) : bool :=
  in_range 9 13 c || cu_eqb c 32%N || cu_eqb c 160%N || cu_eqb c 5760%N
  || in_range 8192 8202 c || cu_eqb c 8232%N || cu_eqb c 8233%N
  || cu_eqb c 8239%N || cu_eqb c 8287%N || cu_eqb c 12288%N
  || cu_eqb c 65279%N.

(** Canonicalize of the [i] flag (no [u] flag): a code unit is compared by
    its upper-case form.  The patterns of the extractor mention ASCII letters
    only, and no code unit outside [a-z] has an upper-case form in ASCII that
    Canonicalize keeps, so folding [a-z] is all that can be observed. *)
Definition canonicalize (c : cu) : cu :=
  if in_range 97 122 c then (c - 32)%N else c.

(** [String.prototype.toLowerCase], per code unit.  The code observes only
    whether the result is empty, how long it is, and whether it equals a
    word of ASCII letters and digits.  U+0130 is the one code unit whose
    lower-case form has two code units, and U+212A (the Kelvin sign) the one
    code unit outside ASCII whose lower-case form is in ASCII; the
    lower-case forms of the other code units outside ASCII stay outside
    ASCII and keep their length, and stand for themselves here. *)
Definition lowerUnit (c : cu) : jsstring :=
  if in_range 65 90 c then [(c + 32)%N]
  else if cu_eqb c 304%N then [105%N; 775%N]
  else if cu_eqb c 8490%N then [107%N]
  else [c].

Definition toLowerCase (s : jsstring) : jsstring := flat_map lowerUnit s.

Fixpoint startsWith (s pre : jsstring) : bool :=
  match pre, s with
  | [], _ => true
  | p :: pre', c :: s' => cu_eqb c p && startsWith s' pre'
  | _ :: _, [] => false
  end.

Fixpoint includes (s sub : jsstring) : bool :=
  startsWith s sub ||
  match s with
  | [] => false
  | _ :: s' => includes s' sub
  end.

Fixpoint dropWhile (f : cu -> bool) (s : jsstring) : jsstring :=
  match s with
  | [] => []
  | c :: s' => if f c then dropWhile f s' else s
  end.

Definition trim (s : jsstring) : jsstring :=
  rev (dropWhile isSpace (rev (dropWhile isSpace s))).

Definition slice (s : jsstring) (from to : nat) : jsstring :=
  skipn from (firstn to s).

(** [s.slice(from)] *)
Definition sliceFrom (s : jsstring) (from : nat) : jsstring := skipn from s.

(** ** Regular expressions

    The patterns of the extractor use literals, character classes, sequence,
    alternation, one capture group and greedy quantifiers, every quantifier
    on a single-character atom.  The matcher follows the backtracking
    semantics of ECMA-262: a matcher takes the rest of the input, the capture
    and a continuation, and the first alternative that lets the continuation
    succeed wins. *)

Inductive atom : Type :=
| ALit (c : cu)                      (* a literal character *)
| AWord                              (* \w *)
| ASpace                             (* \s *)
| AOneOf (cs : list cu)              (* [...] of literals *)
| ANoneOf (sp : bool) (cs : list cu) (* [^...]; sp: the class lists \s *).

Inductive regex : Type :=
| REmpty
| RAtom (a : atom)
| RSeq (r1 r2 : regex)
| RAlt (r1 r2 : regex)
| RRep (lo : nat) (hi : option nat) (a : atom)  (* greedy a{lo,hi} *)
| RGroup (r : regex)                             (* capture group 1 *).

Definition lit_matches (ic : bool) (c l : cu) : bool :=
  if ic then cu_eqb (canonicalize c) (canonicalize l) else cu_eqb c l.

Definition atom_matches (ic : bool) (a : atom) (c : cu) : bool :=
  match a with
  | ALit l => lit_matches ic c l
  | AWord => isWord c
  | ASpace => isSpace c
  | AOneOf cs => existsb (lit_matches ic c) cs
  | ANoneOf sp cs => negb ((sp && isSpace c) || existsb (lit_matches ic c) cs)
  end.

Definition hi_allows (hi : option nat) : bool :=
  match hi with Some 0 => false | _ => true end.

Definition hi_pred (hi : option nat) : option nat :=
  match hi with Some n => Some (pred n) | None => None end.

Section Matcher.
Variable R : Type.
Variable ic : bool.   (* the i flag *)

Definition cont := jsstring -> option jsstring -> option R.

(** Greedy repetition of an atom: take one more character first and give
    way only when the rest cannot be matched. *)
Fixpoint rep_greedy (a : atom) (lo : nat) (hi : option nat)
    (s : jsstring) (k : jsstring -> option R) : option R :=
  let stop := match lo with 0 => k s | S _ => None end in
  match s with
  | c :: s' =>
      if hi_allows hi && atom_matches ic a c then
        match rep_greedy a (pred lo) (hi_pred hi) s' k with
        | Some x => Some x
        | None => stop
        end
      else stop
  | [] => stop
  end.

Fixpoint rmatch (r : regex) (s : jsstring) (cap : option jsstring)
    (k : cont) : option R :=
  match r with
  | REmpty => k s cap
  | RAtom a =>
      match s with
      | c :: s' => if atom_matches ic a c then k s' cap else None
      | [] => None
      end
  | RSeq r1 r2 => rmatch r1 s cap (fun s1 cap1 => rmatch r2 s1 cap1 k)
  | RAlt r1 r2 =>
      match rmatch r1 s cap k with
      | Some x => Some x
      | None => rmatch r2 s cap k
      end
  | RRep lo hi a => rep_greedy a lo hi s (fun s1 => k s1 cap)
  | RGroup r1 =>
      rmatch r1 s cap
        (fun s1 _ => k s1 (Some (firstn (length s - length s1) s)))
  end.
End Matcher.

(** A compiled pattern: the expression and its [i] flag (all are global). *)
Record pattern : Type := mkPattern { p_re : regex; p_ic : bool }.

(** One match attempt at the start of [s]: the length of the match and the
    capture [match[1]]. *)
Definition exec_at (p : pattern) (s : jsstring) : option (nat * option jsstring) :=
  rmatch (p_ic p) (p_re p) s None
    (fun s1 cap => Some (length s - length s1, cap)).

(** [matchAll] of a global pattern, from [lastIndex = 0]: matches are found
    left to right and do not overlap; [skip] counts the characters of the
    previous match that are still to be passed.  An empty match advances the
    search by one character. *)
Fixpoint scan (p : pattern) (s : jsstring) (skip : nat) : list (option jsstring) :=
  match s with
  | [] =>
      match skip with
      | 0 => match exec_at p [] with Some (_, cap) => [cap] | None => [] end
      | S _ => []
      end
  | _ :: s' =>
      match skip with
      | S n => scan p s' n
      | 0 =>
          match exec_at p s with
          | Some (len, cap) => cap :: scan p s' (pred len)
          | None => scan p s' 0
          end
      end
  end.

Definition matchAll (p : pattern) (s : jsstring) : list (option jsstring) :=
  scan p s 0.

(** [regex.test] of a pattern without the global flag. *)
Fixpoint test (p : pattern) (s : jsstring) : bool :=
  match exec_at p s with
  | Some _ => true
  | None => match s with [] => false | _ :: s' => test p s' end
  end.

(** The words of an expression, without the order of preference among
    them: what a successful match can have consumed. *)
Definition within (hi : option nat) (n : nat) : Prop :=
  match hi with
  | Some h => n <= h
  | None => True
  end.

Inductive lang (ic : bool) : regex -> jsstring -> Prop :=
| lang_empty : lang ic REmpty []
| lang_atom a c : atom_matches ic a c = true -> lang ic (RAtom a) [c]
| lang_seq r1 r2 w1 w2 :
    lang ic r1 w1 -> lang ic r2 w2 -> lang ic (RSeq r1 r2) (w1 ++ w2)
| lang_alt_l r1 r2 w : lang ic r1 w -> lang ic (RAlt r1 r2) w
| lang_alt_r r1 r2 w : lang ic r2 w -> lang ic (RAlt r1 r2) w
| lang_rep lo hi a w :
    lo <= length w -> within hi (length w) ->
    Forall (fun c => atom_matches ic a c = true) w ->
    lang ic (RRep lo hi a) w
| lang_group r w : lang ic r w -> lang ic (RGroup r) w.

(** Helpers to write the patterns. *)
Fixpoint lit (s : jsstring) : regex :=
  match s with
  | [] => REmpty
  | c :: s' => RSeq (RAtom (ALit c)) (lit s')
  end.

Fixpoint alt (ws : list jsstring) : regex :=
  match ws with
  | [] => RAtom (AOneOf [])
  | [w] => lit w
  | w :: ws' => RAlt (lit w) (alt ws')
  end.

Fixpoint seq (rs : list regex) : regex :=
  match rs with
  | [] => REmpty
  | [r] => r
  | r :: rs' => RSeq r (seq rs')
  end.

Definition plus (a : atom) : regex := RRep 1 None a.
Definition star (a : atom) : regex := RRep 0 None a.
Definition opt (a : atom) : regex := RRep 0 (Some 1) a.

(** ** The patterns of the extractor *)

Definition QUOTE2 : cu := 34%N.
Definition QUOTE1 : cu := 39%N.
Definition COLON : cu := 58%N.

Definition dot_ext : list regex :=
  [RAtom (ALit CHAR_DOT); RRep 1 (Some 6) AWord].

(** [/```\w*:([^\n`]+)/g] *)
Definition CODE_BLOCK_HEADER : pattern :=
  mkPattern
    (seq [lit (str "```"); star AWord; RAtom (ALit COLON);
          RGroup (plus (ANoneOf false [CHAR_LF; CHAR_BACKTICK]))])
    false.

(** [/`([^`\s]+\.\w{1,6})`/g] *)
Definition BACKTICK_PATH : pattern :=
  mkPattern
    (seq [RAtom (ALit CHAR_BACKTICK);
          RGroup (seq (plus (ANoneOf true [CHAR_BACKTICK]) :: dot_ext));
          RAtom (ALit CHAR_BACKTICK)])
    false.

(** The quoted path: a double or single quote, the group
    [([^...\s]+\.\w{1,6})] whose class excludes both quotes and white space,
    and a double or single quote again; flag [g]. *)
Definition QUOTED_PATH : pattern :=
  mkPattern
    (seq [RAtom (AOneOf [QUOTE2; QUOTE1]);
          RGroup (seq (plus (ANoneOf true [QUOTE2; QUOTE1]) :: dot_ext));
          RAtom (AOneOf [QUOTE2; QUOTE1])])
    false.

(** The tail shared by the action patterns:
    [\s+`?([^\s`\n]+\.\w{1,6})`?] *)
Definition action_tail : list regex :=
  [plus ASpace; opt (ALit CHAR_BACKTICK);
   RGroup (seq (plus (ANoneOf true [CHAR_BACKTICK; CHAR_LF]) :: dot_ext));
   opt (ALit CHAR_BACKTICK)].

Definition READ_VERBS : list jsstring := [str "Read"; str "List"].

Definition WRITE_VERBS : list jsstring :=
  [str "Create"; str "Created"; str "Modify"; str "Modified";
   str "Update"; str "Updated"; str "Write"; str "Wrote";
   str "Edit"; str "Edited"; str "Delete"; str "Deleted"].

(** [/(?:Read|List)\s+`?([^\s`\n]+\.\w{1,6})`?/gi] *)
Definition READ_ACTION : pattern :=
  mkPattern (seq (alt READ_VERBS :: action_tail)) true.

Definition READ_PATTERNS : list pattern :=
  [CODE_BLOCK_HEADER; BACKTICK_PATH; QUOTED_PATH; READ_ACTION].

Definition WRITE_PATTERN : pattern :=
  mkPattern (seq (alt WRITE_VERBS :: action_tail)) true.

(** The action pattern of the legacy list: read verbs, then write verbs. *)
Definition ACTION : pattern :=
  mkPattern (seq (alt (READ_VERBS ++ WRITE_VERBS) :: action_tail)) true.

Definition PATTERNS : list pattern :=
  [CODE_BLOCK_HEADER; BACKTICK_PATH; ACTION; QUOTED_PATH].

(** [/[<>|?*]/] *)
Definition INVALID_CHARS : pattern :=
  mkPattern (RAtom (AOneOf [60%N; 62%N; 124%N; 63%N; 42%N])) false.
(* the characters are: less-than, greater-than, bar, question mark, star *)

(** ** Node's [path] module (POSIX flavour)

    The module is part of the Node runtime, not of the repository.
    [extname] and [basename] transcribe the right-to-left loops of the
    runtime; [normalize] and [join] are modelled on path segments, following
    the documented behaviour: empty and [.] segments are dropped, [..]
    removes the segment before it, sequences of separators collapse and a
    trailing separator is kept. *)

Definition isSlash (c : cu) : bool := cu_eqb c CHAR_FORWARD_SLASH.
Definition isDot (c : cu) : bool := cu_eqb c CHAR_DOT.

Definition isAbsolute (p : jsstring) : bool :=
  match p with
  | c :: _ => isSlash c
  | [] => false
  end.

Fixpoint segments (s : jsstring) : list jsstring :=
  match s with
  | [] => [[]]
  | c :: s' =>
      if isSlash c then [] :: segments s'
      else match segments s' with
           | seg :: rest => (c :: seg) :: rest
           | [] => [[c]]
           end
  end.

Fixpoint joinSegs (segs : list jsstring) : jsstring :=
  match segs with
  | [] => []
  | [x] => x
  | x :: rest => x ++ CHAR_FORWARD_SLASH :: joinSegs rest
  end.

Definition DOT : jsstring := [CHAR_DOT].
Definition DOTDOT : jsstring := [CHAR_DOT; CHAR_DOT].

(** One segment against the stack of segments kept so far. *)
Definition resolveStep (allowAboveRoot : bool) (res : list jsstring)
    (seg : jsstring) : list jsstring :=
  if jseqb seg [] || jseqb seg DOT then res
  else if jseqb seg DOTDOT then
    match rev res with
    | lastSeg :: before =>
        if jseqb lastSeg DOTDOT
        then (if allowAboveRoot then res ++ [DOTDOT] else res)
        else rev before
    | [] => if allowAboveRoot then [DOTDOT] else []
    end
  else res ++ [seg].

Definition normalizeString (p : jsstring) (allowAboveRoot : bool) : jsstring :=
  joinSegs (fold_left (resolveStep allowAboveRoot) (segments p) []).

Definition endsWithSlash (p : jsstring) : bool :=
  match rev p with
  | c :: _ => isSlash c
  | [] => false
  end.

Definition normalize (p : jsstring) : jsstring :=
  match p with
  | [] => DOT
  | _ :: _ =>
      let isAbs := isAbsolute p in
      let trailingSeparator := endsWithSlash p in
      let body := normalizeString p (negb isAbs) in
      match body with
      | [] => if isAbs then [CHAR_FORWARD_SLASH]
              else if trailingSeparator then [CHAR_DOT; CHAR_FORWARD_SLASH]
              else DOT
      | _ :: _ =>
          let body' := if trailingSeparator then body ++ [CHAR_FORWARD_SLASH]
                       else body in
          if isAbs then CHAR_FORWARD_SLASH :: body' else body'
      end
  end.

Definition join (args : list jsstring) : jsstring :=
  match filter (fun a => negb (jseqb a [])) args with
  | [] => DOT
  | parts => normalize (joinSegs parts)
  end.

(** The state of the loop of [extname]; [None] stands for the index -1. *)
Record ExtScan : Type := mkExtScan {
  startDot : option nat;
  startPart : nat;
  endIdx : option nat;
  matchedSlash : bool;
  preDotState : Z
}.

Definition isSomeNat (o : option nat) : bool :=
  match o with Some _ => true | None => false end.

(** The loop runs over the characters from the last to the first; the index
    of the head of the reversed string is the length of what follows it. *)
Fixpoint extname_loop (rs : jsstring) (st : ExtScan) : ExtScan :=
  match rs with
  | [] => st
  | code :: rs' =>
      let i := length rs' in
      if isSlash code then
        if negb (matchedSlash st)
        then mkExtScan (startDot st) (i + 1) (endIdx st) (matchedSlash st)
                       (preDotState st)
        else extname_loop rs' st
      else
        let st1 :=
          match endIdx st with
          | None => mkExtScan (startDot st) (startPart st) (Some (i + 1)) false
                              (preDotState st)
          | Some _ => st
          end in
        let st2 :=
          if isDot code then
            match startDot st1 with
            | None => mkExtScan (Some i) (startPart st1) (endIdx st1)
                                (matchedSlash st1) (preDotState st1)
            | Some _ =>
                if negb (Z.eqb (preDotState st1) 1)
                then mkExtScan (startDot st1) (startPart st1) (endIdx st1)
                               (matchedSlash st1) 1
                else st1
            end
          else if isSomeNat (startDot st1) then
            mkExtScan (startDot st1) (startPart st1) (endIdx st1)
                      (matchedSlash st1) (-1)
          else st1 in
        extname_loop rs' st2
  end.

Definition extname (p : jsstring) : jsstring :=
  let st := extname_loop (rev p) (mkExtScan None 0 None true 0) in
  match startDot st, endIdx st with
  | Some sd, Some e =>
      if Z.eqb (preDotState st) 0
         || (Z.eqb (preDotState st) 1 && Nat.eqb sd (e - 1)
             && Nat.eqb sd (startPart st + 1))
      then []
      else slice p sd e
  | _, _ => []
  end.

Fixpoint basename_loop (rs : jsstring) (st : nat * option nat * bool)
    : nat * option nat * bool :=
  match rs with
  | [] => st
  | code :: rs' =>
      let i := length rs' in
      let '(start, e, matched) := st in
      if isSlash code then
        if negb matched then (i + 1, e, matched)
        else basename_loop rs' st
      else
        match e with
        | None => basename_loop rs' (start, Some (i + 1), false)
        | Some _ => basename_loop rs' st
        end
  end.

Definition basename (p : jsstring) : jsstring :=
  let '(start, e, _) := basename_loop (rev p) (0, None, true) in
  match e with
  | None => []
  | Some e' => slice p start e'
  end.

(** ** The extractor (extractor.ts) *)

Definition isValidFilePath (p : jsstring) : bool :=
  if jseqb p [] then false
  else if startsWith p (str "http://") || startsWith p (str "https://")
          || includes p (str "://") then false
  else if test INVALID_CHARS p then false
  else
    let ext := toLowerCase (sliceFrom (extname p) 1) in
    if jseqb ext [] then false
    else if Nat.ltb 6 (length ext) then false
    else true.

(** The extensions that are commonly tracked; advisory, not a filter. *)
Definition VALID_EXTENSIONS : list jsstring :=
  [str "js"; str "ts"; str "jsx"; str "tsx"; str "mjs"; str "cjs"; str "mts";
   str "cts";
   str "html"; str "htm"; str "css"; str "scss"; str "sass"; str "less";
   str "vue"; str "svelte";
   str "json"; str "yaml"; str "yml"; str "toml"; str "xml"; str "csv";
   str "py"; str "rb"; str "go"; str "rs"; str "java"; str "kt"; str "kts";
   str "scala"; str "c"; str "cpp"; str "cc"; str "cxx"; str "h"; str "hpp";
   str "cs"; str "fs"; str "swift"; str "m"; str "mm";
   str "sh"; str "bash"; str "zsh"; str "fish"; str "ps1"; str "bat";
   str "cmd";
   str "md"; str "mdx"; str "rst"; str "txt";
   str "sql"; str "graphql"; str "gql"; str "proto"; str "env"; str "lock";
   str "dockerfile"].

Definition isTrackableExtension (filePath : jsstring) : bool :=
  let ext := toLowerCase (sliceFrom (extname filePath) 1) in
  existsb (jseqb ext) VALID_EXTENSIONS.

Definition normalizePath (filePath cwd : jsstring) : jsstring :=
  let cleaned := trim filePath in
  if isAbsolute cleaned then normalize cleaned
  else normalize (join [cwd; cleaned]).

Record ExtractedFile : Type := mkFile { path : jsstring; isWrite : bool }.

(** A [Set] of strings, in insertion order. *)
Definition set_has (s : list jsstring) (k : jsstring) : bool :=
  existsb (jseqb k) s.

Definition set_add (s : list jsstring) (k : jsstring) : list jsstring :=
  if set_has s k then s else s ++ [k].

(** A [Map] from strings to booleans, in insertion order; setting a key that
    is present replaces its value in place. *)
Definition fmap := list (jsstring * bool).

Definition map_has (m : fmap) (k : jsstring) : bool :=
  existsb (fun e => jseqb k (fst e)) m.

Fixpoint map_set (m : fmap) (k : jsstring) (v : bool) : fmap :=
  match m with
  | [] => [(k, v)]
  | (k', v') :: m' =>
      if jseqb k k' then (k', v) :: m' else (k', v') :: map_set m' k v
  end.

(** The test [filePath && isValidFilePath(filePath)] on [match[1]]. *)
Definition accepted (m : option jsstring) : option jsstring :=
  match m with
  | Some fp => if negb (jseqb fp []) && isValidFilePath fp then Some fp else None
  | None => None
  end.

Definition extractFilePaths (message : option jsstring) (cwd : jsstring)
    : list jsstring :=
  match message with
  | None | Some [] => []
  | Some msg =>
      fold_left
        (fun files pattern =>
           fold_left
             (fun files m =>
                match accepted m with
                | Some filePath => set_add files (normalizePath filePath cwd)
                | None => files
                end)
             (matchAll pattern msg) files)
        PATTERNS []
  end.

Definition writeStep (cwd : jsstring) (fileMap : fmap) (m : option jsstring)
    : fmap :=
  match accepted m with
  | Some filePath => map_set fileMap (normalizePath filePath cwd) true
  | None => fileMap
  end.

Definition readStep (cwd : jsstring) (fileMap : fmap) (m : option jsstring)
    : fmap :=
  match accepted m with
  | Some filePath =>
      let normalized := normalizePath filePath cwd in
      if negb (map_has fileMap normalized)
      then map_set fileMap normalized false
      else fileMap
  | None => fileMap
  end.

Definition extractFiles (message : option jsstring) (cwd : jsstring)
    : list ExtractedFile :=
  match message with
  | None | Some [] => []
  | Some msg =>
      let fileMap := fold_left (writeStep cwd) (matchAll WRITE_PATTERN msg) [] in
      let fileMap :=
        fold_left
          (fun fm pattern => fold_left (readStep cwd) (matchAll pattern msg) fm)
          READ_PATTERNS fileMap in
      map (fun e => mkFile (fst e) (snd e)) fileMap
  end.

(** ** Shared types (types.ts) *)

Record CodexNotification : Type := mkNotification {
  ntype : option jsstring;              (* type; absent in a foreign payload *)
  thread_id : jsstring;
  turn_id : jsstring;
  cwd : jsstring;
  input_messages : list jsstring;
  last_assistant_message : option jsstring
}.

(** [State], persisted between invocations; timestamps count seconds. *)
Record State : Type := mkState { lastHeartbeatAt : option Z }.

Inductive EntityType : Type := EntityFile | EntityApp.

Record HeartbeatParams : Type := mkHeartbeat {
  hb_entity : jsstring;
  hb_entityType : EntityType;
  hb_category : option jsstring;
  hb_projectFolder : option jsstring;
  hb_project : option jsstring;
  hb_lineChanges : option Z;
  hb_isWrite : option bool
}.

(** ** The rate limiter *)

Definition RATE_LIMIT_SECONDS : Z := 60.

(** Modelled from the spec: state.ts, which holds the rate limiter, is not
    among the sources.  [isDue] is true if no prior timestamp is recorded, or
    if [now - lastHeartbeatAt >= 60] seconds; otherwise false. *)
Definition isDue (st : State) (now : Z) : bool :=
  match lastHeartbeatAt st with
  | None => true
  | Some t => (RATE_LIMIT_SECONDS <=? now - t)%Z
  end.

(** Modelled from the spec: [recordSuccess] overwrites the single timestamp
    field. *)
Definition recordSuccess (st : State) (now : Z) : State :=
  mkState (Some now).

(** ** The turn orchestrator (index.ts) *)

Inductive LogLevel : Type := DEBUG | WARN.

(** What a run does to the outside, in order.  A log event keeps the fixed
    text of the message; interpolated values are left out. *)
Inductive event : Type :=
| EvInstallHook
| EvUninstallHook
| EvSetLevel (l : LogLevel)
| EvLog (l : LogLevel) (text : string)
| EvEnsureCliInstalled
| EvSendHeartbeat (h : HeartbeatParams)
| EvUpdateLastHeartbeat (now : Z).

Record Run : Type := mkRun { trace : list event; state : State }.

(** Computations of [main]: they thread the run and either go on with a
    value or have returned from [main] ([None]). *)
Definition M (A : Type) : Type := Run -> option A * Run.

Definition ret {A : Type} (a : A) : M A := fun r => (Some a, r).

Definition bind {A B : Type} (m : M A) (k : A -> M B) : M B :=
  fun r =>
    match m r with
    | (Some a, r') => k a r'
    | (None, r') => (None, r')
    end.

Definition returnMain {A : Type} : M A := fun r => (None, r).

Definition emit (e : event) : M unit :=
  fun r => (Some tt, mkRun (trace r ++ [e]) (state r)).

Definition getState : M State := fun r => (Some (state r), r).

Definition putState (st : State) : M unit :=
  fun r => (Some tt, mkRun (trace r) st).

Notation "x <- m ;; k" := (bind m (fun x => k))
  (at level 61, m at next level, right associativity).
Notation "m ;;; k" := (bind m (fun _ => k))
  (at level 61, right associativity).

Fixpoint forEach {A : Type} (l : list A) (body : A -> M unit) : M unit :=
  match l with
  | [] => ret tt
  | x :: l' => body x ;;; forEach l' body
  end.

(** What [JSON.parse] can do with the argument. *)
Inductive parsed : Type :=
| ParseThrows
| ParsedFalsy
| ParsedValue (n : CodexNotification).

(** What a run reads from the outside. *)
Record Env : Type := mkEnv {
  argv : list jsstring;      (* process.argv.slice(2) *)
  debugEnabled : bool;       (* isDebugEnabled() *)
  now : Z;                   (* the clock, in seconds *)
  cliAvailable : bool        (* what ensureCliInstalled() resolves to *)
}.

Definition AGENT_TURN_COMPLETE : jsstring := str "agent-turn-complete".
Definition AI_CODING : jsstring := str "ai coding".

Section Orchestrator.
Variable JSON_parse : jsstring -> parsed.

Definition parseNotification (env : Env) : M (option CodexNotification) :=
  match argv env with
  | [] => ret None
  | jsonArg :: _ =>
      if jseqb jsonArg [] then ret None
      else if startsWith jsonArg (str "-") then ret None
      else match JSON_parse jsonArg with
           | ParsedValue n => ret (Some n)
           | ParsedFalsy => ret None
           | ParseThrows => emit (EvLog WARN "exception") ;;; ret None
           end
  end.

(** Modelled from the spec: state.ts is not among the sources; the check
    is [isDue] on the persisted state and the clock. *)
Definition shouldSendHeartbeat (env : Env) : M bool :=
  st <- getState ;; ret (isDue st (now env)).

(** Modelled from the spec: state.ts is not among the sources; the update
    is [recordSuccess] with the clock. *)
Definition updateLastHeartbeat (env : Env) : M unit :=
  st <- getState ;;
  putState (recordSuccess st (now env)) ;;;
  emit (EvUpdateLastHeartbeat (now env)).

(** Modelled from the spec: wakatime.ts and the dependency resolver are not
    among the sources; the call resolves to an absolute path or to
    unavailable, which the run reads from the outside. *)
Definition ensureCliInstalled (env : Env) : M bool :=
  emit EvEnsureCliInstalled ;;; ret (cliAvailable env).

(** Modelled from the spec: wakatime.ts is not among the sources; one call
    is one dispatch attempt, fire-and-forget. *)
Definition sendHeartbeat (h : HeartbeatParams) : M unit :=
  emit (EvSendHeartbeat h).

Definition typeIs (n : CodexNotification) (t : jsstring) : bool :=
  match ntype n with
  | Some t' => jseqb t' t
  | None => false
  end.

Definition main (env : Env) : M unit :=
  let args := argv env in
  if set_has args (str "--install") then emit EvInstallHook ;;; returnMain
  else if set_has args (str "--uninstall") then
    emit EvUninstallHook ;;; returnMain
  else
    (if debugEnabled env then emit (EvSetLevel DEBUG) else ret tt) ;;;
    emit (EvLog DEBUG "codex-wakatime started") ;;;
    notification <- parseNotification env ;;
    match notification with
    | None => emit (EvLog DEBUG "No valid notification received") ;;; returnMain
    | Some n =>
        emit (EvLog DEBUG "Received notification") ;;;
        if negb (typeIs n AGENT_TURN_COMPLETE) then
          emit (EvLog DEBUG "Ignoring notification type") ;;; returnMain
        else
          due <- shouldSendHeartbeat env ;;
          if negb due then
            emit (EvLog DEBUG "Skipping heartbeat due to rate limiting") ;;;
            returnMain
          else
            available <- ensureCliInstalled env ;;
            if negb available then
              emit (EvLog WARN "wakatime-cli not available, skipping heartbeat") ;;;
              returnMain
            else
              let assistantMessage :=
                match last_assistant_message n with
                | Some m => m
                | None => []
                end in
              let files := extractFiles (Some assistantMessage) (cwd n) in
              emit (EvLog DEBUG "Extracted files from message") ;;;
              (match files with
               | _ :: _ =>
                   forEach files (fun file =>
                     emit (EvLog DEBUG "Sending heartbeat for file") ;;;
                     sendHeartbeat
                       (mkHeartbeat (path file) EntityFile (Some AI_CODING)
                          (Some (cwd n)) None None (Some (isWrite file))))
               | [] =>
                   emit (EvLog DEBUG "Sending project heartbeat") ;;;
                   sendHeartbeat
                     (mkHeartbeat (cwd n) EntityApp (Some AI_CODING)
                        None (Some (basename (cwd n))) None None)
               end) ;;;
              updateLastHeartbeat env ;;;
              emit (EvLog DEBUG "codex-wakatime completed")
    end.

(** One invocation, from the persisted state [st]. *)
Definition runMain (env : Env) (st : State) : Run :=
  snd (main env (mkRun [] st)).

(** The notification that [parseNotification] hands to [main]. *)
Definition receivedNotification (env : Env) : option CodexNotification :=
  match fst (parseNotification env (mkRun [] (mkState None))) with
  | Some (Some n) => Some n
  | _ => None
  end.

(** A notification is processed when the run has no install flag, the
    notification is parsed, has the recognized type, the rate limiter says
    due and the executable is available. *)
Definition processed (env : Env) (st : State) (n : CodexNotification) : Prop :=
  set_has (argv env) (str "--install") = false
  /\ set_has (argv env) (str "--uninstall") = false
  /\ receivedNotification env = Some n
  /\ typeIs n AGENT_TURN_COMPLETE = true
  /\ isDue st (now env) = true
  /\ cliAvailable env = true.

(** A gate of the orchestrator is closed: no notification, a wrong or
    missing type, a report that is not due, or no executable. *)
Definition gateClosed (env : Env) (st : State) : Prop :=
  match receivedNotification env with
  | None => True
  | Some n =>
      typeIs n AGENT_TURN_COMPLETE = false
      \/ isDue st (now env) = false
      \/ cliAvailable env = false
  end.

Definition fileHeartbeat (n : CodexNotification) (file : ExtractedFile)
    : HeartbeatParams :=
  mkHeartbeat (path file) EntityFile (Some AI_CODING) (Some (cwd n)) None None
    (Some (isWrite file)).

Definition projectHeartbeat (n : CodexNotification) : HeartbeatParams :=
  mkHeartbeat (cwd n) EntityApp (Some AI_CODING) None
    (Some (basename (cwd n))) None None.

(** The events of the dispatch step of a processed notification. *)
Definition dispatchEvents (n : CodexNotification) : list event :=
  match extractFiles (last_assistant_message n) (cwd n) with
  | [] => [EvLog DEBUG "Sending project heartbeat";
           EvSendHeartbeat (projectHeartbeat n)]
  | files =>
      flat_map (fun file => [EvLog DEBUG "Sending heartbeat for file";
                             EvSendHeartbeat (fileHeartbeat n file)]) files
  end.
End Orchestrator.

Definition heartbeatsOf (tr : list event) : list HeartbeatParams :=
  flat_map (fun e => match e with EvSendHeartbeat h => [h] | _ => [] end) tr.

Definition isUpdate (e : event) : bool :=
  match e with EvUpdateLastHeartbeat _ => true | _ => false end.

Definition isSend (e : event) : bool :=
  match e with EvSendHeartbeat _ => true | _ => false end.

(** An event that is neither a dispatch nor a state update. *)
Definition quietb (e : event) : bool := negb (isSend e || isUpdate e).

(** ** What the two passes detect

    [hits cwd ms] lists, in order, the normalized paths of the matches that
    pass the validator. *)

Definition hits (cwd : jsstring) (ms : list (option jsstring)) : list jsstring :=
  flat_map
    (fun m => match accepted m with
              | Some filePath => [normalizePath filePath cwd]
              | None => []
              end) ms.

Definition hitsOf (ps : list pattern) (msg cwd : jsstring) : list jsstring :=
  flat_map (fun p => hits cwd (matchAll p msg)) ps.

Definition writeHits (msg cwd : jsstring) : list jsstring :=
  hitsOf [WRITE_PATTERN] msg cwd.

Definition readHits (msg cwd : jsstring) : list jsstring :=
  hitsOf READ_PATTERNS msg cwd.

(** The characters of [INVALID_CHARS]. *)
Definition INVALID : list cu := [60%N; 62%N; 124%N; 63%N; 42%N].

(** [path.extname(p).slice(1)], the extension without its dot. *)
Definition extension (p : jsstring) : jsstring := sliceFrom (extname p) 1.

(** The raw matches of every pattern used by [extractFiles]. *)
Definition rawMatches (msg : jsstring) : list (option jsstring) :=
  flat_map (fun p => matchAll p msg) (WRITE_PATTERN :: READ_PATTERNS).

(** A raw match that holds the URL scheme marker. *)
Definition urlShaped (m : option jsstring) : bool :=
  match m with
  | Some filePath => includes filePath (str "://")
  | None => true
  end.

(** The text of a message that may be absent. *)
Definition textOf (message : option jsstring) : jsstring :=
  match message with
  | Some msg => msg
  | None => []
  end.

(** The signal classes that carry no verb. *)
Definition SHARED_PATTERNS : list pattern :=
  [CODE_BLOCK_HEADER; BACKTICK_PATH; QUOTED_PATH].

(** The elements of [l] that are not in [seen], each at its first
    occurrence, in the order of [l]. *)
Fixpoint firstSeen (seen l : list jsstring) : list jsstring :=
  match l with
  | [] => []
  | x :: l' =>
      if set_has seen x then firstSeen seen l'
      else x :: firstSeen (seen ++ [x]) l'
  end.

(** ** Notions used by the statements and the proofs *)

(** The entries for a list of paths, all with the same flag. *)
Definition tagged (v : bool) (l : list jsstring) : fmap :=
  map (fun p => (p, v)) l.

(** The read pass on one hit: a path is added as a read only when absent. *)
Definition readAdd (m : fmap) (p : jsstring) : fmap :=
  if negb (map_has m p) then map_set m p false else m.

(** A character that is neither a separator nor a dot. *)
Definition plain (c : cu) : Prop := isSlash c = false /\ isDot c = false.

(** Segments: without a separator; proper ones are not empty, not [.]
    and not [..]. *)
Definition noSlash (seg : jsstring) : Prop :=
  Forall (fun c => isSlash c = false) seg.

Definition properSeg (seg : jsstring) : Prop :=
  seg <> [] /\ seg <> DOT /\ seg <> DOTDOT /\ noSlash seg.

(** The prefix of every run that reaches the parser. *)
Definition startEvents (env : Env) : list event :=
  (if debugEnabled env then [EvSetLevel DEBUG] else [])
  ++ [EvLog DEBUG "codex-wakatime started"].

(** ** Verb phrases that do not run into each other *)

(** No match of [pat] starts at any of the first [n] places of [s]. *)
Fixpoint noMatchWithin (pat : pattern) (n : nat) (s : jsstring) : bool :=
  match n with
  | 0 => true
  | S n' =>
      match exec_at pat s with
      | Some _ => false
      | None =>
          match s with
          | [] => true
          | _ :: s' => noMatchWithin pat n' s'
          end
      end
  end.

(** The places after the first that a match of [pat] at the start of [s]
    covers. *)
Definition matchSpan (pat : pattern) (s : jsstring) : nat :=
  match exec_at pat s with
  | Some (len, _) => pred len
  | None => 0
  end.

(** No match of [inner] starts inside a match of [outer], wherever the match
    of [outer] starts. *)
Fixpoint apartFrom (inner outer : pattern) (s : jsstring) : bool :=
  match s with
  | [] => true
  | _ :: s' =>
      noMatchWithin inner (matchSpan outer s) s' && apartFrom inner outer s'
  end.

(** No write-verb phrase starts inside a read-verb phrase, and no read-verb
    phrase inside a write-verb phrase. *)
Definition verbPhrasesApart (msg : jsstring) : bool :=
  apartFrom WRITE_PATTERN READ_ACTION msg
  && apartFrom READ_ACTION WRITE_PATTERN msg.

(** ** Concrete inputs *)

Definition msg_read_then_write : jsstring :=
  str "Read `src/file.ts` first, then Modified src/file.ts to fix the bug.".

Definition msg_write_then_read : jsstring :=
  str "Created src/new.ts with implementation. Read `src/new.ts` to verify.".

Definition msg_scenario_1 : jsstring :=
  str "Created `src/a.ts`. Read `src/b.ts`. Modified src/a.ts again.".

Definition msg_scenario_2 : jsstring :=
  str "Check https://example.com/file.ts for reference.".

Definition msg_urls : jsstring :=
  str "Read https://example.com/file.ts and `http://example.com/api.json`.".

Definition notification_no_paths : CodexNotification :=
  mkNotification (Some AGENT_TURN_COMPLETE) (str "t1") (str "u1")
    (str "/home/dev/project/") []
    (Some (str "I completed the task successfully.")).

Definition env_ready : Env := mkEnv [str "{...}"] false 1000 true.

Definition env_unavailable : Env := mkEnv [str "{...}"] true 1000 false.

(** ** The configuration reader (options.ts) *)

(** [s.split(sep)] for a separator of one character. *)
Fixpoint splitOn (sep : cu) (s : jsstring) : list jsstring :=
  match s with
  | [] => [[]]
  | c :: s' =>
      if cu_eqb c sep then [] :: splitOn sep s'
      else match splitOn sep s' with
           | seg :: rest => (c :: seg) :: rest
           | [] => [[c]]
           end
  end.

(** [s.indexOf(c)] for one character; [None] stands for -1. *)
Fixpoint indexOf (c : cu) (s : jsstring) : option nat :=
  match s with
  | [] => None
  | x :: s' => if cu_eqb x c then Some 0 else option_map S (indexOf c s')
  end.

Definition CHAR_EQUALS : cu := 61%N.

(** A value of [WakaTimeConfig]: a boolean or a string. *)
Inductive iniValue : Type :=
| IniBool (b : bool)
| IniString (s : jsstring).

(** The configuration object: its own properties.  Only look-ups of single
    keys are modelled, not the order of enumeration. *)
Definition iniConfig := list (jsstring * iniValue).

Fixpoint obj_get {V : Type} (o : list (jsstring * V)) (key : jsstring)
    : option V :=
  match o with
  | [] => None
  | (k, v) :: o' => if jseqb key k then Some v else obj_get o' key
  end.

Fixpoint obj_put {V : Type} (o : list (jsstring * V)) (key : jsstring) (v : V)
    : list (jsstring * V) :=
  match o with
  | [] => [(key, v)]
  | (k, v') :: o' =>
      if jseqb key k then (k, v) :: o' else (k, v') :: obj_put o' key v
  end.

(** [config[key] = value] for a primitive value: the key [__proto__] names
    the prototype setter, which ignores a primitive; any other key becomes
    or replaces an own property. *)
Definition ini_assign (config : iniConfig) (key : jsstring) (v : iniValue)
    : iniConfig :=
  if jseqb key (str "__proto__") then config else obj_put config key v.

(** The conversion of boolean strings. *)
Definition iniValueOf (value : jsstring) : iniValue :=
  if jseqb (toLowerCase value) (str "true") then IniBool true
  else if jseqb (toLowerCase value) (str "false") then IniBool false
  else IniString value.

(** The body of the loop of [parseIni], for one line. *)
Definition parseIniLine (config : iniConfig) (line : jsstring) : iniConfig :=
  let trimmed := trim line in
  if jseqb trimmed [] || startsWith trimmed (str "#")
     || startsWith trimmed (str "[")
  then config
  else
    match indexOf CHAR_EQUALS trimmed with
    | Some equalIndex =>
        if Nat.ltb 0 equalIndex then
          let key := trim (slice trimmed 0 equalIndex) in
          let value := trim (sliceFrom trimmed (equalIndex + 1)) in
          ini_assign config key (iniValueOf value)
        else config
    | None => config
    end.

Definition parseIni (content : jsstring) : iniConfig :=
  fold_left parseIniLine (splitOn CHAR_LF content) [].

(** [getWakaTimeConfig]: the content of the file, or [None] when the file
    does not exist or cannot be read. *)
Definition getWakaTimeConfig (file : option jsstring) : iniConfig :=
  match file with
  | Some content => parseIni content
  | None => []
  end.

Definition isDebugEnabled (file : option jsstring) : bool :=
  match obj_get (getWakaTimeConfig file) (str "debug") with
  | Some (IniBool true) => true
  | _ => false
  end.

Definition hasApiKey (file : option jsstring) : bool :=
  match obj_get (getWakaTimeConfig file) (str "api_key") with
  | Some (IniString s) => Nat.ltb 0 (length s)
  | _ => false
  end.

(** A line that [parseIni] passes over: blank, a comment or a section
    header. *)
Definition iniNoise (line : jsstring) : bool :=
  jseqb (trim line) [] || startsWith (trim line) (str "#")
  || startsWith (trim line) (str "[").

(** A key as a line can assign it: not empty, without white space around
    it, without [=] and line feed, not starting a comment or a section, and
    not the name of the prototype setter. *)
Definition iniKey (k : jsstring) : Prop :=
  k <> [] /\ trim k = k /\ ~ In CHAR_EQUALS k /\ ~ In CHAR_LF k
  /\ startsWith k (str "#") = false /\ startsWith k (str "[") = false
  /\ k <> str "__proto__".

Definition notification_two_files : CodexNotification :=
  mkNotification (Some AGENT_TURN_COMPLETE) (str "t1") (str "u1")
    (str "/p") [] (Some msg_scenario_1).

(** A line without effect: noise, or no [=] after its first character. *)
Definition iniIgnored (line : jsstring) : bool :=
  iniNoise line ||
  match indexOf CHAR_EQUALS (trim line) with
  | Some (S _) => false
  | _ => true
  end.

(** ** The hook installer (install.ts): the notify entries *)

(** A value of type [unknown]: what a parsed configuration can hold.  A
    number is kept as the 64 bits of its double; nothing here reads it. *)
#[local] Unset Elimination Schemes.
Inductive jsval : Type :=
| JUndefined
| JNull
| JBool (b : bool)
| JNumber (bits : N)
| JString (s : jsstring)
| JArray (items : list jsval)
| JObject (props : list (jsstring * jsval)).
#[local] Set Elimination Schemes.

(** The configuration object [Record<string, unknown>], by its own
    properties. *)
Definition tomlConfig := list (jsstring * jsval).

(** [config.notify] and the like: the own property, or [undefined]. *)
Definition prop (config : tomlConfig) (key : jsstring) : jsval :=
  match obj_get config key with
  | Some v => v
  | None => JUndefined
  end.

(** [delete config[key]] *)
Fixpoint obj_del {V : Type} (o : list (jsstring * V)) (key : jsstring)
    : list (jsstring * V) :=
  match o with
  | [] => []
  | (k, v) :: o' => if jseqb key k then o' else (k, v) :: obj_del o' key
  end.

Definition normalizeNotifyValue (value : jsval) : list jsval :=
  match value with
  | JArray items => items
  | JString s => [value]
  | _ => []
  end.

(** The test [typeof entry === "string" && entry === command]. *)
Definition isCommand (command : jsstring) (entry : jsval) : bool :=
  match entry with
  | JString s => jseqb s command
  | _ => false
  end.

Definition hasNotifyEntry (entries : list jsval) (command : jsstring) : bool :=
  existsb (isCommand command) entries.

Definition removeNotifyEntry (entries : list jsval) (command : jsstring)
    : list jsval :=
  filter (fun entry => negb (isCommand command entry)) entries.

Definition getPluginCommand : list jsstring := [str "codex-wakatime"].

Definition NOTIFY : jsstring := str "notify".

(** [installHook] between reading and writing: the configuration to write,
    or [None] when the hook is already there and nothing is written. *)
Definition installHook_config (config : tomlConfig) : option tomlConfig :=
  let pluginCommand := hd [] getPluginCommand in
  let existingNotify := normalizeNotifyValue (prop config NOTIFY) in
  if hasNotifyEntry existingNotify pluginCommand then None
  else Some (obj_put config NOTIFY
               (JArray (existingNotify ++ [JString pluginCommand]))).

(** [uninstallHook] between reading and writing: the configuration to
    write, or [None] when the hook was not configured. *)
Definition uninstallHook_config (config : tomlConfig) : option tomlConfig :=
  let pluginCommand := hd [] getPluginCommand in
  let existingNotify := normalizeNotifyValue (prop config NOTIFY) in
  if negb (hasNotifyEntry existingNotify pluginCommand) then None
  else
    let updatedNotify := removeNotifyEntry existingNotify pluginCommand in
    Some (if Nat.eqb (length updatedNotify) 0 then obj_del config NOTIFY
          else obj_put config NOTIFY (JArray updatedNotify)).

(** What every entry of a parsed configuration satisfies. *)
Definition iniEntryOk (e : jsstring * iniValue) : Prop :=
  fst e <> [] /\ trim (fst e) = fst e /\ ~ In CHAR_EQUALS (fst e)
  /\ fst e <> str "__proto__"
  /\ match snd e with
     | IniBool _ => True
     | IniString s =>
         trim s = s
         /\ jseqb (toLowerCase s) (str "true") = false
         /\ jseqb (toLowerCase s) (str "false") = false
     end.

(** ** The hook installer (install.ts): values of the configuration file *)

Definition CHAR_COMMA : cu := 44%N.
Definition CHAR_SPACE : cu := 32%N.

(** [s.endsWith(suffix)] *)
Definition endsWith (s suffix : jsstring) : bool :=
  startsWith (rev s) (rev suffix).

(** [s.slice(1, -1)] *)
Definition sliceInner (s : jsstring) : jsstring :=
  slice s 1 (length s - 1).

(** [items.join(sep)] *)
Fixpoint joinWith (sep : jsstring) (items : list jsstring) : jsstring :=
  match items with
  | [] => []
  | [x] => x
  | x :: rest => x ++ sep ++ joinWith sep rest
  end.

(** The test for a value or an item wrapped in double or in single
    quotes. *)
Definition isQuoted (s : jsstring) : bool :=
  (startsWith s [QUOTE2] && endsWith s [QUOTE2])
  || (startsWith s [QUOTE1] && endsWith s [QUOTE1]).

Section TomlValues.
(** [Number(value)], with [None] for NaN, and [String(value)]: built into
    the language. *)
Variable Number_ : jsstring -> option N.
Variable String_ : jsval -> jsstring.

(** The function mapped over the items of an array value. *)
Definition parseTomlItem (item : jsstring) : jsval :=
  let trimmedItem := trim item in
  if isQuoted trimmedItem then JString (sliceInner trimmedItem)
  else JString trimmedItem.

(** The part of the loop body of [parseToml] that turns the text after
    [=] into a value. *)
Definition parseTomlValue (value : jsstring) : jsval :=
  if startsWith value (str "[") && endsWith value (str "]") then
    let arrayContent := trim (sliceInner value) in
    if negb (jseqb arrayContent []) then
      JArray (map parseTomlItem (splitOn CHAR_COMMA arrayContent))
    else JArray []
  else if isQuoted value then JString (sliceInner value)
  else if jseqb value (str "true") then JBool true
  else if jseqb value (str "false") then JBool false
  else match Number_ value with
       | Some bits => JNumber bits
       | None => JString value
       end.

Definition formatTomlValue (value : jsval) : jsstring :=
  match value with
  | JArray items =>
      str "["
      ++ joinWith (str ", ")
           (map (fun item => match item with
                             | JString s => QUOTE2 :: s ++ [QUOTE2]
                             | _ => String_ item
                             end) items)
      ++ str "]"
  | JString s => QUOTE2 :: s ++ [QUOTE2]
  | JBool b => if b then str "true" else str "false"
  | _ => String_ value
  end.
End TomlValues.

Definition config_with_hooks : tomlConfig :=
  [(str "model", JString (str "o3"));
   (NOTIFY, JArray [JString (str "hook-a"); JString (str "hook-b")])].

(** A configuration as read from a file in which the hook is installed
    before another one. *)
Definition config_installed : tomlConfig :=
  [(str "model", JString (str "o3"));
   (NOTIFY, JArray [JString (str "codex-wakatime"); JString (str "hook-a")])].

(** A path as a sentence names it: a stem without white space and
    backtick, a dot, and an extension of 1 to 6 word characters. *)
Definition barePath (p : jsstring) : Prop :=
  exists stem ext,
    p = stem ++ CHAR_DOT :: ext
    /\ stem <> []
    /\ Forall (fun c => isSpace c = false /\ c <> CHAR_BACKTICK) stem
    /\ 1 <= length ext <= 6
    /\ Forall (fun c => isWord c = true) ext.

(** The end of the message or white space. *)
Definition endsPath (rest : jsstring) : Prop :=
  rest = [] \/ exists ws r, rest = ws :: r /\ isSpace ws = true.

(** A path as a quoted string holds it: as a bare path, with neither quote
    in the stem. *)
Definition quotedPath (p : jsstring) : Prop :=
  exists stem ext,
    p = stem ++ CHAR_DOT :: ext
    /\ stem <> []
    /\ Forall (fun c => isSpace c = false /\ c <> QUOTE2 /\ c <> QUOTE1) stem
    /\ 1 <= length ext <= 6
    /\ Forall (fun c => isWord c = true) ext.

(** The end of a code block header: the end of the message, a line feed or
    a backtick. *)
Definition endsHeader (rest : jsstring) : Prop :=
  rest = [] \/ exists c r, rest = c :: r /\ (c = CHAR_LF \/ c = CHAR_BACKTICK).

(** The start of a word: the start of the message, or after white space. *)
Definition wordStart (pre : jsstring) : Prop :=
  pre = [] \/ exists pre' ws, pre = pre' ++ [ws] /\ isSpace ws = true.

Definition spaceFree (l : jsstring) : Prop :=
  Forall (fun c => isSpace c = false) l.

(** ** The lines of a configuration file *)

(** What the loop of [parseIni] reads from one line: the key and the text
    that the line assigns, or nothing when the line is passed over. *)
Definition iniAssignment (line : jsstring) : option (jsstring * jsstring) :=
  let trimmed := trim line in
  if jseqb trimmed [] || startsWith trimmed (str "#")
     || startsWith trimmed (str "[")
  then None
  else
    match indexOf CHAR_EQUALS trimmed with
    | Some equalIndex =>
        if Nat.ltb 0 equalIndex then
          Some (trim (slice trimmed 0 equalIndex),
                trim (sliceFrom trimmed (equalIndex + 1)))
        else None
    | None => None
    end.

(** The line assigns the key. *)
Definition assignsKey (key line : jsstring) : bool :=
  match iniAssignment line with
  | Some (k, _) => jseqb k key
  | None => false
  end.

(** The text assigned by the last line of the content that assigns the
    key. *)
Definition lastAssigned (key content : jsstring) : option jsstring :=
  match find (assignsKey key) (rev (splitOn CHAR_LF content)) with
  | Some line => option_map snd (iniAssignment line)
  | None => None
  end.

(** ** Notions used by the further properties *)

(** The patterns whose group ends in a dot and word characters. *)
Definition EXTENSION_PATTERNS : list pattern :=
  [BACKTICK_PATH; QUOTED_PATH; READ_ACTION; WRITE_PATTERN; ACTION].

(** An expression without a capture group. *)
Fixpoint nogroup (r : regex) : bool :=
  match r with
  | REmpty | RAtom _ | RRep _ _ _ => true
  | RSeq r1 r2 | RAlt r1 r2 => nogroup r1 && nogroup r2
  | RGroup _ => false
  end.

(** Two strings that are equal up to the case of ASCII letters. *)
Definition sameUpToCase (a b : jsstring) : Prop :=
  map canonicalize a = map canonicalize b.

(** * Proofs *)

(** ** Strings *)

Lemma cu_eqb_eq (a b : cu) : cu_eqb a b = true <-> a = b.
Proof. unfold cu_eqb. apply N.eqb_eq. Qed.

Lemma jseqb_eq (a b : jsstring) : jseqb a b = true <-> a = b.
Proof.
  revert b. induction a as [|x a IH]; intros [|y b]; simpl; split;
    try congruence; try reflexivity.
  - intros H. apply andb_true_iff in H as [Hx Ha].
    apply cu_eqb_eq in Hx. apply IH in Ha. congruence.
  - intros H. injection H as -> ->. apply andb_true_iff. split.
    + now apply cu_eqb_eq.
    + now apply IH.
Qed.

Lemma jseqb_refl (a : jsstring) : jseqb a a = true.
Proof. now apply jseqb_eq. Qed.

Lemma jseqb_neq (a b : jsstring) : jseqb a b = false <-> a <> b.
Proof.
  split.
  - intros H E. apply jseqb_eq in E. congruence.
  - intros H. destruct (jseqb a b) eqn:E; [|reflexivity].
    apply jseqb_eq in E. contradiction.
Qed.

Lemma set_has_In (s : list jsstring) (k : jsstring) :
  set_has s k = true <-> In k s.
Proof.
  unfold set_has. rewrite existsb_exists. split.
  - intros [x [Hx E]]. apply jseqb_eq in E. now subst.
  - intros H. exists k. split; [assumption | apply jseqb_refl].
Qed.

Lemma set_has_not_In (s : list jsstring) (k : jsstring) :
  set_has s k = false <-> ~ In k s.
Proof.
  rewrite <- set_has_In. destruct (set_has s k); split; congruence.
Qed.

Lemma map_has_keys (m : fmap) (k : jsstring) :
  map_has m k = set_has (map fst m) k.
Proof.
  unfold map_has, set_has. induction m as [|e m IH]; simpl; [reflexivity|].
  now rewrite IH.
Qed.

(** ** The insertion-ordered set and map *)

Lemma firstSeen_In (l seen : list jsstring) (x : jsstring) :
  In x (firstSeen seen l) <-> In x l /\ ~ In x seen.
Proof.
  revert seen. induction l as [|y l IH]; intros seen; simpl.
  - tauto.
  - destruct (set_has seen y) eqn:E.
    + apply set_has_In in E. rewrite IH. split.
      * tauto.
      * intros [[->|H] Hn]; [contradiction | tauto].
    + apply set_has_not_In in E. simpl. rewrite IH, in_app_iff. simpl.
      split.
      * intros [->|[H Hn]]; [tauto|]. tauto.
      * intros [[->|H] Hn]; [tauto|].
        destruct (jseqb y x) eqn:Eyx.
        -- apply jseqb_eq in Eyx. tauto.
        -- apply jseqb_neq in Eyx. right. split; [assumption|].
           intros [?|[?|[]]]; [contradiction | congruence].
Qed.

Lemma firstSeen_NoDup (l seen : list jsstring) : NoDup (firstSeen seen l).
Proof.
  revert seen. induction l as [|y l IH]; intros seen; simpl.
  - constructor.
  - destruct (set_has seen y) eqn:E; [apply IH|].
    constructor; [|apply IH].
    rewrite firstSeen_In, in_app_iff. simpl. tauto.
Qed.

Lemma firstSeen_app (l1 l2 seen : list jsstring) :
  firstSeen seen (l1 ++ l2)
  = firstSeen seen l1 ++ firstSeen (seen ++ firstSeen seen l1) l2.
Proof.
  revert seen. induction l1 as [|y l1 IH]; intros seen; simpl.
  - now rewrite app_nil_r.
  - destruct (set_has seen y) eqn:E; [apply IH|].
    simpl. rewrite IH. now rewrite <- app_assoc.
Qed.

Lemma set_add_fold (l files : list jsstring) :
  fold_left set_add l files = files ++ firstSeen files l.
Proof.
  revert files. induction l as [|y l IH]; intros files; simpl.
  - now rewrite app_nil_r.
  - rewrite IH. unfold set_add. destruct (set_has files y).
    + reflexivity.
    + now rewrite <- app_assoc.
Qed.

Lemma map_set_absent (m : fmap) (k : jsstring) (v : bool) :
  map_has m k = false -> map_set m k v = m ++ [(k, v)].
Proof.
  induction m as [|[k' v'] m IH]; simpl; [reflexivity|].
  intros H. apply orb_false_iff in H as [H1 H2]. rewrite H1.
  now rewrite IH.
Qed.

Lemma map_set_present_same (m : fmap) (k : jsstring) (v : bool) :
  map_has m k = true -> Forall (fun e => snd e = v) m -> map_set m k v = m.
Proof.
  induction m as [|[k' v'] m IH]; simpl; [discriminate|].
  intros H Hall. apply Forall_cons_iff in Hall as [Hv Hall']. simpl in Hv.
  destruct (jseqb k k') eqn:E.
  - now subst.
  - simpl in H. now rewrite IH.
Qed.

Lemma tagged_keys (v : bool) (l : list jsstring) : map fst (tagged v l) = l.
Proof.
  unfold tagged. rewrite map_map. simpl. apply map_id.
Qed.

Lemma tagged_values (v : bool) (l : list jsstring) :
  Forall (fun e => snd e = v) (tagged v l).
Proof.
  unfold tagged. apply Forall_forall. intros e He.
  apply in_map_iff in He as [p [<- _]]. reflexivity.
Qed.

Lemma tagged_app (v : bool) (l1 l2 : list jsstring) :
  tagged v (l1 ++ l2) = tagged v l1 ++ tagged v l2.
Proof. apply map_app. Qed.

(** ** The two passes of [extractFiles] as folds over the hits *)

Lemma writeStep_hits (cwd : jsstring) (ms : list (option jsstring)) (m : fmap) :
  fold_left (writeStep cwd) ms m
  = fold_left (fun fm p => map_set fm p true) (hits cwd ms) m.
Proof.
  revert m. induction ms as [|x ms IH]; intros m; simpl; [reflexivity|].
  unfold hits in *. simpl. rewrite fold_left_app, IH. unfold writeStep.
  destruct (accepted x); reflexivity.
Qed.

Lemma readStep_hits (cwd : jsstring) (ms : list (option jsstring)) (m : fmap) :
  fold_left (readStep cwd) ms m = fold_left readAdd (hits cwd ms) m.
Proof.
  revert m. induction ms as [|x ms IH]; intros m; simpl; [reflexivity|].
  unfold hits in *. simpl. rewrite fold_left_app, IH. unfold readStep.
  destruct (accepted x); reflexivity.
Qed.

Lemma readPass_hits (ps : list pattern) (msg cwd : jsstring) (m : fmap) :
  fold_left (fun fm p => fold_left (readStep cwd) (matchAll p msg) fm) ps m
  = fold_left readAdd (hitsOf ps msg cwd) m.
Proof.
  revert m. induction ps as [|p ps IH]; intros m; simpl; [reflexivity|].
  unfold hitsOf in *. simpl. now rewrite fold_left_app, IH, readStep_hits.
Qed.

Lemma setPass_hits (ps : list pattern) (msg cwd : jsstring) (files : list jsstring) :
  fold_left
    (fun fs p =>
       fold_left
         (fun fs m => match accepted m with
                      | Some filePath => set_add fs (normalizePath filePath cwd)
                      | None => fs
                      end)
         (matchAll p msg) fs) ps files
  = fold_left set_add (hitsOf ps msg cwd) files.
Proof.
  revert files. induction ps as [|p ps IH]; intros files; simpl; [reflexivity|].
  unfold hitsOf in *. simpl. rewrite fold_left_app, IH. f_equal.
  generalize (matchAll p msg) as ms. clear. intros ms. revert files.
  induction ms as [|x ms IH]; intros files; simpl; [reflexivity|].
  unfold hits in *. simpl. rewrite fold_left_app, IH.
  destruct (accepted x); reflexivity.
Qed.

Lemma writeFold (ps l : list jsstring) :
  fold_left (fun fm p => map_set fm p true) ps (tagged true l)
  = tagged true (l ++ firstSeen l ps).
Proof.
  revert l. induction ps as [|p ps IH]; intros l; simpl.
  - now rewrite app_nil_r.
  - destruct (set_has l p) eqn:E.
    + rewrite map_set_present_same; [apply IH | | apply tagged_values].
      now rewrite map_has_keys, tagged_keys.
    + rewrite map_set_absent by now rewrite map_has_keys, tagged_keys.
      change [(p, true)] with (tagged true [p]).
      rewrite <- tagged_app, IH. now rewrite <- app_assoc.
Qed.

Lemma readFold (ps : list jsstring) (m : fmap) :
  fold_left readAdd ps m = m ++ tagged false (firstSeen (map fst m) ps).
Proof.
  revert m. induction ps as [|p ps IH]; intros m; simpl.
  - now rewrite app_nil_r.
  - unfold readAdd at 2. rewrite map_has_keys.
    destruct (set_has (map fst m) p) eqn:E; simpl.
    + apply IH.
    + rewrite map_set_absent by now rewrite map_has_keys.
      rewrite IH, map_app. simpl. now rewrite <- app_assoc.
Qed.

Lemma no_match_in_empty (p : pattern) :
  In p (WRITE_PATTERN :: ACTION :: READ_PATTERNS) -> matchAll p [] = [].
Proof.
  simpl. intros H.
  repeat (destruct H as [<-|H]; [reflexivity|]). contradiction.
Qed.

Lemma hitsOf_empty (ps : list pattern) (cwd : jsstring) :
  incl ps (WRITE_PATTERN :: ACTION :: READ_PATTERNS) -> hitsOf ps [] cwd = [].
Proof.
  induction ps as [|p ps IH]; intros H; [reflexivity|].
  unfold hitsOf in *. simpl. rewrite no_match_in_empty.
  - simpl. apply IH. intros x Hx. apply H. now right.
  - apply H. now left.
Qed.

(** The result of [extractFiles] in closed form: the write hits at their
    first occurrence, flagged as writes, then the read hits that no write
    pass recorded, at their first occurrence, flagged as reads. *)
Lemma extractFiles_closed_form (msg cwd : jsstring) :
  extractFiles (Some msg) cwd
  = map (fun p => mkFile p true) (firstSeen [] (writeHits msg cwd))
    ++ map (fun p => mkFile p false)
         (firstSeen (firstSeen [] (writeHits msg cwd)) (readHits msg cwd)).
Proof.
  destruct msg as [|c msg].
  - unfold writeHits, readHits. rewrite !hitsOf_empty; [reflexivity| |].
    + intros x Hx. right. now right.
    + intros x [<-|[]]. now left.
  - unfold extractFiles.
    rewrite writeStep_hits, readPass_hits.
    change (@nil (jsstring * bool)) with (tagged true []).
    rewrite writeFold, readFold. simpl app.
    rewrite tagged_keys, map_app. unfold tagged. rewrite !map_map. simpl.
    unfold writeHits, readHits, hitsOf. simpl flat_map.
    now rewrite !app_nil_r.
Qed.

Lemma extractFilePaths_closed_form (msg cwd : jsstring) :
  extractFilePaths (Some msg) cwd = firstSeen [] (hitsOf PATTERNS msg cwd).
Proof.
  destruct msg as [|c msg].
  - rewrite hitsOf_empty; [reflexivity|].
    intros x Hx. simpl in *. tauto.
  - unfold extractFilePaths. now rewrite setPass_hits, set_add_fold.
Qed.

Lemma extractFiles_textOf (message : option jsstring) (cwd : jsstring) :
  extractFiles message cwd = extractFiles (Some (textOf message)) cwd.
Proof. destruct message as [msg|]; reflexivity. Qed.

Lemma extractFilePaths_textOf (message : option jsstring) (cwd : jsstring) :
  extractFilePaths message cwd = extractFilePaths (Some (textOf message)) cwd.
Proof. destruct message as [msg|]; reflexivity. Qed.

Lemma firstSeen_ext (l s1 s2 : list jsstring) :
  (forall x, In x s1 <-> In x s2) -> firstSeen s1 l = firstSeen s2 l.
Proof.
  revert s1 s2. induction l as [|y l IH]; intros s1 s2 H; simpl; [reflexivity|].
  assert (E : set_has s1 y = set_has s2 y).
  { destruct (set_has s1 y) eqn:E1; symmetry.
    - apply set_has_In. apply H. now apply set_has_In.
    - apply set_has_not_In. rewrite <- H. now apply set_has_not_In. }
  rewrite E. destruct (set_has s2 y); [now apply IH|].
  f_equal. apply IH. intros x. rewrite !in_app_iff, H. reflexivity.
Qed.

Lemma firstSeen_nil_In (l : list jsstring) (x : jsstring) :
  In x (firstSeen [] l) <-> In x l.
Proof. rewrite firstSeen_In. simpl. tauto. Qed.

Lemma filter_key_tagged (v : bool) (p : jsstring) (l : list jsstring) :
  filter (fun f => jseqb (path f) p) (map (fun q => mkFile q v) l)
  = map (fun q => mkFile q v) (filter (fun q => jseqb q p) l).
Proof.
  induction l as [|q l IH]; simpl; [reflexivity|].
  destruct (jseqb q p); simpl; now rewrite IH.
Qed.

Lemma filter_absent (p : jsstring) (l : list jsstring) :
  ~ In p l -> filter (fun q => jseqb q p) l = [].
Proof.
  induction l as [|q l IH]; simpl; intros H; [reflexivity|].
  destruct (jseqb q p) eqn:E.
  - apply jseqb_eq in E. tauto.
  - apply IH. tauto.
Qed.

Lemma filter_NoDup_present (p : jsstring) (l : list jsstring) :
  NoDup l -> In p l -> filter (fun q => jseqb q p) l = [p].
Proof.
  induction l as [|q l IH]; simpl; intros Hn Hin; [contradiction|].
  apply NoDup_cons_iff in Hn as [Hq Hn].
  destruct (jseqb q p) eqn:E.
  - apply jseqb_eq in E. subst q. now rewrite filter_absent.
  - apply jseqb_neq in E. destruct Hin as [->|Hin]; [contradiction|].
    now apply IH.
Qed.

(** ** The claims on [extractFiles] and [extractFilePaths] *)

(** C1.  Whenever a normalized path is detected by the write-verb pattern
    and by a read-oriented pattern of the same message (the two detections
    in any textual order), [extractFiles] returns exactly one record for
    that path, and the record is flagged as a write. *)
Theorem write_wins_over_read (message : option jsstring) (cwd p : jsstring) :
  In p (writeHits (textOf message) cwd) ->
  In p (readHits (textOf message) cwd) ->
  filter (fun f => jseqb (path f) p) (extractFiles message cwd)
  = [mkFile p true].
Proof.
  intros Hw _. rewrite extractFiles_textOf, extractFiles_closed_form.
  rewrite filter_app, !filter_key_tagged.
  rewrite filter_NoDup_present.
  - rewrite filter_absent; [reflexivity|].
    rewrite firstSeen_In, firstSeen_nil_In. tauto.
  - apply firstSeen_NoDup.
  - now apply firstSeen_nil_In.
Qed.

Lemma write_wins_over_read_witness :
  filter (fun f => jseqb (path f) (str "/project/src/file.ts"))
    (extractFiles (Some msg_read_then_write) (str "/project"))
  = [mkFile (str "/project/src/file.ts") true]
  /\ filter (fun f => jseqb (path f) (str "/project/src/new.ts"))
       (extractFiles (Some msg_write_then_read) (str "/project"))
     = [mkFile (str "/project/src/new.ts") true].
Proof.
  split.
  - apply (write_wins_over_read (Some msg_read_then_write)).
    + vm_compute. left. reflexivity.
    + vm_compute. left. reflexivity.
  - apply (write_wins_over_read (Some msg_write_then_read)).
    + vm_compute. left. reflexivity.
    + vm_compute. left. reflexivity.
Defined.

Lemma extractFiles_shape (message : option jsstring) (cwd : jsstring) :
  extractFiles message cwd
  = map (fun p => mkFile p true) (firstSeen [] (writeHits (textOf message) cwd))
    ++ map (fun p => mkFile p false)
         (firstSeen (writeHits (textOf message) cwd)
            (readHits (textOf message) cwd)).
Proof.
  rewrite extractFiles_textOf, extractFiles_closed_form.
  f_equal. f_equal. apply firstSeen_ext. apply firstSeen_nil_In.
Qed.

Lemma extractFiles_paths (message : option jsstring) (cwd : jsstring) :
  map path (extractFiles message cwd)
  = firstSeen [] (writeHits (textOf message) cwd)
    ++ firstSeen (writeHits (textOf message) cwd) (readHits (textOf message) cwd).
Proof.
  rewrite extractFiles_shape, map_app, !map_map. simpl. now rewrite !map_id.
Qed.

Lemma extractFiles_paths_In (message : option jsstring) (cwd p : jsstring) :
  In p (map path (extractFiles message cwd))
  <-> In p (writeHits (textOf message) cwd)
      \/ In p (readHits (textOf message) cwd).
Proof.
  rewrite extractFiles_paths, in_app_iff, firstSeen_nil_In, firstSeen_In.
  destruct (set_has (writeHits (textOf message) cwd) p) eqn:Hp.
  - apply set_has_In in Hp. tauto.
  - apply set_has_not_In in Hp. tauto.
Qed.

(** C5.  [extractFiles] returns at most one record per normalized path.
    Its records are, in this order, the paths detected by the write pass,
    each at its first detection and flagged as a write, then the paths
    detected by the read pass alone, each at its first detection and flagged
    as a read; repeated detections add nothing. *)
Theorem extractFiles_unique_and_ordered (message : option jsstring)
    (cwd : jsstring) :
  let W := writeHits (textOf message) cwd in
  let R := readHits (textOf message) cwd in
  NoDup (map path (extractFiles message cwd))
  /\ extractFiles message cwd
     = map (fun p => mkFile p true) (firstSeen [] W)
       ++ map (fun p => mkFile p false) (firstSeen W R)
  /\ (forall p, In p (map path (extractFiles message cwd))
                <-> In p W \/ In p R).
Proof.
  intros W R. split; [|split].
  - rewrite extractFiles_paths. fold W R.
    rewrite (@firstSeen_ext R W ([] ++ firstSeen [] W)).
    + rewrite <- firstSeen_app. apply firstSeen_NoDup.
    + intros x. simpl. now rewrite firstSeen_nil_In.
  - apply extractFiles_shape.
  - intros p. apply extractFiles_paths_In.
Qed.

(** C8.  An absent or empty message yields the empty sequence, from both
    entry points and for every working directory; both functions are total,
    so no error is raised. *)
Theorem empty_message_yields_nothing (cwd : jsstring) :
  extractFiles None cwd = [] /\ extractFiles (Some []) cwd = []
  /\ extractFilePaths None cwd = [] /\ extractFilePaths (Some []) cwd = [].
Proof. repeat split. Qed.

Lemma hitsOf_app (ps qs : list pattern) (msg cwd : jsstring) :
  hitsOf (ps ++ qs) msg cwd = hitsOf ps msg cwd ++ hitsOf qs msg cwd.
Proof. unfold hitsOf. apply flat_map_app. Qed.

Lemma hitsOf_cons (p : pattern) (ps : list pattern) (msg cwd : jsstring) :
  hitsOf (p :: ps) msg cwd = hitsOf [p] msg cwd ++ hitsOf ps msg cwd.
Proof. apply (hitsOf_app [p] ps). Qed.

(** Membership in the result of the legacy entry point. *)
Lemma extractFilePaths_In (msg cwd p : jsstring) :
  In p (extractFilePaths (Some msg) cwd)
  <-> In p (hitsOf SHARED_PATTERNS msg cwd) \/ In p (hitsOf [ACTION] msg cwd).
Proof.
  rewrite extractFilePaths_closed_form, firstSeen_nil_In.
  unfold PATTERNS, SHARED_PATTERNS.
  rewrite (hitsOf_cons CODE_BLOCK_HEADER), (hitsOf_cons BACKTICK_PATH),
    (hitsOf_cons ACTION).
  rewrite (hitsOf_cons CODE_BLOCK_HEADER [BACKTICK_PATH; QUOTED_PATH]),
    (hitsOf_cons BACKTICK_PATH [QUOTED_PATH]).
  rewrite !in_app_iff. tauto.
Qed.

(** Membership in the result of the write-detecting entry point. *)
Lemma extractFiles_In (msg cwd p : jsstring) :
  In p (map path (extractFiles (Some msg) cwd))
  <-> In p (hitsOf SHARED_PATTERNS msg cwd)
      \/ In p (hitsOf [WRITE_PATTERN; READ_ACTION] msg cwd).
Proof.
  rewrite extractFiles_paths_In. simpl textOf. unfold writeHits, readHits, READ_PATTERNS,
    SHARED_PATTERNS.
  rewrite (hitsOf_cons CODE_BLOCK_HEADER), (hitsOf_cons BACKTICK_PATH),
    (hitsOf_cons QUOTED_PATH).
  rewrite (hitsOf_cons CODE_BLOCK_HEADER [BACKTICK_PATH; QUOTED_PATH]),
    (hitsOf_cons BACKTICK_PATH [QUOTED_PATH]).
  rewrite (hitsOf_cons WRITE_PATTERN [READ_ACTION]).
  rewrite !in_app_iff. tauto.
Qed.

(** C10, as stated: the two entry points return the same set of paths.
    The combined action pattern and the two separate action patterns scan
    the message independently and their matches do not overlap, so a verb
    inside the path of an earlier verb phrase is seen by one and not by the
    other. *)
Lemma entry_points_differ :
  ~ (forall p,
       In p (extractFilePaths (Some (str "Read a.Edit b.ts")) (str "/p"))
       <-> In p (map path
                   (extractFiles (Some (str "Read a.Edit b.ts")) (str "/p")))).
Proof.
  intros H.
  assert (Hin : In (str "/p/b.ts")
                  (map path (extractFiles (Some (str "Read a.Edit b.ts"))
                               (str "/p")))).
  { vm_compute. left. reflexivity. }
  apply H in Hin. vm_compute in Hin.
  destruct Hin as [E|[]]. discriminate E.
Qed.

(** *** The combined action pattern against the two separate ones *)

Section ActionSplit.
Variable R : Type.

Lemma rmatch_alt_assoc (a b c t : regex) (s : jsstring)
    (cap : option jsstring) (k : cont R) :
  rmatch true (RSeq (RAlt a (RAlt b c)) t) s cap k
  = match rmatch true (RSeq (RAlt a b) t) s cap k with
    | Some x => Some x
    | None => rmatch true (RSeq c t) s cap k
    end.
Proof.
  cbn [rmatch].
  destruct (rmatch true a s cap (fun s1 cap1 => rmatch true t s1 cap1 k));
    [reflexivity|].
  destruct (rmatch true b s cap (fun s1 cap1 => rmatch true t s1 cap1 k));
    reflexivity.
Qed.

(** An alternation of words fails on a text whose first character starts
    none of them. *)
Lemma alt_first_letter (vs : list jsstring) (c : cu) (s : jsstring)
    (cap : option jsstring) (k : cont R) :
  Forall (fun v => match v with
                   | l :: _ => lit_matches true c l = false
                   | [] => False
                   end) vs ->
  rmatch true (alt vs) (c :: s) cap k = None.
Proof.
  induction vs as [|v vs IH]; intros H.
  - reflexivity.
  - apply Forall_cons_iff in H as [Hv H].
    assert (Ev : rmatch true (lit v) (c :: s) cap k = None).
    { destruct v as [|l v]; [contradiction|]. cbn [lit rmatch atom_matches].
      now rewrite Hv. }
    destruct vs as [|v2 vs]; [exact Ev|].
    change (alt (v :: v2 :: vs)) with (RAlt (lit v) (alt (v2 :: vs))).
    cbn [rmatch]. rewrite Ev. now apply IH.
Qed.
End ActionSplit.

Lemma action_pattern_re (vs : list jsstring) :
  p_re (mkPattern (seq (alt vs :: action_tail)) true)
  = RSeq (alt vs) (seq action_tail).
Proof. reflexivity. Qed.

(** At any place, the combined pattern matches as the read-verb pattern
    does, and where that one fails, as the write-verb pattern does. *)
Lemma action_exec_split (s : jsstring) :
  exec_at ACTION s
  = match exec_at READ_ACTION s with
    | Some x => Some x
    | None => exec_at WRITE_PATTERN s
    end.
Proof.
  unfold exec_at, ACTION, READ_ACTION, WRITE_PATTERN.
  rewrite !action_pattern_re. cbn [p_ic].
  change (alt (READ_VERBS ++ WRITE_VERBS))
    with (RAlt (lit (str "Read")) (RAlt (lit (str "List")) (alt WRITE_VERBS))).
  change (alt READ_VERBS) with (RAlt (lit (str "Read")) (lit (str "List"))).
  apply rmatch_alt_assoc.
Qed.

Lemma first_letter_differs (c l : cu) (v : jsstring) :
  lit_matches true c l = true ->
  cu_eqb (canonicalize l) (canonicalize (hd 0%N v)) = false ->
  v <> [] ->
  match v with
  | l' :: _ => lit_matches true c l' = false
  | [] => False
  end.
Proof.
  intros H E Hv. destruct v as [|l' v]; [contradiction|].
  unfold lit_matches in *. apply cu_eqb_eq in H. now rewrite H.
Qed.

(** The read verbs and the write verbs start with different letters: the
    two patterns never match at the same place. *)
Lemma read_write_exclusive (s : jsstring) (x : nat * option jsstring) :
  exec_at READ_ACTION s = Some x -> exec_at WRITE_PATTERN s = None.
Proof.
  destruct s as [|c s]; [discriminate|].
  unfold exec_at, READ_ACTION, WRITE_PATTERN.
  rewrite !action_pattern_re. cbn [p_ic rmatch]. intros H.
  destruct (lit_matches true c 82%N) eqn:ER.
  - apply alt_first_letter. unfold WRITE_VERBS.
    repeat (constructor;
            [apply (@first_letter_differs c 82%N _ ER); [reflexivity|discriminate]|]).
    constructor.
  - destruct (lit_matches true c 76%N) eqn:EL.
    + apply alt_first_letter. unfold WRITE_VERBS.
      repeat (constructor;
              [apply (@first_letter_differs c 76%N _ EL); [reflexivity|discriminate]|]).
      constructor.
    + rewrite alt_first_letter in H; [discriminate|].
      unfold READ_VERBS. repeat constructor; assumption.
Qed.

Lemma noMatchWithin_step (pat : pattern) (n : nat) (c : cu) (s : jsstring) :
  noMatchWithin pat (S n) (c :: s) = true ->
  exec_at pat (c :: s) = None /\ noMatchWithin pat n s = true.
Proof.
  cbn [noMatchWithin]. destruct (exec_at pat (c :: s)); [discriminate|].
  now split.
Qed.

(** Where no verb phrase starts inside a verb phrase of the other kind, the
    scan of the combined pattern finds what the two separate scans find.
    The scan inside a read-verb phrase, and the scan inside a write-verb
    phrase. *)
Lemma action_scans_agree (s : jsstring) :
  apartFrom WRITE_PATTERN READ_ACTION s = true ->
  apartFrom READ_ACTION WRITE_PATTERN s = true ->
  (forall k m,
      noMatchWithin WRITE_PATTERN k s = true ->
      In m (scan ACTION s k)
      <-> In m (scan READ_ACTION s k) \/ In m (scan WRITE_PATTERN s 0))
  /\ (forall k m,
        noMatchWithin READ_ACTION k s = true ->
        In m (scan ACTION s k)
        <-> In m (scan READ_ACTION s 0) \/ In m (scan WRITE_PATTERN s k)).
Proof.
  induction s as [|c s IH]; intros HW HR.
  - split; intros k m _; destruct k; simpl; tauto.
  - cbn [apartFrom] in HW, HR.
    apply andb_true_iff in HW as [HW0 HW]. apply andb_true_iff in HR as [HR0 HR].
    destruct (IH HW HR) as [IHr IHw]. clear IH.
    assert (Hidle : forall m,
               In m (scan ACTION (c :: s) 0)
               <-> In m (scan READ_ACTION (c :: s) 0)
                   \/ In m (scan WRITE_PATTERN (c :: s) 0)).
    { intros m. cbn [scan]. rewrite action_exec_split.
      unfold matchSpan in HW0, HR0.
      destruct (exec_at READ_ACTION (c :: s)) as [[len cap]|] eqn:ER.
      - rewrite (read_write_exclusive _ ER). cbn [In].
        rewrite (IHr (pred len) m HW0). tauto.
      - destruct (exec_at WRITE_PATTERN (c :: s)) as [[len cap]|] eqn:EW.
        + cbn [In]. rewrite (IHw (pred len) m HR0). tauto.
        + apply (IHr 0 m). reflexivity. }
    split; intros k m Hk.
    + destruct k as [|k]; [apply Hidle|].
      apply noMatchWithin_step in Hk as [EW Hk].
      cbn [scan]. rewrite EW. now apply IHr.
    + destruct k as [|k]; [apply Hidle|].
      apply noMatchWithin_step in Hk as [ER Hk].
      cbn [scan]. rewrite ER. now apply IHw.
Qed.

Lemma action_hits_agree (msg cwd p : jsstring) :
  verbPhrasesApart msg = true ->
  In p (hitsOf [ACTION] msg cwd)
  <-> In p (hitsOf [WRITE_PATTERN; READ_ACTION] msg cwd).
Proof.
  unfold verbPhrasesApart. intros H. apply andb_true_iff in H as [HW HR].
  destruct (action_scans_agree msg HW HR) as [Hs _].
  unfold hitsOf. cbn [flat_map]. rewrite !app_nil_r, in_app_iff.
  unfold hits. rewrite !in_flat_map. split.
  - intros (m & Hm & Hp). apply (Hs 0 m eq_refl) in Hm as [Hm|Hm].
    + right. now exists m.
    + left. now exists m.
  - intros [(m & Hm & Hp)|(m & Hm & Hp)]; exists m; split; auto;
      apply (Hs 0 m eq_refl); [now right | now left].
Qed.

(** C10, amended.  Both entry points return every path detected by the
    code-block, backtick and quote patterns; and on every message in which
    no write-verb phrase starts inside a read-verb phrase and no read-verb
    phrase starts inside a write-verb phrase, the two entry points return
    the same set of paths. *)
Theorem entry_points_agree (message : option jsstring) (cwd : jsstring) :
  (forall p, In p (hitsOf SHARED_PATTERNS (textOf message) cwd) ->
             In p (extractFilePaths message cwd)
             /\ In p (map path (extractFiles message cwd)))
  /\ (verbPhrasesApart (textOf message) = true ->
      forall p, In p (extractFilePaths message cwd)
                <-> In p (map path (extractFiles message cwd))).
Proof.
  rewrite extractFiles_textOf, extractFilePaths_textOf.
  split.
  - intros p Hp. rewrite extractFilePaths_In, extractFiles_In. tauto.
  - intros Hapart p.
    rewrite extractFilePaths_In, extractFiles_In.
    rewrite (action_hits_agree (textOf message) cwd p Hapart). tauto.
Qed.

Lemma entry_points_agree_witness :
  In (str "/p/src/file.ts")
     (extractFilePaths (Some msg_read_then_write) (str "/p"))
  <-> In (str "/p/src/file.ts")
        (map path (extractFiles (Some msg_read_then_write) (str "/p"))).
Proof.
  apply (proj2 (entry_points_agree (Some msg_read_then_write) (str "/p"))).
  vm_compute. reflexivity.
Defined.

(** The message of the counterexample has a write-verb phrase inside a
    read-verb phrase. *)
Example nested_verb_phrase :
  verbPhrasesApart (str "Read a.Edit b.ts") = false
  /\ verbPhrasesApart (str "Read a.List b.ts") = true
  /\ verbPhrasesApart msg_scenario_1 = true.
Proof. repeat split; vm_compute; reflexivity. Qed.

(** ** The rate limiter *)

(** C2.  With a recorded timestamp [T], a report is not due 59 seconds
    later and is due 60 seconds later; with no recorded timestamp a report
    is always due. *)
Theorem isDue_threshold (T : Z) :
  isDue (mkState (Some T)) (T + 59) = false
  /\ isDue (mkState (Some T)) (T + 60) = true
  /\ (forall t, isDue (mkState None) t = true).
Proof.
  unfold isDue, RATE_LIMIT_SECONDS. simpl. repeat split.
  - apply Z.leb_gt. lia.
  - apply Z.leb_le. lia.
Qed.

(** ** Soundness of the matcher *)

Section MatcherSound.
Variable R : Type.
Variable ic : bool.

Lemma rep_greedy_sound (a : atom) (s : jsstring) :
  forall lo hi (k : jsstring -> option R) x,
    rep_greedy ic a lo hi s k = Some x ->
    exists w s',
      s = w ++ s' /\ lo <= length w /\ within hi (length w)
      /\ Forall (fun c => atom_matches ic a c = true) w
      /\ k s' = Some x.
Proof.
  induction s as [|c s IH]; intros lo hi k x H.
  - simpl in H. destruct lo; [|discriminate].
    exists [], []. repeat split; simpl; auto.
    destruct hi; simpl; lia.
  - assert (Hstop : match lo with 0 => k (c :: s) | S _ => None end = Some x ->
                    exists w s', c :: s = w ++ s' /\ lo <= length w
                      /\ within hi (length w)
                      /\ Forall (fun c => atom_matches ic a c = true) w
                      /\ k s' = Some x).
    { intros Hs. destruct lo; [|discriminate].
      exists [], (c :: s). repeat split; simpl; auto.
      destruct hi; simpl; lia. }
    simpl in H.
    destruct (hi_allows hi && atom_matches ic a c) eqn:E; [|now apply Hstop].
    apply andb_true_iff in E as [Hhi Hc].
    destruct (rep_greedy ic a (pred lo) (hi_pred hi) s k) eqn:Er;
      [|now apply Hstop].
    injection H as ->.
    apply IH in Er as (w & s' & -> & Hlo & Hw & Hall & Hk).
    exists (c :: w), s'. repeat split; simpl; auto.
    + lia.
    + destruct hi as [[|h]|]; simpl in *; try discriminate; lia.
Qed.

Lemma rmatch_sound (r : regex) :
  forall s cap (k : cont R) x,
    rmatch ic r s cap k = Some x ->
    exists w s' cap', s = w ++ s' /\ lang ic r w /\ k s' cap' = Some x.
Proof.
  induction r as [|a|r1 IH1 r2 IH2|r1 IH1 r2 IH2|lo hi a|r IH];
    intros s cap k x H; simpl in H.
  - exists [], s, cap. repeat split; auto. constructor.
  - destruct s as [|c s]; [discriminate|].
    destruct (atom_matches ic a c) eqn:E; [|discriminate].
    exists [c], s, cap. repeat split; auto. now constructor.
  - apply IH1 in H as (w1 & s1 & cap1 & -> & L1 & H).
    apply IH2 in H as (w2 & s2 & cap2 & -> & L2 & H).
    exists (w1 ++ w2), s2, cap2. rewrite app_assoc.
    repeat split; auto. now constructor.
  - destruct (rmatch ic r1 s cap k) eqn:E.
    + injection H as ->. apply IH1 in E as (w & s' & cap' & -> & L & H).
      exists w, s', cap'. repeat split; auto. now apply lang_alt_l.
    + apply IH2 in H as (w & s' & cap' & -> & L & H).
      exists w, s', cap'. repeat split; auto. now apply lang_alt_r.
  - apply rep_greedy_sound in H as (w & s' & -> & Hlo & Hhi & Hall & H).
    exists w, s', cap. repeat split; auto. now constructor.
  - apply IH in H as (w & s' & cap' & -> & L & H).
    eexists w, s', _.
    split; [reflexivity | split; [now constructor | exact H]].
Qed.

(** The capture of a group is what the group consumed. *)
Lemma rmatch_group_sound (r : regex) (s : jsstring) (cap : option jsstring)
    (k : cont R) (x : R) :
  rmatch ic (RGroup r) s cap k = Some x ->
  exists w s', s = w ++ s' /\ lang ic r w /\ k s' (Some w) = Some x.
Proof.
  simpl. intros H.
  apply rmatch_sound in H as (w & s' & cap' & -> & L & H).
  exists w, s'. repeat split; auto.
  rewrite length_app, Nat.add_sub, firstn_app, Nat.sub_diag, firstn_all in H.
  simpl in H. now rewrite app_nil_r in H.
Qed.
End MatcherSound.

(** Every element of [matchAll] is the capture of a match at some place. *)
Lemma scan_In (p : pattern) (s : jsstring) :
  forall skip m, In m (scan p s skip) ->
                 exists s' len, exec_at p s' = Some (len, m).
Proof.
  induction s as [|c s IH]; intros skip m H; simpl in H.
  - destruct skip; [|contradiction].
    destruct (exec_at p []) as [[len cap]|] eqn:E; [|contradiction].
    destruct H as [<-|[]]. now exists [], len.
  - destruct skip as [|n]; [|now apply IH in H].
    destruct (exec_at p (c :: s)) as [[len cap]|] eqn:E.
    + destruct H as [<-|H]; [now exists (c :: s), len | now apply IH in H].
    + now apply IH in H.
Qed.

(** ** The shape of a captured path *)

Lemma lit_matches_dot (ic : bool) (c : cu) :
  lit_matches ic c CHAR_DOT = true -> c = CHAR_DOT.
Proof.
  unfold lit_matches, canonicalize, cu_eqb, in_range, CHAR_DOT.
  destruct ic; simpl; [|now intros H%N.eqb_eq].
  destruct ((97 <=? c)%N && (c <=? 122)%N) eqn:E; intros H%N.eqb_eq.
  - apply andb_true_iff in E as [E1%N.leb_le E2]. lia.
  - assumption.
Qed.

(** A path captured as [one or more class characters, a dot, one to six
    word characters]. *)
Lemma dot_ext_shape (ic : bool) (cls : atom) (w : jsstring) :
  lang ic (seq (plus cls :: dot_ext)) w ->
  exists stem ext,
    w = stem ++ CHAR_DOT :: ext
    /\ stem <> []
    /\ 1 <= length ext <= 6
    /\ Forall (fun c => isWord c = true) ext.
Proof.
  unfold dot_ext, plus. cbn [seq]. intros H.
  inversion H as [| |r1 r2 w1 w23 L1 L23| | | |]; subst; clear H.
  inversion L23 as [| |r1 r2 w2 w3 L2 L3| | | |]; subst; clear L23.
  inversion L1 as [| | | | |lo hi a w' Hlo Hhi Hall|]; subst; clear L1.
  inversion L2 as [|a c Hc| | | | |]; subst; clear L2.
  inversion L3 as [| | | | |lo hi a w' Hlo3 Hhi3 Hall3|]; subst; clear L3.
  simpl in Hc. apply lit_matches_dot in Hc. subst c.
  exists w1, w3. simpl in *. repeat split; auto; try lia.
  intros ->. simpl in Hlo. lia.
Qed.

Lemma wrapped_group_capture (ic : bool) (a b : atom) (body : regex)
    (s : jsstring) (f : jsstring -> nat) (len : nat) (cap : option jsstring) :
  rmatch ic (RSeq (RAtom a) (RSeq (RGroup body) (RAtom b))) s None
    (fun s1 cap1 => Some (f s1, cap1)) = Some (len, cap) ->
  exists w, cap = Some w /\ lang ic body w.
Proof.
  intros H. cbn [rmatch] in H.
  destruct s as [|c s1]; [discriminate|].
  destruct (atom_matches ic a c); [|discriminate].
  change (rmatch ic (RGroup body) s1 None
            (fun s2 cap2 => rmatch ic (RAtom b) s2 cap2
                              (fun s3 cap3 => Some (f s3, cap3)))
          = Some (len, cap)) in H.
  apply rmatch_group_sound in H as (w & s' & -> & L & H).
  exists w. split; [|exact L].
  simpl in H. destruct s' as [|c' s']; [discriminate|].
  destruct (atom_matches ic b c'); [|discriminate].
  now injection H as _ <-.
Qed.

Lemma exec_backtick_capture (s : jsstring) (len : nat) (cap : option jsstring) :
  exec_at BACKTICK_PATH s = Some (len, cap) ->
  exists w, cap = Some w
            /\ lang false (seq (plus (ANoneOf true [CHAR_BACKTICK]) :: dot_ext)) w.
Proof.
  unfold exec_at. intros H.
  now apply wrapped_group_capture
    with (a := ALit CHAR_BACKTICK) (b := ALit CHAR_BACKTICK) (s := s)
         (f := fun s1 => length s - length s1) (len := len).
Qed.

(** ** [extname] on a path that ends in a dot and word characters *)

Lemma isWord_plain (c : cu) :
  isWord c = true -> isSlash c = false /\ isDot c = false.
Proof.
  intros H. unfold isSlash, isDot. split.
  - destruct (cu_eqb c CHAR_FORWARD_SLASH) eqn:E; [|reflexivity].
    apply cu_eqb_eq in E. subst c. discriminate H.
  - destruct (cu_eqb c CHAR_DOT) eqn:E; [|reflexivity].
    apply cu_eqb_eq in E. subst c. discriminate H.
Qed.

Lemma extname_loop_plain (rs rest : jsstring) (st : ExtScan) (e : nat) :
  Forall plain rs -> startDot st = None -> endIdx st = Some e ->
  extname_loop (rs ++ rest) st = extname_loop rest st.
Proof.
  intros Hall Hsd He. induction Hall as [|c rs [Hs Hd] Hall IH]; [reflexivity|].
  simpl. rewrite Hs, He, Hd, Hsd. simpl. exact IH.
Qed.

Lemma extname_loop_first_plain (rs rest : jsstring) :
  Forall plain rs -> rs <> [] ->
  extname_loop (rs ++ rest) (mkExtScan None 0 None true 0)
  = extname_loop rest (mkExtScan None 0 (Some (length (rs ++ rest))) false 0).
Proof.
  intros Hall Hne. destruct rs as [|c rs]; [contradiction|].
  apply Forall_cons_iff in Hall as [[Hs Hd] Hall].
  simpl. rewrite Hs, Hd. simpl.
  rewrite Nat.add_1_r.
  now apply extname_loop_plain with (e := S (length (rs ++ rest))).
Qed.

Lemma extname_loop_keeps (rs : jsstring) :
  forall st sd e,
    startDot st = Some sd -> endIdx st = Some e ->
    startDot (extname_loop rs st) = Some sd
    /\ endIdx (extname_loop rs st) = Some e.
Proof.
  induction rs as [|c rs IH]; intros st sd e Hsd He; simpl; [now split|].
  destruct (isSlash c).
  - destruct (negb (matchedSlash st)); simpl; [now split | now apply IH].
  - rewrite He. destruct (isDot c).
    + rewrite Hsd. destruct (negb (preDotState st =? 1)%Z); now apply IH.
    + rewrite Hsd. simpl. now apply IH.
Qed.

Lemma extname_dot_ext (stem ext : jsstring) :
  ext <> [] -> Forall (fun c => isWord c = true) ext ->
  extname (stem ++ CHAR_DOT :: ext) = []
  \/ extname (stem ++ CHAR_DOT :: ext) = CHAR_DOT :: ext.
Proof.
  intros Hne Hall. unfold extname.
  rewrite rev_app_distr. simpl rev. rewrite <- app_assoc. simpl app.
  rewrite extname_loop_first_plain.
  - simpl extname_loop. unfold isSlash, isDot. simpl cu_eqb.
    cbn [negb matchedSlash endIdx startDot startPart preDotState].
    rewrite length_rev.
    set (st := mkExtScan (Some (length stem)) 0 _ false 0).
    destruct (extname_loop_keeps (rev stem) st (sd := length stem)
                (e := length (rev ext ++ CHAR_DOT :: rev stem)))
      as [Hsd He]; [reflexivity | reflexivity |].
    rewrite Hsd, He.
    match goal with |- context [if ?b then _ else _] => destruct b end;
      [now left | right].
    unfold slice. rewrite length_app. simpl length. rewrite !length_rev.
    rewrite firstn_all2.
    + rewrite skipn_app, Nat.sub_diag, skipn_all. reflexivity.
    + rewrite length_app. simpl. lia.
  - apply Forall_rev. revert Hall. apply Forall_impl. intros c.
    apply isWord_plain.
  - intros E. apply (f_equal (@rev cu)) in E. rewrite rev_involutive in E.
    now subst.
Qed.

(** ** The validator *)

Lemma toLowerCase_length (s : jsstring) : length s <= length (toLowerCase s).
Proof.
  induction s as [|c s IH]; simpl; [lia|].
  rewrite length_app. unfold lowerUnit.
  destruct (in_range 65 90 c); [simpl; lia|].
  destruct (cu_eqb c 304%N); [simpl; lia|].
  destruct (cu_eqb c 8490%N); simpl; lia.
Qed.

Lemma toLowerCase_nonempty (s : jsstring) : toLowerCase s <> [] -> s <> [].
Proof. intros H ->. now apply H. Qed.

Lemma test_invalid_chars (p : jsstring) :
  test INVALID_CHARS p = false -> forall c, In c p -> ~ In c INVALID.
Proof.
  induction p as [|c p IH]; intros H x Hx; [contradiction|].
  cbn [test] in H. unfold exec_at in H. cbn [INVALID_CHARS p_re p_ic rmatch] in H.
  destruct (atom_matches false (AOneOf [60%N; 62%N; 124%N; 63%N; 42%N]) c)
    eqn:E; [discriminate|].
  destruct Hx as [<-|Hx]; [|now apply IH].
  intros Hin. cbn [atom_matches] in E.
  assert (Et : existsb (lit_matches false c) [60%N; 62%N; 124%N; 63%N; 42%N]
               = true).
  { apply existsb_exists. exists c. split; [exact Hin|].
    unfold lit_matches. now apply cu_eqb_eq. }
  congruence.
Qed.

Lemma isValidFilePath_true (p : jsstring) :
  isValidFilePath p = true ->
  p <> [] /\ includes p (str "://") = false
  /\ test INVALID_CHARS p = false
  /\ toLowerCase (extension p) <> []
  /\ length (toLowerCase (extension p)) <= 6.
Proof.
  unfold isValidFilePath. fold (extension p).
  destruct (jseqb p []) eqn:E0; [discriminate|].
  destruct (startsWith p (str "http://") || startsWith p (str "https://")
            || includes p (str "://")) eqn:E1; [discriminate|].
  destruct (test INVALID_CHARS p) eqn:E2; [discriminate|].
  destruct (jseqb (toLowerCase (extension p)) []) eqn:E3; [discriminate|].
  destruct (Nat.ltb 6 (length (toLowerCase (extension p)))) eqn:E4;
    [discriminate|].
  intros _. repeat split.
  - now apply jseqb_neq.
  - now apply orb_false_iff in E1 as [_ E1].
  - now apply jseqb_neq.
  - apply Nat.ltb_ge in E4. exact E4.
Qed.

Lemma url_not_accepted (m : option jsstring) :
  urlShaped m = true -> accepted m = None.
Proof.
  destruct m as [fp|]; [|reflexivity]. unfold urlShaped, accepted. intros H.
  unfold isValidFilePath. rewrite H, !orb_true_r.
  destruct (jseqb fp []); reflexivity.
Qed.

Lemma hits_none (cwd : jsstring) (ms : list (option jsstring)) :
  forallb urlShaped ms = true -> hits cwd ms = [].
Proof.
  induction ms as [|m ms IH]; simpl; [reflexivity|].
  intros H. apply andb_true_iff in H as [Hm Hms].
  unfold hits in *. simpl. rewrite (url_not_accepted m Hm). now apply IH.
Qed.

Lemma forallb_flat_map {A B : Type} (f : B -> bool) (g : A -> list B)
    (l : list A) :
  forallb f (flat_map g l) = true ->
  forall a, In a l -> forallb f (g a) = true.
Proof.
  induction l as [|x l IH]; simpl; intros H a Ha; [contradiction|].
  rewrite forallb_app in H. apply andb_true_iff in H as [H1 H2].
  destruct Ha as [<-|Ha]; [exact H1 | now apply IH].
Qed.

(** C3.  A string accepted by the validator is not empty, holds no URL
    scheme marker and none of the five forbidden characters, and has an
    extension that is not empty and has at most 6 characters.  A message
    whose raw matches all hold the scheme marker yields no record, and so
    does the message of scenario 2. *)
Theorem validator_accepts_only_paths :
  (forall p, isValidFilePath p = true ->
             p <> [] /\ includes p (str "://") = false
             /\ (forall c, In c p -> ~ In c INVALID)
             /\ extension p <> [] /\ length (extension p) <= 6)
  /\ (forall msg cwd, forallb urlShaped (rawMatches msg) = true ->
                      extractFiles (Some msg) cwd = [])
  /\ (forall cwd, extractFiles (Some msg_scenario_2) cwd = []).
Proof.
  assert (Hurl : forall msg cwd, forallb urlShaped (rawMatches msg) = true ->
                                 extractFiles (Some msg) cwd = []).
  { intros msg cwd H. rewrite extractFiles_closed_form.
    assert (Hp : forall p, In p (WRITE_PATTERN :: READ_PATTERNS) ->
                           hits cwd (matchAll p msg) = []).
    { intros p Hp. apply hits_none.
      now apply (forallb_flat_map urlShaped (fun p => matchAll p msg)
                   (WRITE_PATTERN :: READ_PATTERNS)). }
    unfold writeHits, readHits, hitsOf, READ_PATTERNS in *. simpl flat_map.
    rewrite !Hp; simpl; auto 10. }
  split; [|split].
  - intros p H. apply isValidFilePath_true in H as (H0 & H1 & H2 & H3 & H4).
    repeat split; auto.
    + now apply test_invalid_chars.
    + now apply toLowerCase_nonempty.
    + pose proof (toLowerCase_length (extension p)). lia.
  - exact Hurl.
  - intros cwd. apply Hurl. reflexivity.
Qed.

Lemma validator_accepts_only_paths_witness :
  (str "src/a.ts" <> [] /\ includes (str "src/a.ts") (str "://") = false
   /\ (forall c, In c (str "src/a.ts") -> ~ In c INVALID)
   /\ extension (str "src/a.ts") <> []
   /\ length (extension (str "src/a.ts")) <= 6)
  /\ extractFiles (Some msg_urls) (str "/p") = [].
Proof.
  split.
  - apply (proj1 validator_accepts_only_paths). reflexivity.
  - apply (proj1 (proj2 validator_accepts_only_paths)). reflexivity.
Defined.

(** ** The backtick signal class *)

(** C9, as stated: a path accepted from the backtick pattern has an
    alphabetic extension.  [\w] also takes digits and the underscore. *)
Lemma backtick_extension_not_alphabetic :
  ~ (forall fp, In (Some fp) (matchAll BACKTICK_PATH (str "`a.mp3`")) ->
                isValidFilePath fp = true ->
                forallb isAlpha (extension fp) = true).
Proof.
  intros H. specialize (H (str "a.mp3")).
  assert (E : forallb isAlpha (extension (str "a.mp3")) = false)
    by reflexivity.
  rewrite H in E; [discriminate E | | reflexivity].
  vm_compute. left. reflexivity.
Qed.

(** C9, amended.  Every path accepted from the backtick pattern ends in a
    dot followed by its extension, and the extension is made of 1 to 6 word
    characters (ASCII letters, digits, underscore); so no path whose
    extension holds another character is accepted from that pattern. *)
Theorem backtick_extension_is_word (msg fp : jsstring) :
  In (Some fp) (matchAll BACKTICK_PATH msg) ->
  isValidFilePath fp = true ->
  exists stem, fp = stem ++ CHAR_DOT :: extension fp
               /\ stem <> []
               /\ 1 <= length (extension fp) <= 6
               /\ Forall (fun c => isWord c = true) (extension fp).
Proof.
  intros Hin Hvalid.
  apply scan_In in Hin as (s' & len & Hexec).
  apply exec_backtick_capture in Hexec as (w & Hw & L).
  injection Hw as ->.
  apply dot_ext_shape in L as (stem & ext & -> & Hstem & Hlen & Hword).
  apply isValidFilePath_true in Hvalid as (_ & _ & _ & Hext & _).
  apply toLowerCase_nonempty in Hext.
  assert (Hne : ext <> []) by (intros ->; simpl in Hlen; lia).
  unfold extension in *.
  destruct (extname_dot_ext stem Hne Hword) as [E|E]; rewrite E in *.
  - now contradiction Hext.
  - exists stem. simpl. repeat split; auto; lia.
Qed.

Lemma backtick_extension_is_word_witness :
  exists stem, str "a.mp3" = stem ++ CHAR_DOT :: extension (str "a.mp3")
               /\ stem <> []
               /\ 1 <= length (extension (str "a.mp3")) <= 6
               /\ Forall (fun c => isWord c = true) (extension (str "a.mp3")).
Proof.
  apply (backtick_extension_is_word (str "`a.mp3`") (str "a.mp3")).
  - vm_compute. left. reflexivity.
  - reflexivity.
Defined.

(** ** Trimming *)

Lemma dropWhile_split (f : cu -> bool) (s : jsstring) :
  exists l, s = l ++ dropWhile f s /\ Forall (fun c => f c = true) l.
Proof.
  induction s as [|c s (l & E & Hl)]; simpl.
  - now exists [].
  - destruct (f c) eqn:Ef.
    + exists (c :: l). split; [simpl; congruence | now constructor].
    + now exists [].
Qed.

Lemma dropWhile_head (f : cu -> bool) (s : jsstring) (c : cu) (t : jsstring) :
  dropWhile f s = c :: t -> f c = false.
Proof.
  induction s as [|x s IH]; simpl; [discriminate|].
  destruct (f x) eqn:Ef; [exact IH|]. intros E. injection E as -> _. exact Ef.
Qed.

Lemma trim_spec (s : jsstring) :
  exists l r,
    s = l ++ trim s ++ r
    /\ Forall (fun c => isSpace c = true) l
    /\ Forall (fun c => isSpace c = true) r
    /\ (forall c t, trim s = c :: t -> isSpace c = false)
    /\ (forall c t, trim s = t ++ [c] -> isSpace c = false).
Proof.
  unfold trim.
  destruct (dropWhile_split isSpace s) as (l & El & Hl).
  set (d := dropWhile isSpace s) in *.
  destruct (dropWhile_split isSpace (rev d)) as (r & Er & Hr).
  set (e := dropWhile isSpace (rev d)) in *.
  assert (Ed : d = rev e ++ rev r).
  { rewrite <- rev_app_distr, <- Er. symmetry. apply rev_involutive. }
  exists l, (rev r). repeat split.
  - now rewrite <- Ed.
  - exact Hl.
  - now apply Forall_rev.
  - intros c t E. rewrite E in Ed. simpl in Ed.
    apply (dropWhile_head isSpace s (t := t ++ rev r)). exact Ed.
  - intros c t E. apply (f_equal (@rev cu)) in E.
    rewrite rev_involutive, rev_app_distr in E. simpl in E.
    apply (dropWhile_head isSpace (rev d) (t := rev t)). exact E.
Qed.

(** ** Normalization resolves the dot segments *)

Lemma segments_nonempty (s : jsstring) : segments s <> [].
Proof.
  destruct s as [|c s]; simpl; [discriminate|].
  destruct (isSlash c); [discriminate|].
  destruct (segments s); discriminate.
Qed.

Lemma segments_noSlash (s : jsstring) : Forall noSlash (segments s).
Proof.
  induction s as [|c s IH]; simpl.
  - repeat constructor.
  - destruct (isSlash c) eqn:E.
    + constructor; [constructor | exact IH].
    + destruct (segments s) as [|seg rest].
      * repeat constructor. exact E.
      * apply Forall_cons_iff in IH as [H1 H2].
        constructor; [|exact H2]. now constructor.
Qed.

Lemma segments_prefix (a b : jsstring) :
  noSlash a -> segments (a ++ CHAR_FORWARD_SLASH :: b) = a :: segments b.
Proof.
  induction 1 as [|c a Hc Ha IH]; simpl.
  - reflexivity.
  - rewrite Hc, IH. reflexivity.
Qed.

Lemma segments_single (a : jsstring) : noSlash a -> segments a = [a].
Proof.
  induction 1 as [|c a Hc Ha IH]; simpl; [reflexivity|].
  now rewrite Hc, IH.
Qed.

Lemma segments_joinSegs (segs : list jsstring) :
  segs <> [] -> Forall noSlash segs -> segments (joinSegs segs) = segs.
Proof.
  induction segs as [|x segs IH]; intros Hne Hall; [contradiction|].
  apply Forall_cons_iff in Hall as [Hx Hall].
  destruct segs as [|y segs].
  - simpl. now apply segments_single.
  - change (joinSegs (x :: y :: segs))
      with (x ++ CHAR_FORWARD_SLASH :: joinSegs (y :: segs)).
    rewrite segments_prefix by assumption.
    rewrite IH; [reflexivity | discriminate | assumption].
Qed.

Lemma segments_joinSegs_trailing (segs : list jsstring) :
  segs <> [] -> Forall noSlash segs ->
  segments (joinSegs segs ++ [CHAR_FORWARD_SLASH]) = segs ++ [[]].
Proof.
  induction segs as [|x segs IH]; intros Hne Hall; [contradiction|].
  apply Forall_cons_iff in Hall as [Hx Hall].
  destruct segs as [|y segs].
  - simpl joinSegs. now rewrite segments_prefix.
  - change (joinSegs (x :: y :: segs))
      with (x ++ CHAR_FORWARD_SLASH :: joinSegs (y :: segs)).
    rewrite <- app_assoc, <- app_comm_cons.
    rewrite segments_prefix by assumption.
    rewrite IH; [reflexivity | discriminate | assumption].
Qed.

Lemma joinSegs_nil (segs : list jsstring) :
  Forall properSeg segs -> joinSegs segs = [] -> segs = [].
Proof.
  destruct segs as [|x segs]; [reflexivity|].
  intros Hall E. apply Forall_cons_iff in Hall as [(Hx & _) _].
  destruct segs; simpl in E.
  - contradiction.
  - destruct x; [contradiction | discriminate].
Qed.

Lemma resolveStep_proper (res : list jsstring) (seg : jsstring) :
  Forall properSeg res -> noSlash seg ->
  Forall properSeg (resolveStep false res seg).
Proof.
  intros Hres Hseg. unfold resolveStep.
  destruct (jseqb seg []) eqn:E0; [exact Hres|].
  destruct (jseqb seg DOT) eqn:E1; [exact Hres|]. simpl.
  destruct (jseqb seg DOTDOT) eqn:E2.
  - destruct (rev res) as [|lastSeg before] eqn:Er; [constructor|].
    destruct (jseqb lastSeg DOTDOT); [exact Hres|].
    apply Forall_rev in Hres. rewrite Er in Hres.
    apply Forall_cons_iff in Hres as [_ Hb]. now apply Forall_rev.
  - apply Forall_app. split; [exact Hres|].
    constructor; [|constructor].
    apply jseqb_neq in E0, E1, E2. now repeat split.
Qed.

Lemma resolve_proper (segs res : list jsstring) :
  Forall noSlash segs -> Forall properSeg res ->
  Forall properSeg (fold_left (resolveStep false) segs res).
Proof.
  revert res. induction segs as [|seg segs IH]; intros res Hs Hr; [exact Hr|].
  apply Forall_cons_iff in Hs as [Hseg Hs]. simpl.
  apply IH; [exact Hs|]. now apply resolveStep_proper.
Qed.

Lemma properSeg_noSlash (segs : list jsstring) :
  Forall properSeg segs -> Forall noSlash segs.
Proof. apply Forall_impl. now intros seg (_ & _ & _ & H). Qed.

(** An absolute path is normalized to an absolute path without [.] and
    [..] segments. *)
Lemma normalize_absolute (p : jsstring) :
  isAbsolute p = true ->
  isAbsolute (normalize p) = true
  /\ (forall seg, In seg (segments (normalize p)) ->
                  seg <> DOT /\ seg <> DOTDOT).
Proof.
  intros Habs. unfold normalize. destruct p as [|c p]; [discriminate|].
  rewrite Habs. cbn [negb]. unfold normalizeString.
  pose proof (resolve_proper (segments_noSlash (c :: p))
                (Forall_nil properSeg)) as Hst.
  set (st := fold_left (resolveStep false) (segments (c :: p)) []) in *.
  destruct (joinSegs st) as [|b body] eqn:Eb.
  - split; [reflexivity|]. intros seg. simpl.
    intros [<-|[<-|[]]]; split; discriminate.
  - assert (Hne : st <> []) by (intros E; rewrite E in Eb; discriminate).
    assert (Hproper : forall seg, In seg st -> seg <> DOT /\ seg <> DOTDOT).
    { intros seg Hin. rewrite Forall_forall in Hst.
      destruct (Hst seg Hin) as (_ & H1 & H2 & _). now split. }
    rewrite <- Eb. split.
    + destruct (endsWithSlash (c :: p)); reflexivity.
    + intros seg Hin.
      destruct (endsWithSlash (c :: p)); cbn [segments isSlash] in Hin;
        unfold isSlash in Hin; rewrite (proj2 (cu_eqb_eq _ _) eq_refl) in Hin.
      * rewrite segments_joinSegs_trailing in Hin;
          [|exact Hne | now apply properSeg_noSlash].
        destruct Hin as [<-|Hin]; [split; discriminate|].
        apply in_app_iff in Hin as [Hin|[<-|[]]];
          [now apply Hproper | split; discriminate].
      * rewrite segments_joinSegs in Hin;
          [|exact Hne | now apply properSeg_noSlash].
        destruct Hin as [<-|Hin]; [split; discriminate | now apply Hproper].
Qed.

Lemma join_absolute (cwd p : jsstring) :
  isAbsolute cwd = true -> isAbsolute (join [cwd; p]) = true.
Proof.
  intros Habs. unfold join. destruct cwd as [|c cwd]; [discriminate|].
  cbn [filter jseqb negb].
  destruct (negb (jseqb p [])).
  - apply normalize_absolute. exact Habs.
  - apply normalize_absolute. exact Habs.
Qed.

(** ** Normalization of a raw path *)

(** C4.  [normalizePath] trims the white space around the raw path; an
    absolute trimmed path is normalized by itself and a relative one after
    it is joined to the working directory.  When the trimmed path or the
    working directory is absolute, the result is absolute and none of its
    segments is [.] or [..]. *)
Theorem normalizePath_spec (filePath cwd : jsstring) :
  normalizePath filePath cwd
  = (if isAbsolute (trim filePath) then normalize (trim filePath)
     else normalize (join [cwd; trim filePath]))
  /\ (exists l r,
        filePath = l ++ trim filePath ++ r
        /\ Forall (fun c => isSpace c = true) l
        /\ Forall (fun c => isSpace c = true) r
        /\ (forall c t, trim filePath = c :: t -> isSpace c = false)
        /\ (forall c t, trim filePath = t ++ [c] -> isSpace c = false))
  /\ (isAbsolute (trim filePath) = true \/ isAbsolute cwd = true ->
      isAbsolute (normalizePath filePath cwd) = true
      /\ forall seg, In seg (segments (normalizePath filePath cwd)) ->
                     seg <> DOT /\ seg <> DOTDOT).
Proof.
  split; [reflexivity|]. split; [apply trim_spec|].
  intros H. unfold normalizePath.
  destruct (isAbsolute (trim filePath)) eqn:E.
  - now apply normalize_absolute.
  - destruct H as [H|H]; [discriminate|].
    apply normalize_absolute. now apply join_absolute.
Qed.

Lemma normalizePath_spec_witness :
  (isAbsolute (normalizePath (str " ../other/./file.ts ") (str "/project")) = true
   /\ forall seg,
        In seg (segments (normalizePath (str " ../other/./file.ts ")
                            (str "/project"))) ->
        seg <> DOT /\ seg <> DOTDOT)
  /\ normalizePath (str " ../other/./file.ts ") (str "/project")
     = str "/other/file.ts".
Proof.
  split.
  - apply (proj2 (proj2 (normalizePath_spec (str " ../other/./file.ts ")
                           (str "/project")))).
    right. reflexivity.
  - reflexivity.
Defined.

(** ** The turn orchestrator *)

Section OrchestratorProofs.
Variable JSON_parse : jsstring -> parsed.

Lemma parseNotification_run (env : Env) (tr : list event) (st : State) :
  exists evs,
    forallb quietb evs = true
    /\ parseNotification JSON_parse env (mkRun tr st)
       = (Some (receivedNotification JSON_parse env), mkRun (tr ++ evs) st).
Proof.
  unfold receivedNotification, parseNotification.
  destruct (argv env) as [|jsonArg rest].
  { exists []. now rewrite app_nil_r. }
  destruct (jseqb jsonArg []).
  { exists []. now rewrite app_nil_r. }
  destruct (startsWith jsonArg (str "-")).
  { exists []. now rewrite app_nil_r. }
  destruct (JSON_parse jsonArg) as [| |n].
  - exists [EvLog WARN "exception"]. split; reflexivity.
  - exists []. now rewrite app_nil_r.
  - exists []. now rewrite app_nil_r.
Qed.

Lemma forEach_run (n : CodexNotification) (files : list ExtractedFile)
    (tr : list event) (st : State) :
  forEach files
    (fun file =>
       emit (EvLog DEBUG "Sending heartbeat for file") ;;;
       sendHeartbeat
         (mkHeartbeat (path file) EntityFile (Some AI_CODING) (Some (cwd n))
            None None (Some (isWrite file))))
    (mkRun tr st)
  = (Some tt,
     mkRun (tr ++ flat_map
                    (fun file => [EvLog DEBUG "Sending heartbeat for file";
                                  EvSendHeartbeat (fileHeartbeat n file)])
                    files) st).
Proof.
  revert tr. induction files as [|f files IH]; intros tr; simpl.
  - unfold ret. now rewrite app_nil_r.
  - unfold bind, emit, sendHeartbeat. simpl. rewrite IH.
    rewrite <- !app_assoc. reflexivity.
Qed.

Ltac run_main :=
  cbv beta iota delta
    [bind emit ret returnMain getState putState shouldSendHeartbeat
     ensureCliInstalled updateLastHeartbeat sendHeartbeat recordSuccess
     trace state fst snd negb];
  cbn [app].

Lemma runMain_processed (env : Env) (st : State) (n : CodexNotification) :
  processed JSON_parse env st n ->
  exists pre,
    forallb quietb pre = true
    /\ trace (runMain JSON_parse env st)
       = pre ++ dispatchEvents n
           ++ [EvUpdateLastHeartbeat (now env);
               EvLog DEBUG "codex-wakatime completed"]
    /\ state (runMain JSON_parse env st) = mkState (Some (now env)).
Proof.
  intros (Hi & Hu & Hn & Ht & Hd & Hc).
  destruct (parseNotification_run env (startEvents env) st)
    as (evs & Hq & Hp).
  exists (startEvents env ++ evs
          ++ [EvLog DEBUG "Received notification"; EvEnsureCliInstalled;
              EvLog DEBUG "Extracted files from message"]).
  split.
  { rewrite !forallb_app, Hq. unfold startEvents.
    destruct (debugEnabled env); reflexivity. }
  unfold runMain, main. rewrite Hi, Hu.
  unfold startEvents in *. unfold dispatchEvents.
  rewrite (extractFiles_textOf (last_assistant_message n)). unfold textOf.
  destruct (debugEnabled env);
    cbn [app] in Hp; run_main; rewrite Hp; run_main; rewrite Hn; run_main;
    rewrite Ht; run_main; rewrite Hd; run_main; rewrite Hc; run_main.
  all: destruct (extractFiles
                   (Some match last_assistant_message n with
                         | Some m => m
                         | None => []
                         end) (cwd n)) as [|f files] eqn:Ef.
  all: try (run_main; split; [|reflexivity];
            rewrite <- !app_assoc; reflexivity).
  all: rewrite (forEach_run n (f :: files)); run_main;
    (split; [|reflexivity]); cbn [flat_map app];
    rewrite <- !app_assoc; reflexivity.
Qed.
Lemma runMain_early (env : Env) (st : State) :
  (forall n, ~ processed JSON_parse env st n) ->
  forallb quietb (trace (runMain JSON_parse env st)) = true
  /\ state (runMain JSON_parse env st) = st.
Proof.
  intros Hnot. unfold runMain, main.
  destruct (set_has (argv env) (str "--install")) eqn:Hi;
    [run_main; split; reflexivity|].
  destruct (set_has (argv env) (str "--uninstall")) eqn:Hu;
    [run_main; split; reflexivity|].
  destruct (parseNotification_run env (startEvents env) st)
    as (evs & Hq & Hp).
  unfold startEvents in *.
  destruct (receivedNotification JSON_parse env) as [n|] eqn:Hn.
  - destruct (typeIs n AGENT_TURN_COMPLETE) eqn:Ht.
    + destruct (isDue st (now env)) eqn:Hd.
      * destruct (cliAvailable env) eqn:Hc.
        -- exfalso. apply (Hnot n). repeat split; assumption.
        -- destruct (debugEnabled env);
             cbn [app] in Hp; run_main; rewrite Hp; run_main; rewrite Ht;
             run_main; rewrite Hd; run_main; rewrite Hc; run_main;
             (split; [|reflexivity]);
             cbn [forallb quietb isSend isUpdate negb orb andb];
             rewrite !forallb_app, Hq; reflexivity.
      * destruct (debugEnabled env);
          cbn [app] in Hp; run_main; rewrite Hp; run_main; rewrite Ht;
          run_main; rewrite Hd; run_main;
          (split; [|reflexivity]);
          cbn [forallb quietb isSend isUpdate negb orb andb];
          rewrite !forallb_app, Hq; reflexivity.
    + destruct (debugEnabled env);
        cbn [app] in Hp; run_main; rewrite Hp; run_main; rewrite Ht;
        run_main;
        (split; [|reflexivity]);
        cbn [forallb quietb isSend isUpdate negb orb andb];
        rewrite !forallb_app, Hq; reflexivity.
  - destruct (debugEnabled env);
      cbn [app] in Hp; run_main; rewrite Hp; run_main;
      (split; [|reflexivity]);
      cbn [forallb quietb isSend isUpdate negb orb andb];
      rewrite forallb_app, Hq; reflexivity.
Qed.

Lemma processed_dec (env : Env) (st : State) :
  (exists n, processed JSON_parse env st n)
  \/ (forall n, ~ processed JSON_parse env st n).
Proof.
  unfold processed.
  destruct (set_has (argv env) (str "--install"));
    [right; intros n H; destruct H as (H & _); discriminate H|].
  destruct (set_has (argv env) (str "--uninstall"));
    [right; intros n H; destruct H as (_ & H & _); discriminate H|].
  destruct (receivedNotification JSON_parse env) as [n|];
    [|right; intros n H; destruct H as (_ & _ & H & _); discriminate H].
  destruct (typeIs n AGENT_TURN_COMPLETE) eqn:Ht;
    [|right; intros n' H; destruct H as (_ & _ & E & H & _);
      injection E as <-; congruence].
  destruct (isDue st (now env));
    [|right; intros n' H; destruct H as (_ & _ & _ & _ & H & _);
      discriminate H].
  destruct (cliAvailable env);
    [|right; intros n' H; destruct H as (_ & _ & _ & _ & _ & H);
      discriminate H].
  left. exists n. repeat split; assumption.
Qed.

Lemma gateClosed_not_processed (env : Env) (st : State) (n : CodexNotification) :
  gateClosed JSON_parse env st -> ~ processed JSON_parse env st n.
Proof.
  unfold gateClosed. intros Hg (_ & _ & Hn & Ht & Hd & Hc).
  rewrite Hn in Hg. destruct Hg as [H|[H|H]]; congruence.
Qed.
End OrchestratorProofs.

(** ** Traces *)

Lemma heartbeatsOf_app (l1 l2 : list event) :
  heartbeatsOf (l1 ++ l2) = heartbeatsOf l1 ++ heartbeatsOf l2.
Proof. apply flat_map_app. Qed.

Lemma heartbeatsOf_quiet (l : list event) :
  forallb quietb l = true -> heartbeatsOf l = [].
Proof.
  induction l as [|e l IH]; simpl; [reflexivity|].
  intros H. apply andb_true_iff in H as [He Hl].
  destruct e; try discriminate He; simpl; now apply IH.
Qed.

Lemma quiet_no_update (l : list event) :
  forallb quietb l = true -> existsb isUpdate l = false.
Proof.
  induction l as [|e l IH]; simpl; [reflexivity|].
  intros H. apply andb_true_iff in H as [He Hl].
  rewrite (IH Hl). destruct e; try discriminate He; reflexivity.
Qed.

Lemma send_has_heartbeat (l : list event) :
  existsb isSend l = true -> heartbeatsOf l <> [].
Proof.
  induction l as [|e l IH]; simpl; [discriminate|].
  destruct e; simpl; try exact IH. discriminate.
Qed.

(** In a trace whose only update comes right after [l], every update is
    preceded by the whole of [l]. *)
Lemma update_position (l pre post : list event) (u e t : event) :
  existsb isUpdate l = false -> isUpdate e = false -> isUpdate t = true ->
  l ++ [u; e] = pre ++ t :: post -> pre = l.
Proof.
  revert pre. induction l as [|a l IH]; intros pre Hl He Ht E.
  - destruct pre as [|x pre]; [reflexivity|]. exfalso.
    simpl in E. injection E as _ E.
    destruct pre as [|y pre]; simpl in E.
    + injection E as -> _. congruence.
    + injection E as _ E. destruct pre; discriminate E.
  - simpl in Hl. apply orb_false_iff in Hl as [Ha Hl].
    destruct pre as [|x pre]; simpl in E.
    + injection E as -> _. congruence.
    + injection E as -> E. f_equal. now apply IH.
Qed.

Lemma dispatchEvents_send (n : CodexNotification) :
  existsb isSend (dispatchEvents n) = true
  /\ existsb isUpdate (dispatchEvents n) = false.
Proof.
  unfold dispatchEvents.
  destruct (extractFiles (last_assistant_message n) (cwd n)) as [|f files].
  - split; reflexivity.
  - split; [reflexivity|]. generalize (f :: files) as l.
    induction l as [|x l IH]; [reflexivity | exact IH].
Qed.

(** ** The claims on the orchestrator *)

(** C6.  When a notification is processed and its message yields no
    extracted file, the run sends exactly one heartbeat: of type app, with
    the working directory as its entity and the base name of the working
    directory as its project. *)
Theorem empty_extraction_sends_project_heartbeat
    (JSON_parse : jsstring -> parsed) (env : Env) (st : State)
    (n : CodexNotification) :
  processed JSON_parse env st n ->
  extractFiles (last_assistant_message n) (cwd n) = [] ->
  heartbeatsOf (trace (runMain JSON_parse env st))
  = [mkHeartbeat (cwd n) EntityApp (Some AI_CODING) None
       (Some (basename (cwd n))) None None].
Proof.
  intros Hp He.
  destruct (runMain_processed Hp) as (pre & Hq & -> & _).
  rewrite !heartbeatsOf_app, (heartbeatsOf_quiet pre Hq).
  unfold dispatchEvents. rewrite He. reflexivity.
Qed.

Lemma empty_extraction_sends_project_heartbeat_witness :
  heartbeatsOf
    (trace (runMain (fun _ => ParsedValue notification_no_paths) env_ready
              (mkState (Some 940%Z))))
  = [mkHeartbeat (str "/home/dev/project/") EntityApp (Some (str "ai coding"))
       None (Some (str "project")) None None].
Proof.
  apply (empty_extraction_sends_project_heartbeat
           (JSON_parse := fun _ => ParsedValue notification_no_paths)
           (env := env_ready) (st := mkState (Some 940%Z))
           (n := notification_no_paths)).
  - repeat split.
  - reflexivity.
Defined.

(** C7.  In every run, an update of the rate-limit state comes after a
    dispatch: every update event of the trace has a heartbeat dispatch
    before it, and the persisted state changes only in a run that has
    dispatched.  A run stopped at a gate (no notification, a wrong or missing
    type, a report that is not due, no executable) dispatches nothing,
    updates nothing and leaves the state as it was. *)
Theorem update_only_after_dispatch
    (JSON_parse : jsstring -> parsed) (env : Env) (st : State) :
  (forall pre post t,
      trace (runMain JSON_parse env st)
      = pre ++ EvUpdateLastHeartbeat t :: post ->
      existsb isSend pre = true)
  /\ (state (runMain JSON_parse env st) <> st ->
      heartbeatsOf (trace (runMain JSON_parse env st)) <> [])
  /\ (gateClosed JSON_parse env st ->
      heartbeatsOf (trace (runMain JSON_parse env st)) = []
      /\ existsb isUpdate (trace (runMain JSON_parse env st)) = false
      /\ state (runMain JSON_parse env st) = st).
Proof.
  destruct (processed_dec JSON_parse env st) as [[n Hp]|Hnot].
  - destruct (runMain_processed Hp) as (pre0 & Hq & Htr & Hst).
    destruct (dispatchEvents_send n) as [Hsend Hnoup].
    rewrite Htr, Hst. split; [|split].
    + intros pre post t E. rewrite app_assoc in E.
      apply update_position in E; try reflexivity.
      * subst pre. rewrite existsb_app, Hsend. apply orb_true_r.
      * rewrite existsb_app, Hnoup, (quiet_no_update pre0 Hq). reflexivity.
    + intros _. rewrite !heartbeatsOf_app, (heartbeatsOf_quiet pre0 Hq).
      simpl. intros E. apply app_eq_nil in E as [E _].
      now apply (send_has_heartbeat _ Hsend).
    + intros Hg. exfalso. exact (gateClosed_not_processed Hg Hp).
  - destruct (runMain_early Hnot) as [Hq Hst]. split; [|split].
    + intros pre post t E. exfalso.
      apply quiet_no_update in Hq. rewrite E, existsb_app in Hq.
      simpl in Hq. rewrite orb_true_r in Hq. discriminate Hq.
    + intros H. contradiction.
    + intros _. repeat split.
      * now apply heartbeatsOf_quiet.
      * now apply quiet_no_update.
      * exact Hst.
Qed.

Lemma update_only_after_dispatch_witness :
  existsb isSend
    [EvLog DEBUG "codex-wakatime started"; EvLog DEBUG "Received notification";
     EvEnsureCliInstalled; EvLog DEBUG "Extracted files from message";
     EvLog DEBUG "Sending project heartbeat";
     EvSendHeartbeat (projectHeartbeat notification_no_paths)] = true
  /\ heartbeatsOf
       (trace (runMain (fun _ => ParsedValue notification_no_paths) env_ready
                 (mkState (Some 940%Z)))) <> []
  /\ (heartbeatsOf
        (trace (runMain (fun _ => ParsedValue notification_no_paths)
                  env_unavailable (mkState None))) = []
      /\ existsb isUpdate
           (trace (runMain (fun _ => ParsedValue notification_no_paths)
                     env_unavailable (mkState None))) = false
      /\ state (runMain (fun _ => ParsedValue notification_no_paths)
                  env_unavailable (mkState None)) = mkState None).
Proof.
  split; [|split].
  - apply (proj1 (update_only_after_dispatch
                    (fun _ => ParsedValue notification_no_paths) env_ready
                    (mkState (Some 940%Z))))
      with (post := [EvLog DEBUG "codex-wakatime completed"]) (t := 1000%Z).
    reflexivity.
  - apply (proj1 (proj2 (update_only_after_dispatch
                           (fun _ => ParsedValue notification_no_paths)
                           env_ready (mkState (Some 940%Z))))).
    discriminate.
  - apply (proj2 (proj2 (update_only_after_dispatch
                           (fun _ => ParsedValue notification_no_paths)
                           env_unavailable (mkState None)))).
    right. right. reflexivity.
Defined.

(** ** The expectations of extractor.test.ts and the scenarios of the
       specification, evaluated on the model *)

Example test_code_block_header :
  extractFilePaths
    (Some (str "```typescript:src/index.ts" ++ CHAR_LF :: str "const x = 1;"
           ++ CHAR_LF :: str "```"))
    (str "/project")
  = [str "/project/src/index.ts"].
Proof. vm_compute. reflexivity. Qed.

Example test_backtick_without_extension :
  extractFilePaths (Some (str "Run `npm install` to install dependencies."))
    (str "/project") = [].
Proof. vm_compute. reflexivity. Qed.

Example test_double_quoted_path :
  extractFiles
    (Some (str "The file " ++ QUOTE2 :: str "src/index.ts"
           ++ QUOTE2 :: str " contains the entry point."))
    (str "/project")
  = [mkFile (str "/project/src/index.ts") false].
Proof. vm_compute. reflexivity. Qed.

Example test_absolute_path :
  extractFilePaths (Some (str "Modified `/absolute/path/file.ts`"))
    (str "/project")
  = [str "/absolute/path/file.ts"].
Proof. vm_compute. reflexivity. Qed.

Example test_parent_segments :
  extractFilePaths (Some (str "Updated `../other/file.ts`")) (str "/project")
  = [str "/other/file.ts"].
Proof. vm_compute. reflexivity. Qed.

Example test_deduplicates :
  extractFilePaths
    (Some (str "Created `src/file.ts`. Then modified `src/file.ts`."))
    (str "/project")
  = [str "/project/src/file.ts"].
Proof. vm_compute. reflexivity. Qed.

Example test_ignores_http_urls :
  extractFilePaths (Some (str "See http://example.com/api.json for the spec."))
    (str "/project") = [].
Proof. vm_compute. reflexivity. Qed.

Example test_invalid_characters :
  extractFilePaths (Some (str "Invalid path `file<name>.ts`")) (str "/project")
  = [].
Proof. vm_compute. reflexivity. Qed.

Example test_created_is_write :
  extractFiles (Some (str "Created src/new-file.ts with the implementation."))
    (str "/project")
  = [mkFile (str "/project/src/new-file.ts") true].
Proof. vm_compute. reflexivity. Qed.

Example test_list_is_read :
  extractFiles (Some (str "List package.json dependencies.")) (str "/project")
  = [mkFile (str "/project/package.json") false].
Proof. vm_compute. reflexivity. Qed.

Example test_write_priority :
  extractFiles (Some msg_read_then_write) (str "/project")
  = [mkFile (str "/project/src/file.ts") true]
  /\ extractFiles (Some msg_write_then_read) (str "/project")
     = [mkFile (str "/project/src/new.ts") true].
Proof. split; vm_compute; reflexivity. Qed.

Example scenario_1 :
  extractFiles (Some msg_scenario_1) (str "/p")
  = [mkFile (str "/p/src/a.ts") true; mkFile (str "/p/src/b.ts") false].
Proof. vm_compute. reflexivity. Qed.

Example test_trackable_extensions :
  isTrackableExtension (str "file.ts") = true
  /\ isTrackableExtension (str "file.TOML") = true
  /\ isTrackableExtension (str "file.xyz") = false
  /\ isTrackableExtension (str "file.unknown") = false.
Proof. repeat split. Qed.

(** The Kelvin sign becomes the letter k in lower case. *)
Example trackable_kelvin_sign :
  isTrackableExtension (str "a." ++ [8490%N; 116%N]) = true
  /\ isTrackableExtension (str "a." ++ [8490%N; 84%N]) = true.
Proof. repeat split. Qed.

Example validator_is_not_the_extension_list :
  isValidFilePath (str "file.xyz") = true
  /\ isValidFilePath (str "file.unknown") = false
  /\ isValidFilePath (str "a/.ts") = false.
Proof. repeat split. Qed.

Example overlapping_verb_phrases :
  extractFilePaths (Some (str "Read a.Edit b.ts")) (str "/p")
  = [str "/p/a.Edit"]
  /\ extractFiles (Some (str "Read a.Edit b.ts")) (str "/p")
     = [mkFile (str "/p/b.ts") true; mkFile (str "/p/a.Edit") false].
Proof. split; vm_compute; reflexivity. Qed.

Example backtick_digit_extension :
  extractFiles (Some (str "`a.mp3`")) (str "/p")
  = [mkFile (str "/p/a.mp3") false].
Proof. vm_compute. reflexivity. Qed.

(** * Further properties of the extractor *)

(** ** Prefixes and substrings *)

Lemma startsWith_iff (s pre : jsstring) :
  startsWith s pre = true <-> exists post, s = pre ++ post.
Proof.
  revert s. induction pre as [|p pre IH]; intros [|c s]; simpl.
  - split; [intros _; now exists [] | reflexivity].
  - split; [intros _; now exists (c :: s) | reflexivity].
  - split; [discriminate | intros [post E]; discriminate E].
  - rewrite andb_true_iff, cu_eqb_eq, IH. split.
    + intros [-> [post ->]]. now exists post.
    + intros [post E]. injection E as -> ->. split; [reflexivity|].
      now exists post.
Qed.

Lemma includes_iff (s sub : jsstring) :
  includes s sub = true <-> exists pre post, s = pre ++ sub ++ post.
Proof.
  induction s as [|c s IH].
  - cbn [includes]. rewrite orb_false_r, startsWith_iff. split.
    + intros [post E]. now exists [], post.
    + intros (pre & post & E). destruct pre; [now exists post|discriminate].
  - cbn [includes]. rewrite orb_true_iff, startsWith_iff, IH. split.
    + intros [[post E]|(pre & post & ->)].
      * now exists [], post.
      * now exists (c :: pre), post.
    + intros (pre & post & E). destruct pre as [|x pre].
      * left. now exists post.
      * right. injection E as -> ->. now exists pre, post.
Qed.

Lemma startsWith_scheme_included (p scheme : jsstring) :
  startsWith p (scheme ++ str "://") = true -> includes p (str "://") = true.
Proof.
  rewrite startsWith_iff, includes_iff. intros [post ->].
  exists scheme, post. now rewrite <- app_assoc.
Qed.

Lemma test_invalid_chars_conv (p : jsstring) :
  (forall c, In c p -> ~ In c INVALID) -> test INVALID_CHARS p = false.
Proof.
  induction p as [|c p IH]; intros H; [reflexivity|].
  cbn [test]. unfold exec_at. cbn [INVALID_CHARS p_re p_ic rmatch].
  destruct (atom_matches false (AOneOf [60%N; 62%N; 124%N; 63%N; 42%N]) c)
    eqn:E.
  - exfalso. cbn [atom_matches] in E. apply existsb_exists in E as [x [Hx E]].
    unfold lit_matches in E. apply cu_eqb_eq in E. subst x.
    apply (H c); [now left | exact Hx].
  - apply IH. intros x Hx. apply H. now right.
Qed.

Lemma toLowerCase_nil_iff (s : jsstring) : toLowerCase s = [] <-> s = [].
Proof.
  split; [|now intros ->].
  destruct s as [|c s]; [reflexivity|]. simpl. unfold lowerUnit.
  destruct (in_range 65 90 c); [discriminate|].
  destruct (cu_eqb c 304%N); [discriminate|].
  destruct (cu_eqb c 8490%N); discriminate.
Qed.

(** X1.  The validator accepts exactly the strings that are not empty,
    hold no [://] and none of the five forbidden characters, and whose
    extension is not empty and has at most 6 code units once in lower case.
    The two tests on the prefixes [http://] and [https://] add nothing to
    the test on [://]. *)
Theorem isValidFilePath_iff (p : jsstring) :
  isValidFilePath p = true
  <-> p <> [] /\ includes p (str "://") = false
      /\ (forall c, In c p -> ~ In c INVALID)
      /\ extension p <> []
      /\ length (toLowerCase (extension p)) <= 6.
Proof.
  split.
  - intros H. apply isValidFilePath_true in H as (H0 & H1 & H2 & H3 & H4).
    repeat split; auto.
    + now apply test_invalid_chars.
    + now apply toLowerCase_nonempty.
  - intros (H0 & H1 & H2 & H3 & H4). unfold isValidFilePath.
    fold (extension p).
    apply jseqb_neq in H0. rewrite H0, H1.
    assert (Ea : startsWith p (str "http://") = false).
    { destruct (startsWith p (str "http://")) eqn:E; [|reflexivity].
      apply (startsWith_scheme_included p (str "http")) in E. congruence. }
    assert (Eb : startsWith p (str "https://") = false).
    { destruct (startsWith p (str "https://")) eqn:E; [|reflexivity].
      apply (startsWith_scheme_included p (str "https")) in E. congruence. }
    rewrite Ea, Eb. cbn [orb].
    rewrite (test_invalid_chars_conv p H2).
    assert (E3 : jseqb (toLowerCase (extension p)) [] = false).
    { apply jseqb_neq. intros E. apply H3. now apply toLowerCase_nil_iff. }
    rewrite E3.
    assert (E4 : Nat.ltb 6 (length (toLowerCase (extension p))) = false)
      by (apply Nat.ltb_ge; exact H4).
    now rewrite E4.
Qed.

(** ** Flags, order and shape of the results *)

(** X2.  A record of [extractFiles] is flagged as a write exactly when the
    write-verb pattern detected its path: a path seen by the read patterns
    alone is always flagged as a read. *)
Theorem isWrite_iff_write_hit (message : option jsstring) (cwd : jsstring)
    (f : ExtractedFile) :
  In f (extractFiles message cwd) ->
  (isWrite f = true <-> In (path f) (writeHits (textOf message) cwd)).
Proof.
  rewrite extractFiles_shape, in_app_iff, !in_map_iff.
  intros [(p & <- & Hp)|(p & <- & Hp)]; cbn [isWrite path].
  - rewrite firstSeen_nil_In in Hp. split; [intros _; exact Hp | reflexivity].
  - apply firstSeen_In in Hp as [_ Hn]. split; [discriminate | contradiction].
Qed.

Lemma isWrite_iff_write_hit_witness :
  (true = true
   <-> In (str "/p/src/a.ts") (writeHits msg_scenario_1 (str "/p")))
  /\ (false = true
      <-> In (str "/p/src/b.ts") (writeHits msg_scenario_1 (str "/p"))).
Proof.
  split.
  - apply (isWrite_iff_write_hit (Some msg_scenario_1) (str "/p")
             (mkFile (str "/p/src/a.ts") true)).
    vm_compute. left. reflexivity.
  - apply (isWrite_iff_write_hit (Some msg_scenario_1) (str "/p")
             (mkFile (str "/p/src/b.ts") false)).
    vm_compute. right. left. reflexivity.
Defined.

Lemma hits_In (cwd : jsstring) (ms : list (option jsstring)) (p : jsstring) :
  In p (hits cwd ms) <->
  exists m filePath,
    In m ms /\ accepted m = Some filePath /\ p = normalizePath filePath cwd.
Proof.
  unfold hits. rewrite in_flat_map. split.
  - intros (m & Hm & Hp). destruct (accepted m) as [fp|] eqn:E; [|contradiction].
    destruct Hp as [<-|[]]. now exists m, fp.
  - intros (m & fp & Hm & E & ->). exists m. split; [exact Hm|].
    rewrite E. now left.
Qed.

Lemma hitsOf_In (ps : list pattern) (msg cwd p : jsstring) :
  In p (hitsOf ps msg cwd) <->
  exists pat m filePath,
    In pat ps /\ In m (matchAll pat msg) /\ accepted m = Some filePath
    /\ p = normalizePath filePath cwd.
Proof.
  unfold hitsOf. rewrite in_flat_map. split.
  - intros (pat & Hpat & Hp). apply hits_In in Hp as (m & fp & Hm & E & ->).
    now exists pat, m, fp.
  - intros (pat & m & fp & Hpat & Hm & E & ->). exists pat.
    split; [exact Hpat|]. apply hits_In. now exists m, fp.
Qed.

Lemma normalizePath_absolute (filePath cwd : jsstring) :
  isAbsolute cwd = true ->
  isAbsolute (normalizePath filePath cwd) = true
  /\ (forall seg, In seg (segments (normalizePath filePath cwd)) ->
                  seg <> DOT /\ seg <> DOTDOT).
Proof.
  intros H. unfold normalizePath.
  destruct (isAbsolute (trim filePath)) eqn:E.
  - now apply normalize_absolute.
  - apply normalize_absolute. now apply join_absolute.
Qed.

(** X3.  With an absolute working directory, every path returned by either
    entry point is absolute and has no [.] or [..] segment. *)
Theorem extracted_paths_are_absolute (message : option jsstring)
    (cwd p : jsstring) :
  isAbsolute cwd = true ->
  In p (map path (extractFiles message cwd))
  \/ In p (extractFilePaths message cwd) ->
  isAbsolute p = true
  /\ (forall seg, In seg (segments p) -> seg <> DOT /\ seg <> DOTDOT).
Proof.
  intros Hcwd Hin.
  assert (H : exists ps, In p (hitsOf ps (textOf message) cwd)).
  { destruct Hin as [Hin|Hin].
    - apply extractFiles_paths_In in Hin as [Hin|Hin].
      + now exists [WRITE_PATTERN].
      + now exists READ_PATTERNS.
    - rewrite extractFilePaths_textOf, extractFilePaths_closed_form in Hin.
      rewrite firstSeen_nil_In in Hin. now exists PATTERNS. }
  destruct H as [ps H].
  apply hitsOf_In in H as (pat & m & fp & _ & _ & _ & ->).
  now apply normalizePath_absolute.
Qed.

Lemma extracted_paths_are_absolute_witness :
  isAbsolute (str "/other/file.ts") = true
  /\ (forall seg, In seg (segments (str "/other/file.ts")) ->
                  seg <> DOT /\ seg <> DOTDOT).
Proof.
  apply (extracted_paths_are_absolute
           (Some (str "Updated `../other/./file.ts`")) (str "/project")).
  - reflexivity.
  - left. vm_compute. left. reflexivity.
Defined.

(** X4.  [extractFilePaths] returns each detected path once, in the order
    of first detection over the legacy patterns taken in turn, and returns
    nothing else. *)
Theorem extractFilePaths_unique_and_ordered (message : option jsstring)
    (cwd : jsstring) :
  NoDup (extractFilePaths message cwd)
  /\ extractFilePaths message cwd
     = firstSeen [] (hitsOf PATTERNS (textOf message) cwd)
  /\ (forall p, In p (extractFilePaths message cwd)
                <-> In p (hitsOf PATTERNS (textOf message) cwd)).
Proof.
  rewrite extractFilePaths_textOf, extractFilePaths_closed_form.
  split; [apply firstSeen_NoDup | split; [reflexivity|]].
  intros p. apply firstSeen_nil_In.
Qed.

(** ** Where a capture comes from *)

Lemma scan_In_suffix (p : pattern) (s : jsstring) :
  forall skip m,
    In m (scan p s skip) ->
    exists pre s' len, s = pre ++ s' /\ exec_at p s' = Some (len, m).
Proof.
  induction s as [|c s IH]; intros skip m H; simpl in H.
  - destruct skip; [|contradiction].
    destruct (exec_at p []) as [[len cap]|] eqn:E; [|contradiction].
    destruct H as [<-|[]]. now exists [], [], len.
  - assert (Hrec : forall n, In m (scan p s n) ->
                             exists pre s' len, c :: s = pre ++ s'
                               /\ exec_at p s' = Some (len, m)).
    { intros n Hn. apply IH in Hn as (pre & s' & len & -> & E).
      now exists (c :: pre), s', len. }
    destruct skip as [|n]; [|now apply Hrec in H].
    destruct (exec_at p (c :: s)) as [[len cap]|] eqn:E.
    + destruct H as [<-|H]; [now exists [], (c :: s), len | now apply Hrec in H].
    + now apply Hrec in H.
Qed.

Lemma In_firstn {A : Type} (n : nat) (l : list A) (x : A) :
  In x (firstn n l) -> In x l.
Proof.
  intros H. rewrite <- (firstn_skipn n l). apply in_app_iff. now left.
Qed.

Section CaptureProvenance.
Variable R : Type.
Variable ic : bool.

(** The rest handed to the continuation is a suffix of the input, and the
    capture is the one that came in or a part of the input. *)
Lemma rmatch_capture_in (r : regex) :
  forall s cap (k : cont R) x,
    rmatch ic r s cap k = Some x ->
    exists s' cap',
      k s' cap' = Some x
      /\ (exists w, s = w ++ s')
      /\ (cap' = cap \/ exists w, cap' = Some w /\ incl w s).
Proof.
  induction r as [|a|r1 IH1 r2 IH2|r1 IH1 r2 IH2|lo hi a|r IH];
    intros s cap k x H; simpl in H.
  - exists s, cap. repeat split; auto. now exists [].
  - destruct s as [|c s]; [discriminate|].
    destruct (atom_matches ic a c); [|discriminate].
    exists s, cap. repeat split; auto. now exists [c].
  - apply IH1 in H as (s1 & cap1 & H & [w1 ->] & Hc1).
    apply IH2 in H as (s2 & cap2 & H & [w2 ->] & Hc2).
    exists s2, cap2. split; [exact H|]. split.
    + exists (w1 ++ w2). now rewrite app_assoc.
    + destruct Hc2 as [->|(w & -> & Hw)].
      * destruct Hc1 as [->|(w & -> & Hw)]; [now left|].
        right. now exists w.
      * right. exists w. split; [reflexivity|].
        intros y Hy. apply in_app_iff. right. now apply Hw.
  - destruct (rmatch ic r1 s cap k) eqn:E.
    + injection H as ->. now apply IH1 in E.
    + now apply IH2 in H.
  - apply rep_greedy_sound in H as (w & s' & -> & _ & _ & _ & H).
    exists s', cap. repeat split; auto. now exists w.
  - apply IH in H as (s' & cap' & H & [w ->] & _).
    eexists s', _. split; [exact H|]. split; [now exists w|].
    right. eexists. split; [reflexivity|].
    intros y Hy. apply In_firstn in Hy. exact Hy.
Qed.
End CaptureProvenance.

Lemma capture_in_message (p : pattern) (msg fp : jsstring) :
  In (Some fp) (matchAll p msg) -> incl fp msg.
Proof.
  intros H. apply scan_In_suffix in H as (pre & s' & len & -> & E).
  unfold exec_at in E.
  apply rmatch_capture_in in E as (s2 & cap' & E & _ & Hc).
  injection E as _ ->.
  destruct Hc as [Hc|(w & Hc & Hw)]; [discriminate|].
  injection Hc as <-. intros y Hy. apply in_app_iff. right. now apply Hw.
Qed.

Lemma isDot_eq (c : cu) : isDot c = true -> c = CHAR_DOT.
Proof. unfold isDot. apply cu_eqb_eq. Qed.

Lemma extname_loop_startDot (rs : jsstring) :
  forall st, startDot (extname_loop rs st) <> None ->
             startDot st <> None \/ In CHAR_DOT rs.
Proof.
  induction rs as [|c rs IH]; intros st H; simpl in H; [now left|].
  destruct (isSlash c).
  - destruct (negb (matchedSlash st)); simpl in H; [now left|].
    apply IH in H as [H|H]; [now left | right; now right].
  - destruct (isDot c) eqn:Ed.
    + right. left. now apply isDot_eq.
    + apply IH in H as [H|H]; [|right; now right].
      left. destruct st as [sd sp e ms pd]. simpl in *.
      destruct e; destruct sd; simpl in H; congruence.
Qed.

Lemma extname_has_dot (p : jsstring) : extname p <> [] -> In CHAR_DOT p.
Proof.
  unfold extname. intros H. apply in_rev.
  destruct (extname_loop_startDot (rev p) (mkExtScan None 0 None true 0))
    as [Hs|Hs]; [|now elim Hs|exact Hs].
  destruct (startDot (extname_loop (rev p) (mkExtScan None 0 None true 0)));
    [discriminate | now elim H].
Qed.

Lemma accepted_Some (m : option jsstring) (fp : jsstring) :
  accepted m = Some fp -> m = Some fp /\ isValidFilePath fp = true.
Proof.
  destruct m as [x|]; [|discriminate]. simpl.
  destruct (negb (jseqb x []) && isValidFilePath x) eqn:E; [|discriminate].
  intros H. injection H as ->. apply andb_true_iff in E as [_ E]. now split.
Qed.

Lemma valid_has_dot (fp : jsstring) :
  isValidFilePath fp = true -> In CHAR_DOT fp.
Proof.
  intros H. apply isValidFilePath_true in H as (_ & _ & _ & H & _).
  apply toLowerCase_nonempty in H. apply extname_has_dot.
  intros E. apply H. unfold extension. now rewrite E.
Qed.

(** X5.  A message without a dot yields nothing: every accepted path has an
    extension, and every captured path is made of characters of the
    message. *)
Theorem no_dot_no_paths (message : option jsstring) (cwd : jsstring) :
  ~ In CHAR_DOT (textOf message) ->
  extractFiles message cwd = [] /\ extractFilePaths message cwd = [].
Proof.
  intros Hdot.
  assert (Hnone : forall ps, hitsOf ps (textOf message) cwd = []).
  { intros ps. destruct (hitsOf ps (textOf message) cwd) as [|p l] eqn:E;
      [reflexivity|]. exfalso.
    assert (Hin : In p (hitsOf ps (textOf message) cwd))
      by (rewrite E; now left).
    apply hitsOf_In in Hin as (pat & m & fp & _ & Hm & Ha & _).
    apply accepted_Some in Ha as [-> Hv].
    apply Hdot. apply (@capture_in_message pat _ fp Hm).
    now apply valid_has_dot. }
  split.
  - rewrite extractFiles_shape. unfold writeHits, readHits.
    now rewrite !Hnone.
  - rewrite extractFilePaths_textOf, extractFilePaths_closed_form.
    now rewrite Hnone.
Qed.

Lemma no_dot_no_paths_witness :
  extractFiles (Some (str "Read `Makefile` and Created 'LICENSE'"))
    (str "/p") = []
  /\ extractFilePaths (Some (str "Read `Makefile` and Created 'LICENSE'"))
       (str "/p") = [].
Proof.
  apply (no_dot_no_paths (Some (str "Read `Makefile` and Created 'LICENSE'"))).
  vm_compute. intuition discriminate.
Defined.

(** ** The extension-bearing patterns *)

Section GroupCapture.
Variable R : Type.
Variable ic : bool.

Lemma rmatch_nogroup (r : regex) :
  nogroup r = true ->
  forall s cap (k : cont R) x,
    rmatch ic r s cap k = Some x -> exists s', k s' cap = Some x.
Proof.
  induction r as [|a|r1 IH1 r2 IH2|r1 IH1 r2 IH2|lo hi a|r IH];
    intros Hn s cap k x H; simpl in H, Hn.
  - now exists s.
  - destruct s as [|c s]; [discriminate|].
    destruct (atom_matches ic a c); [|discriminate]. now exists s.
  - apply andb_true_iff in Hn as [Hn1 Hn2].
    apply (IH1 Hn1) in H as [s1 H]. now apply (IH2 Hn2) in H.
  - apply andb_true_iff in Hn as [Hn1 Hn2].
    destruct (rmatch ic r1 s cap k) eqn:E.
    + injection H as ->. now apply (IH1 Hn1) in E.
    + now apply (IH2 Hn2) in H.
  - apply rep_greedy_sound in H as (w & s' & _ & _ & _ & _ & H). now exists s'.
  - discriminate.
Qed.

(** A group between group-free expressions: the final capture is what the
    group consumed. *)
Lemma seq_group_capture (pre : list regex) (body post : regex) :
  nogroup post = true ->
  forall s cap0 (k : cont R) x,
    rmatch ic (fold_right RSeq (RSeq (RGroup body) post) pre) s cap0 k = Some x ->
    exists w s', lang ic body w /\ k s' (Some w) = Some x.
Proof.
  intros Hpost. induction pre as [|r pre IH]; intros s cap0 k x H.
  - cbn [fold_right] in H.
    change (rmatch ic (RGroup body) s cap0
              (fun s1 cap1 => rmatch ic post s1 cap1 k) = Some x) in H.
    apply rmatch_group_sound in H as (w & s' & _ & L & H).
    apply rmatch_nogroup in H as [s2 H]; [|exact Hpost]. now exists w, s2.
  - cbn [fold_right] in H.
    change (rmatch ic r s cap0
              (fun s1 cap1 =>
                 rmatch ic (fold_right RSeq (RSeq (RGroup body) post) pre)
                   s1 cap1 k) = Some x) in H.
    apply rmatch_sound in H as (w1 & s1 & cap1 & _ & _ & H).
    now apply IH in H.
Qed.
End GroupCapture.

Lemma exec_extension_capture (p : pattern) (s : jsstring) (len : nat)
    (cap : option jsstring) :
  In p EXTENSION_PATTERNS ->
  exec_at p s = Some (len, cap) ->
  exists w cs, cap = Some w
               /\ lang (p_ic p) (seq (plus (ANoneOf true cs) :: dot_ext)) w.
Proof.
  unfold exec_at. intros Hp H.
  assert (Hfin : forall ic pre body post,
            nogroup post = true ->
            rmatch ic (fold_right RSeq (RSeq (RGroup body) post) pre) s None
              (fun s1 cap1 => Some (length s - length s1, cap1))
            = Some (len, cap) ->
            exists w, cap = Some w /\ lang ic body w).
  { intros ic pre body post Hn Hm.
    apply (@seq_group_capture _ ic pre body post Hn) in Hm
      as (w & s' & L & Hm).
    exists w. split; [now injection Hm as _ <- | exact L]. }
  destruct Hp as [<-|[<-|[<-|[<-|[<-|[]]]]]].
  - destruct (Hfin false [RAtom (ALit CHAR_BACKTICK)] _
                (RAtom (ALit CHAR_BACKTICK)) eq_refl H) as (w & E & L).
    now exists w, [CHAR_BACKTICK].
  - destruct (Hfin false [RAtom (AOneOf [QUOTE2; QUOTE1])] _
                (RAtom (AOneOf [QUOTE2; QUOTE1])) eq_refl H) as (w & E & L).
    now exists w, [QUOTE2; QUOTE1].
  - destruct (Hfin true [alt READ_VERBS; plus ASpace; opt (ALit CHAR_BACKTICK)]
                _ (opt (ALit CHAR_BACKTICK)) eq_refl H) as (w & E & L).
    now exists w, [CHAR_BACKTICK; CHAR_LF].
  - destruct (Hfin true [alt WRITE_VERBS; plus ASpace; opt (ALit CHAR_BACKTICK)]
                _ (opt (ALit CHAR_BACKTICK)) eq_refl H) as (w & E & L).
    now exists w, [CHAR_BACKTICK; CHAR_LF].
  - destruct (Hfin true [alt (READ_VERBS ++ WRITE_VERBS); plus ASpace;
                         opt (ALit CHAR_BACKTICK)]
                _ (opt (ALit CHAR_BACKTICK)) eq_refl H) as (w & E & L).
    now exists w, [CHAR_BACKTICK; CHAR_LF].
Qed.

Lemma isWord_range (c : cu) : isWord c = true -> (48 <= c <= 122)%N.
Proof.
  unfold isWord, in_range, cu_eqb. intros H.
  repeat (apply orb_true_iff in H as [H|H]).
  - apply andb_true_iff in H as [H1%N.leb_le H2%N.leb_le]. lia.
  - apply andb_true_iff in H as [H1%N.leb_le H2%N.leb_le]. lia.
  - apply andb_true_iff in H as [H1%N.leb_le H2%N.leb_le]. lia.
  - apply N.eqb_eq in H. lia.
Qed.

Lemma isWord_not_space (c : cu) : isWord c = true -> isSpace c = false.
Proof.
  intros H%isWord_range. unfold isSpace, in_range, cu_eqb.
  repeat match goal with
         | |- context [(?a <=? ?b)%N] => destruct (N.leb_spec a b); try lia
         | |- context [(?a =? ?b)%N] => destruct (N.eqb_spec a b); try lia
         end.
Qed.

Lemma dot_ext_shape_class (ic : bool) (cs : list cu) (w : jsstring) :
  lang ic (seq (plus (ANoneOf true cs) :: dot_ext)) w ->
  exists stem ext,
    w = stem ++ CHAR_DOT :: ext
    /\ stem <> []
    /\ 1 <= length ext <= 6
    /\ Forall (fun c => isWord c = true) ext
    /\ Forall (fun c => isSpace c = false) w.
Proof.
  unfold dot_ext, plus. cbn [seq]. intros H.
  inversion H as [| |r1 r2 w1 w23 L1 L23| | | |]; subst; clear H.
  inversion L23 as [| |r1 r2 w2 w3 L2 L3| | | |]; subst; clear L23.
  inversion L1 as [| | | | |lo hi a w' Hlo Hhi Hall|]; subst; clear L1.
  inversion L2 as [|a c Hc| | | | |]; subst; clear L2.
  inversion L3 as [| | | | |lo hi a w' Hlo3 Hhi3 Hall3|]; subst; clear L3.
  simpl in Hc. apply lit_matches_dot in Hc. subst c.
  exists w1, w3. simpl in *. repeat split; auto; try lia.
  - intros ->. simpl in Hlo. lia.
  - apply Forall_app. split.
    + revert Hall. apply Forall_impl. intros c Hc.
      apply negb_true_iff, orb_false_iff in Hc as [Hc _]. exact Hc.
    + constructor; [reflexivity|].
      revert Hall3. apply Forall_impl. intros c Hc. now apply isWord_not_space.
Qed.

Lemma dropWhile_id (f : cu -> bool) (s : jsstring) :
  (forall c t, s = c :: t -> f c = false) -> dropWhile f s = s.
Proof.
  destruct s as [|c s]; [reflexivity|]. intros H. simpl.
  now rewrite (H c s eq_refl).
Qed.

Lemma trim_id (s : jsstring) :
  Forall (fun c => isSpace c = false) s -> trim s = s.
Proof.
  intros H. unfold trim.
  assert (E1 : dropWhile isSpace s = s).
  { apply dropWhile_id. intros c t ->. now apply Forall_cons_iff in H as [H _]. }
  rewrite E1.
  assert (E2 : dropWhile isSpace (rev s) = rev s).
  { apply dropWhile_id. intros c t E. apply Forall_rev in H. rewrite E in H.
    now apply Forall_cons_iff in H as [H _]. }
  rewrite E2. apply rev_involutive.
Qed.

(** X6.  For the backtick, quote and action-verb patterns alike, an
    accepted path ends in a dot and its extension, the extension is made of
    1 to 6 word characters, and the path holds no white space: trimming
    leaves it as it is. *)
Theorem extension_patterns_capture (p : pattern) (msg fp : jsstring) :
  In p EXTENSION_PATTERNS ->
  In (Some fp) (matchAll p msg) ->
  isValidFilePath fp = true ->
  (exists stem, fp = stem ++ CHAR_DOT :: extension fp /\ stem <> [])
  /\ 1 <= length (extension fp) <= 6
  /\ Forall (fun c => isWord c = true) (extension fp)
  /\ Forall (fun c => isSpace c = false) fp
  /\ trim fp = fp.
Proof.
  intros Hp Hin Hvalid.
  apply scan_In in Hin as (s' & len & Hexec).
  apply exec_extension_capture in Hexec as (w & cs & Hw & L); [|exact Hp].
  injection Hw as <-.
  apply dot_ext_shape_class in L
    as (stem & ext & E & Hstem & Hlen & Hword & Hspace).
  assert (Htrim : trim fp = fp) by now apply trim_id.
  subst fp.
  apply isValidFilePath_true in Hvalid as (_ & _ & _ & Hext & _).
  apply toLowerCase_nonempty in Hext.
  assert (Hne : ext <> []) by (intros ->; simpl in Hlen; lia).
  unfold extension in *.
  destruct (extname_dot_ext stem Hne Hword) as [E|E]; rewrite E in *.
  - now contradiction Hext.
  - simpl. repeat split; auto; try lia. now exists stem.
Qed.

Lemma extension_patterns_capture_witness :
  (exists stem, str "src/lib.rs" = stem ++ CHAR_DOT :: extension (str "src/lib.rs")
                /\ stem <> [])
  /\ 1 <= length (extension (str "src/lib.rs")) <= 6
  /\ Forall (fun c => isWord c = true) (extension (str "src/lib.rs"))
  /\ Forall (fun c => isSpace c = false) (str "src/lib.rs")
  /\ trim (str "src/lib.rs") = str "src/lib.rs".
Proof.
  apply (@extension_patterns_capture WRITE_PATTERN
           (str "Then edited src/lib.rs, twice.") (str "src/lib.rs")).
  - vm_compute. auto.
  - vm_compute. left. reflexivity.
  - reflexivity.
Defined.

(** ** Write flags and write verbs *)

Lemma lang_lit (ic : bool) (v w : jsstring) :
  lang ic (lit v) w -> Forall2 (fun c l => lit_matches ic c l = true) w v.
Proof.
  revert w. induction v as [|l v IH]; intros w H; simpl in H.
  - inversion H; subst. constructor.
  - inversion H as [| |r1 r2 w1 w2 L1 L2| | | |]; subst; clear H.
    inversion L1 as [|a c Hc| | | | |]; subst; clear L1.
    simpl. constructor; [exact Hc | now apply IH].
Qed.

Lemma lit_matches_canon (c l : cu) :
  lit_matches true c l = true -> canonicalize c = canonicalize l.
Proof. unfold lit_matches. apply cu_eqb_eq. Qed.

Lemma lang_lit_case (v w : jsstring) :
  lang true (lit v) w -> sameUpToCase w v.
Proof.
  intros H%lang_lit. unfold sameUpToCase.
  induction H as [|c l w v Hc _ IH]; [reflexivity|].
  simpl. now rewrite (lit_matches_canon c l Hc), IH.
Qed.

Lemma lang_alt (ic : bool) (vs : list jsstring) (w : jsstring) :
  lang ic (alt vs) w -> exists v, In v vs /\ lang ic (lit v) w.
Proof.
  induction vs as [|v vs IH]; intros H.
  - simpl in H. inversion H as [|a c Hc| | | | |]; subst. discriminate Hc.
  - destruct vs as [|v' vs].
    + exists v. split; [now left | exact H].
    + change (alt (v :: v' :: vs)) with (RAlt (lit v) (alt (v' :: vs))) in H.
      inversion H as [| | |r1 r2 w' L|r1 r2 w' L| |]; subst; clear H.
      * exists v. split; [now left | exact L].
      * apply IH in L as (u & Hu & L). exists u. split; [now right | exact L].
Qed.

Lemma write_match_has_verb (s : jsstring) (len : nat) (cap : option jsstring) :
  exec_at WRITE_PATTERN s = Some (len, cap) ->
  exists verb v sp post,
    In verb WRITE_VERBS /\ s = v ++ sp :: post
    /\ sameUpToCase v verb /\ isSpace sp = true.
Proof.
  unfold exec_at. intros H.
  apply rmatch_sound in H as (w & s' & cap' & -> & L & _).
  unfold WRITE_PATTERN, action_tail in L. cbn [p_re p_ic seq] in L.
  remember (alt WRITE_VERBS) as V eqn:EV in L.
  inversion L as [| |r1 r2 w1 w23 L1 L23| | | |]; subst r1 r2 w; clear L.
  inversion L23 as [| |r1 r2 w2 w3 L2 L3| | | |]; subst r1 r2 w23; clear L23.
  rewrite EV in L1.
  apply lang_alt in L1 as (verb & Hverb & L1). apply lang_lit_case in L1.
  unfold plus in L2.
  inversion L2 as [| | | | |lo hi a w' Hlo Hhi Hall|]; subst lo hi a w';
    clear L2.
  destruct w2 as [|sp w2]; [simpl in Hlo; lia|].
  apply Forall_cons_iff in Hall as [Hsp _].
  exists verb, w1, sp, ((w2 ++ w3) ++ s'). repeat split; auto.
  now rewrite <- !app_assoc.
Qed.

Lemma write_hit_has_verb (msg cwd p : jsstring) :
  In p (writeHits msg cwd) ->
  exists verb pre v sp post,
    In verb WRITE_VERBS /\ msg = pre ++ v ++ sp :: post
    /\ sameUpToCase v verb /\ isSpace sp = true.
Proof.
  unfold writeHits. intros H.
  apply hitsOf_In in H as (pat & m & fp & [<-|[]] & Hm & _ & _).
  apply scan_In_suffix in Hm as (pre & s' & len & -> & E).
  apply write_match_has_verb in E as (verb & v & sp & post & Hv & -> & Hc & Hs).
  now exists verb, pre, v, sp, post.
Qed.

(** X7.  No record is flagged as a write unless the message holds one of
    the twelve write verbs, in any letter case, followed by white space. *)
Theorem write_flag_needs_write_verb (message : option jsstring)
    (cwd : jsstring) (f : ExtractedFile) :
  In f (extractFiles message cwd) ->
  isWrite f = true ->
  exists verb pre v sp post,
    In verb WRITE_VERBS
    /\ textOf message = pre ++ v ++ sp :: post
    /\ sameUpToCase v verb
    /\ isSpace sp = true.
Proof.
  rewrite extractFiles_shape, in_app_iff, !in_map_iff.
  intros [(p & <- & Hp)|(p & <- & Hp)] Hw; [|discriminate Hw].
  rewrite firstSeen_nil_In in Hp. now apply write_hit_has_verb in Hp.
Qed.

Lemma write_flag_needs_write_verb_witness :
  exists verb pre v sp post,
    In verb WRITE_VERBS
    /\ str "I then edited src/lib.rs." = pre ++ v ++ sp :: post
    /\ sameUpToCase v verb
    /\ isSpace sp = true.
Proof.
  apply (write_flag_needs_write_verb (Some (str "I then edited src/lib.rs."))
           (str "/p") (mkFile (str "/p/src/lib.rs") true)).
  - vm_compute. left. reflexivity.
  - reflexivity.
Defined.

(** * Further properties of the orchestrator *)

Lemma extractFiles_paths_NoDup (message : option jsstring) (cwd : jsstring) :
  NoDup (map path (extractFiles message cwd)).
Proof.
  rewrite extractFiles_paths.
  rewrite (@firstSeen_ext (readHits (textOf message) cwd)
             (writeHits (textOf message) cwd)
             ([] ++ firstSeen [] (writeHits (textOf message) cwd))).
  - rewrite <- firstSeen_app. apply firstSeen_NoDup.
  - intros x. simpl. now rewrite firstSeen_nil_In.
Qed.

Lemma heartbeatsOf_files (n : CodexNotification) (files : list ExtractedFile) :
  heartbeatsOf
    (flat_map (fun file => [EvLog DEBUG "Sending heartbeat for file";
                            EvSendHeartbeat (fileHeartbeat n file)]) files)
  = map (fileHeartbeat n) files.
Proof.
  induction files as [|f files IH]; [reflexivity|].
  simpl. now rewrite IH.
Qed.

Lemma heartbeatsOf_dispatch (n : CodexNotification) :
  heartbeatsOf (dispatchEvents n)
  = match extractFiles (last_assistant_message n) (cwd n) with
    | [] => [projectHeartbeat n]
    | files => map (fileHeartbeat n) files
    end.
Proof.
  unfold dispatchEvents.
  destruct (extractFiles (last_assistant_message n) (cwd n)) as [|f files];
    [reflexivity|].
  apply (heartbeatsOf_files n (f :: files)).
Qed.

Lemma heartbeatsOf_processed (JSON_parse : jsstring -> parsed) (env : Env)
    (st : State) (n : CodexNotification) :
  processed JSON_parse env st n ->
  heartbeatsOf (trace (runMain JSON_parse env st))
  = match extractFiles (last_assistant_message n) (cwd n) with
    | [] => [projectHeartbeat n]
    | files => map (fileHeartbeat n) files
    end.
Proof.
  intros Hp. destruct (runMain_processed Hp) as (pre & Hq & -> & _).
  rewrite !heartbeatsOf_app, (heartbeatsOf_quiet pre Hq), heartbeatsOf_dispatch.
  simpl. now rewrite app_nil_r.
Qed.

(** X8.  When a notification is processed and its message yields files,
    the run sends one heartbeat of type file per extracted record, in the
    order of the records, each with the record's path and write flag and
    the working directory as project folder; no file is reported twice and
    no project-level heartbeat is sent. *)
Theorem extraction_sends_file_heartbeats
    (JSON_parse : jsstring -> parsed) (env : Env) (st : State)
    (n : CodexNotification) :
  processed JSON_parse env st n ->
  extractFiles (last_assistant_message n) (cwd n) <> [] ->
  heartbeatsOf (trace (runMain JSON_parse env st))
  = map (fun file =>
           mkHeartbeat (path file) EntityFile (Some AI_CODING) (Some (cwd n))
             None None (Some (isWrite file)))
      (extractFiles (last_assistant_message n) (cwd n))
  /\ NoDup (map hb_entity (heartbeatsOf (trace (runMain JSON_parse env st)))).
Proof.
  intros Hp Hne. rewrite (heartbeatsOf_processed Hp).
  destruct (extractFiles (last_assistant_message n) (cwd n)) as [|f files] eqn:E;
    [contradiction|].
  split; [reflexivity|].
  rewrite map_map. cbn [fileHeartbeat hb_entity].
  rewrite <- E. apply extractFiles_paths_NoDup.
Qed.

Lemma extraction_sends_file_heartbeats_witness :
  heartbeatsOf
    (trace (runMain (fun _ => ParsedValue notification_two_files) env_ready
              (mkState None)))
  = [mkHeartbeat (str "/p/src/a.ts") EntityFile (Some AI_CODING)
       (Some (str "/p")) None None (Some true);
     mkHeartbeat (str "/p/src/b.ts") EntityFile (Some AI_CODING)
       (Some (str "/p")) None None (Some false)]
  /\ NoDup (map hb_entity
              (heartbeatsOf
                 (trace (runMain (fun _ => ParsedValue notification_two_files)
                           env_ready (mkState None))))).
Proof.
  apply (extraction_sends_file_heartbeats
           (JSON_parse := fun _ => ParsedValue notification_two_files)
           (env := env_ready) (st := mkState None)
           (n := notification_two_files)).
  - repeat split.
  - vm_compute. discriminate.
Defined.

(** X9.  A heartbeat is sent only for a processed notification, and every
    heartbeat sent has the category [ai coding] and no line count: it is
    either the project-level heartbeat of an empty extraction, or the
    heartbeat of one extracted record. *)
Theorem heartbeats_only_when_processed
    (JSON_parse : jsstring -> parsed) (env : Env) (st : State)
    (h : HeartbeatParams) :
  In h (heartbeatsOf (trace (runMain JSON_parse env st))) ->
  exists n,
    processed JSON_parse env st n
    /\ hb_category h = Some AI_CODING
    /\ hb_lineChanges h = None
    /\ ((extractFiles (last_assistant_message n) (cwd n) = []
         /\ hb_entityType h = EntityApp
         /\ hb_entity h = cwd n
         /\ hb_project h = Some (basename (cwd n)))
        \/ (exists file,
              In file (extractFiles (last_assistant_message n) (cwd n))
              /\ hb_entityType h = EntityFile
              /\ hb_entity h = path file
              /\ hb_isWrite h = Some (isWrite file)
              /\ hb_projectFolder h = Some (cwd n))).
Proof.
  intros Hin.
  destruct (processed_dec JSON_parse env st) as [[n Hp]|Hnot].
  - exists n. split; [exact Hp|].
    rewrite (heartbeatsOf_processed Hp) in Hin.
    destruct (extractFiles (last_assistant_message n) (cwd n)) as [|f files].
    + destruct Hin as [<-|[]]. repeat split. left. repeat split.
    + apply in_map_iff in Hin as (file & <- & Hfile).
      repeat split. right. exists file. repeat split. exact Hfile.
  - destruct (runMain_early Hnot) as [Hq _].
    rewrite (heartbeatsOf_quiet _ Hq) in Hin. contradiction.
Qed.

Lemma heartbeats_only_when_processed_witness :
  exists n,
    processed (fun _ => ParsedValue notification_two_files) env_ready
      (mkState None) n
    /\ Some AI_CODING = Some AI_CODING
    /\ @None Z = None
    /\ ((extractFiles (last_assistant_message n) (cwd n) = []
         /\ EntityFile = EntityApp
         /\ str "/p/src/b.ts" = cwd n
         /\ @None jsstring = Some (basename (cwd n)))
        \/ (exists file,
              In file (extractFiles (last_assistant_message n) (cwd n))
              /\ EntityFile = EntityFile
              /\ str "/p/src/b.ts" = path file
              /\ Some false = Some (isWrite file)
              /\ Some (str "/p") = Some (cwd n))).
Proof.
  apply (heartbeats_only_when_processed
           (fun _ => ParsedValue notification_two_files) env_ready
           (mkState None)
           (mkHeartbeat (str "/p/src/b.ts") EntityFile (Some AI_CODING)
              (Some (str "/p")) None None (Some false))).
  vm_compute. right. left. reflexivity.
Defined.


(** * The configuration reader *)

(** ** Trimming, splitting and searching *)

Lemma dropWhile_all (f : cu -> bool) (s : jsstring) :
  Forall (fun c => f c = true) s -> dropWhile f s = [].
Proof.
  induction 1 as [|c s Hc _ IH]; [reflexivity|]. simpl. now rewrite Hc.
Qed.

Lemma dropWhile_app_stop (f : cu -> bool) (x y : jsstring) (c : cu) :
  Forall (fun c => f c = true) x -> f c = false ->
  dropWhile f (x ++ c :: y) = c :: y.
Proof.
  intros Hx Hc. induction Hx as [|a x Ha _ IH]; simpl.
  - now rewrite Hc.
  - now rewrite Ha.
Qed.

(** What [trim] returns is determined by a decomposition of the string
    into white space, a core that does not start or end with white space,
    and white space. *)
Lemma trim_unique (l m r : jsstring) :
  Forall (fun c => isSpace c = true) l ->
  Forall (fun c => isSpace c = true) r ->
  (forall c t, m = c :: t -> isSpace c = false) ->
  (forall c t, m = t ++ [c] -> isSpace c = false) ->
  trim (l ++ m ++ r) = m.
Proof.
  intros Hl Hr Hfirst Hlast. unfold trim.
  destruct m as [|c t].
  - simpl.
    assert (E : dropWhile isSpace (l ++ r) = [])
      by (apply dropWhile_all, Forall_app; now split).
    now rewrite E.
  - change (l ++ (c :: t) ++ r) with (l ++ c :: (t ++ r)).
    rewrite dropWhile_app_stop; [|exact Hl|now apply (Hfirst c t)].
    change (c :: t ++ r) with ((c :: t) ++ r).
    destruct (exists_last (l := c :: t)) as (t' & z & E); [discriminate|].
    rewrite E, rev_app_distr, rev_app_distr.
    change (rev [z] ++ rev t') with (z :: rev t').
    rewrite dropWhile_app_stop;
      [|now apply Forall_rev|now apply (Hlast z t')].
    simpl. now rewrite rev_involutive.
Qed.

Lemma trim_idempotent (s : jsstring) : trim (trim s) = trim s.
Proof.
  destruct (trim_spec s) as (l & r & _ & _ & _ & Hf & Hl).
  rewrite <- (app_nil_r (trim s)) at 1.
  apply (@trim_unique [] (trim s) []); auto.
Qed.

Lemma trim_In (s : jsstring) (c : cu) : In c (trim s) -> In c s.
Proof.
  destruct (trim_spec s) as (l & r & E & _). intros H. rewrite E.
  rewrite !in_app_iff. tauto.
Qed.

Lemma splitOn_nonempty (sep : cu) (s : jsstring) : splitOn sep s <> [].
Proof.
  destruct s as [|c s]; simpl; [discriminate|].
  destruct (cu_eqb c sep); [discriminate|].
  destruct (splitOn sep s); discriminate.
Qed.

Lemma splitOn_single (sep : cu) (s : jsstring) :
  ~ In sep s -> splitOn sep s = [s].
Proof.
  induction s as [|c s IH]; intros H; [reflexivity|]. simpl.
  destruct (cu_eqb c sep) eqn:E.
  - apply cu_eqb_eq in E. subst c. exfalso. apply H. now left.
  - rewrite IH; [reflexivity|]. intros Hin. apply H. now right.
Qed.

Lemma splitOn_app (sep : cu) (a b : jsstring) :
  splitOn sep (a ++ sep :: b) = splitOn sep a ++ splitOn sep b.
Proof.
  induction a as [|c a IH]; simpl.
  - now rewrite (proj2 (cu_eqb_eq sep sep) eq_refl).
  - destruct (cu_eqb c sep); [now rewrite IH|].
    rewrite IH. destruct (splitOn sep a) as [|seg rest] eqn:E; [|reflexivity].
    now apply splitOn_nonempty in E.
Qed.

Lemma parseIni_append_line (content line : jsstring) :
  ~ In CHAR_LF line ->
  parseIni (content ++ CHAR_LF :: line)
  = parseIniLine (parseIni content) line.
Proof.
  intros H. unfold parseIni.
  now rewrite splitOn_app, fold_left_app, (splitOn_single CHAR_LF line H).
Qed.

Lemma indexOf_app (c : cu) (a b : jsstring) :
  ~ In c a -> indexOf c (a ++ c :: b) = Some (length a).
Proof.
  induction a as [|x a IH]; intros H; simpl.
  - now rewrite (proj2 (cu_eqb_eq c c) eq_refl).
  - destruct (cu_eqb x c) eqn:E.
    + apply cu_eqb_eq in E. subst x. exfalso. apply H. now left.
    + rewrite IH; [reflexivity|]. intros Hin. apply H. now right.
Qed.

Lemma obj_get_put {V : Type} (o : list (jsstring * V)) (k : jsstring) (v : V) :
  obj_get (obj_put o k v) k = Some v.
Proof.
  induction o as [|[k' v'] o IH]; simpl.
  - now rewrite jseqb_refl.
  - destruct (jseqb k k') eqn:E; simpl; rewrite E; [reflexivity | exact IH].
Qed.

Lemma obj_get_put_other {V : Type} (o : list (jsstring * V)) (k k2 : jsstring)
    (v : V) :
  k2 <> k -> obj_get (obj_put o k v) k2 = obj_get o k2.
Proof.
  intros Hne. induction o as [|[k' v'] o IH]; simpl.
  - apply jseqb_neq in Hne. now rewrite Hne.
  - destruct (jseqb k k') eqn:E; simpl.
    + apply jseqb_eq in E. subst k'. apply jseqb_neq in Hne. now rewrite Hne.
    + now rewrite IH.
Qed.

(** ** An assignment line *)

Lemma iniKey_first (k : jsstring) :
  iniKey k -> exists c t, k = c :: t /\ isSpace c = false.
Proof.
  intros (Hne & Htrim & _). destruct k as [|c t]; [contradiction|].
  exists c, t. split; [reflexivity|].
  destruct (trim_spec (c :: t)) as (l & r & _ & _ & _ & Hf & _).
  rewrite Htrim in Hf. now apply (Hf c t).
Qed.

Lemma iniKey_last (k : jsstring) (c : cu) (t : jsstring) :
  iniKey k -> k = t ++ [c] -> isSpace c = false.
Proof.
  intros (_ & Htrim & _) E.
  destruct (trim_spec k) as (l & r & _ & _ & _ & _ & Hl).
  rewrite Htrim in Hl. now apply (Hl c t).
Qed.

Lemma not_space_equals : isSpace CHAR_EQUALS = false.
Proof. reflexivity. Qed.

Lemma space_not_equals (sp : jsstring) :
  Forall (fun c => isSpace c = true) sp -> ~ In CHAR_EQUALS sp.
Proof.
  intros H Hin. rewrite Forall_forall in H. apply H in Hin. discriminate Hin.
Qed.

(** The trimmed form of an assignment line [key, spaces, =, text]. *)
Lemma trim_assignment (k sp v : jsstring) :
  iniKey k -> Forall (fun c => isSpace c = true) sp ->
  exists rest,
    trim (k ++ sp ++ CHAR_EQUALS :: v) = k ++ sp ++ CHAR_EQUALS :: rest
    /\ trim rest = trim v.
Proof.
  intros Hk Hsp.
  destruct (iniKey_first Hk) as (c & t & -> & Hc).
  destruct (trim_spec v) as (l & r & Ev & Hl & Hr & Hf & Hlast).
  destruct (trim v) as [|x core] eqn:Et.
  - exists []. split; [|reflexivity].
    rewrite <- (app_nil_l ((c :: t) ++ sp ++ CHAR_EQUALS :: v)).
    replace ((c :: t) ++ sp ++ CHAR_EQUALS :: v)
      with (((c :: t) ++ sp ++ [CHAR_EQUALS]) ++ v)
      by (now rewrite <- !app_assoc).
    apply (@trim_unique [] ((c :: t) ++ sp ++ [CHAR_EQUALS]) v).
    + constructor.
    + rewrite Ev. simpl. apply Forall_app. now split.
    + intros c' t' E. injection E as <- _. exact Hc.
    + intros c' t' E. rewrite !app_assoc in E.
      apply app_inj_tail in E as [_ <-]. apply not_space_equals.
  - exists (l ++ x :: core). split.
    + rewrite Ev.
      rewrite <- (app_nil_l ((c :: t) ++ sp ++ CHAR_EQUALS :: l ++ (x :: core) ++ r)).
      replace ((c :: t) ++ sp ++ CHAR_EQUALS :: l ++ (x :: core) ++ r)
        with (((c :: t) ++ sp ++ CHAR_EQUALS :: l ++ x :: core) ++ r).
      * apply (@trim_unique []
                 ((c :: t) ++ sp ++ CHAR_EQUALS :: l ++ x :: core) r);
          [constructor | exact Hr | |].
        -- intros c' t' E. injection E as <- _. exact Hc.
        -- intros c' t' E.
           destruct (exists_last (l := x :: core)) as (core' & z & Ez);
             [discriminate|].
           rewrite Ez in E.
           replace ((c :: t) ++ sp ++ CHAR_EQUALS :: l ++ core' ++ [z])
             with (((c :: t) ++ sp ++ CHAR_EQUALS :: l ++ core') ++ [z]) in E.
           ++ apply app_inj_tail in E as [_ <-]. now apply (Hlast z core').
           ++ rewrite <- !app_assoc. simpl. rewrite <- !app_assoc.
              reflexivity.
      * rewrite <- !app_assoc. simpl. rewrite <- !app_assoc. reflexivity.
    + rewrite <- (app_nil_r (l ++ x :: core)), <- app_assoc.
      apply (@trim_unique l (x :: core) []); auto.
Qed.

Lemma trim_key_spaces (k sp : jsstring) :
  iniKey k -> Forall (fun c => isSpace c = true) sp -> trim (k ++ sp) = k.
Proof.
  intros Hk Hsp. rewrite <- (app_nil_l (k ++ sp)).
  apply (@trim_unique [] k sp); [constructor | exact Hsp | |].
  - intros c t E. destruct (iniKey_first Hk) as (c' & t' & E' & Hc).
    rewrite E in E'. now injection E' as -> _.
  - intros c t E. now apply (@iniKey_last k c t).
Qed.

Lemma parseIniLine_assignment (config : iniConfig) (k sp v : jsstring) :
  iniKey k -> Forall (fun c => isSpace c = true) sp ->
  parseIniLine config (k ++ sp ++ CHAR_EQUALS :: v)
  = obj_put config k (iniValueOf (trim v)).
Proof.
  intros Hk Hsp. pose proof Hk as (Hne & Htrim & Heq & Hlf & Hhash & Hbr & Hproto).
  destruct (@trim_assignment k sp v Hk Hsp) as (rest & Et & Er).
  unfold parseIniLine. rewrite Et.
  assert (E0 : jseqb (k ++ sp ++ CHAR_EQUALS :: rest) [] = false).
  { apply jseqb_neq. destruct k; [contradiction | discriminate]. }
  assert (E1 : forall pre, startsWith k pre = false ->
                 length pre = 1 ->
                 startsWith (k ++ sp ++ CHAR_EQUALS :: rest) pre = false).
  { intros pre Hp Hlen. destruct pre as [|x [|y pre]]; try discriminate Hlen.
    destruct k as [|c t]; [contradiction|]. simpl in *.
    destruct (cu_eqb c x); [|reflexivity]. simpl in Hp.
    destruct t; discriminate Hp. }
  rewrite E0, (E1 (str "#") Hhash eq_refl), (E1 (str "[") Hbr eq_refl).
  cbn [orb].
  rewrite app_assoc, indexOf_app.
  2:{ intros Hin. apply in_app_iff in Hin as [Hin|Hin];
        [contradiction | now apply (@space_not_equals sp)]. }
  assert (Hpos : Nat.ltb 0 (length (k ++ sp)) = true).
  { apply Nat.ltb_lt. rewrite length_app. destruct k; [contradiction|].
    simpl. lia. }
  rewrite Hpos. unfold slice, sliceFrom. simpl skipn at 1.
  rewrite firstn_app, Nat.sub_diag, firstn_all. simpl firstn.
  rewrite app_nil_r, (@trim_key_spaces k sp Hk Hsp).
  replace (length (k ++ sp) + 1) with (length (k ++ sp ++ [CHAR_EQUALS])).
  2:{ rewrite !length_app. simpl. lia. }
  replace ((k ++ sp) ++ CHAR_EQUALS :: rest)
    with ((k ++ sp ++ [CHAR_EQUALS]) ++ rest)
    by (now rewrite <- !app_assoc).
  rewrite skipn_app, Nat.sub_diag, skipn_all. simpl. rewrite Er.
  unfold ini_assign. apply jseqb_neq in Hproto. now rewrite Hproto.
Qed.

Lemma parseIni_last_assignment (content k sp v : jsstring) :
  iniKey k -> Forall (fun c => isSpace c = true) sp ->
  ~ In CHAR_LF sp -> ~ In CHAR_LF v ->
  parseIni (content ++ CHAR_LF :: k ++ sp ++ CHAR_EQUALS :: v)
  = obj_put (parseIni content) k (iniValueOf (trim v)).
Proof.
  intros Hk Hsp Hlsp Hlv. rewrite parseIni_append_line.
  - now apply parseIniLine_assignment.
  - pose proof Hk as (_ & _ & _ & Hlf & _).
    rewrite !in_app_iff. simpl. intros [H|[H|[H|H]]]; auto. discriminate H.
Qed.

(** ** Properties of the configuration reader *)

(** X10.  A later line [key = text] decides the value of its key, whatever
    came before, and leaves every other key as it was. *)
Theorem ini_last_assignment_wins (content k sp v : jsstring) :
  iniKey k -> Forall (fun c => isSpace c = true) sp ->
  ~ In CHAR_LF sp -> ~ In CHAR_LF v ->
  obj_get (parseIni (content ++ CHAR_LF :: k ++ sp ++ CHAR_EQUALS :: v)) k
  = Some (iniValueOf (trim v))
  /\ (forall k2, k2 <> k ->
        obj_get (parseIni (content ++ CHAR_LF :: k ++ sp ++ CHAR_EQUALS :: v)) k2
        = obj_get (parseIni content) k2).
Proof.
  intros Hk Hsp Hlsp Hlv. rewrite parseIni_last_assignment by assumption.
  split; [apply obj_get_put|]. intros k2 Hne. now apply obj_get_put_other.
Qed.

Lemma iniKey_debug : iniKey (str "debug").
Proof.
  repeat split; try discriminate; simpl; intuition discriminate.
Qed.

Lemma iniKey_api_key : iniKey (str "api_key").
Proof.
  repeat split; try discriminate; simpl; intuition discriminate.
Qed.

Lemma ini_last_assignment_wins_witness :
  obj_get
    (parseIni (str "debug = true" ++ CHAR_LF :: str "debug" ++ str " "
               ++ CHAR_EQUALS :: str " off"))
    (str "debug")
  = Some (IniString (str "off")).
Proof.
  apply (proj1 (@ini_last_assignment_wins (str "debug = true") (str "debug")
                  (str " ") (str " off") iniKey_debug
                  ltac:(repeat constructor)
                  ltac:(simpl; intuition discriminate)
                  ltac:(simpl; intuition discriminate))).
Defined.

(** *** The last line that assigns a key *)

Lemma parseIniLine_reads (config : iniConfig) (line : jsstring) :
  parseIniLine config line
  = match iniAssignment line with
    | Some (k, v) => ini_assign config k (iniValueOf v)
    | None => config
    end.
Proof.
  unfold parseIniLine, iniAssignment.
  destruct (jseqb (trim line) [] || startsWith (trim line) (str "#")
            || startsWith (trim line) (str "[")); [reflexivity|].
  destruct (indexOf CHAR_EQUALS (trim line)) as [i|]; [|reflexivity].
  destruct (Nat.ltb 0 i); reflexivity.
Qed.

Lemma trim_lead (lead x : jsstring) :
  Forall (fun c => isSpace c = true) lead -> trim (lead ++ x) = trim x.
Proof.
  intros Hlead. destruct (trim_spec x) as (l & r & E & Hl & Hr & Hf & Hlast).
  rewrite E at 1. rewrite app_assoc.
  apply trim_unique; auto. apply Forall_app. now split.
Qed.

(** A line made of white space, a key, white space, the equals sign and a
    text assigns the key the trimmed text. *)
Lemma iniAssignment_line (lead k sp v : jsstring) :
  iniKey k ->
  Forall (fun c => isSpace c = true) lead ->
  Forall (fun c => isSpace c = true) sp ->
  iniAssignment (lead ++ k ++ sp ++ CHAR_EQUALS :: v) = Some (k, trim v).
Proof.
  intros Hk Hlead Hsp.
  pose proof Hk as (Hne & Htrim & Heq & Hlf & Hhash & Hbr & Hproto).
  destruct (@trim_assignment k sp v Hk Hsp) as (rest & Et & Er).
  unfold iniAssignment. rewrite (trim_lead _ Hlead), Et.
  assert (E0 : jseqb (k ++ sp ++ CHAR_EQUALS :: rest) [] = false).
  { apply jseqb_neq. destruct k; [contradiction | discriminate]. }
  assert (E1 : forall pre, startsWith k pre = false ->
                 length pre = 1 ->
                 startsWith (k ++ sp ++ CHAR_EQUALS :: rest) pre = false).
  { intros pre Hp Hlen. destruct pre as [|x [|y pre]]; try discriminate Hlen.
    destruct k as [|c t]; [contradiction|]. simpl in *.
    destruct (cu_eqb c x); [|reflexivity]. simpl in Hp.
    destruct t; discriminate Hp. }
  rewrite E0, (E1 (str "#") Hhash eq_refl), (E1 (str "[") Hbr eq_refl).
  cbn [orb].
  rewrite app_assoc, indexOf_app.
  2:{ intros Hin. apply in_app_iff in Hin as [Hin|Hin];
        [contradiction | now apply (@space_not_equals sp)]. }
  assert (Hpos : Nat.ltb 0 (length (k ++ sp)) = true).
  { apply Nat.ltb_lt. rewrite length_app. destruct k; [contradiction|].
    simpl. lia. }
  rewrite Hpos. unfold slice, sliceFrom. simpl skipn at 1.
  rewrite firstn_app, Nat.sub_diag, firstn_all. simpl firstn.
  rewrite app_nil_r, (@trim_key_spaces k sp Hk Hsp).
  replace (length (k ++ sp) + 1) with (length (k ++ sp ++ [CHAR_EQUALS])).
  2:{ rewrite !length_app. simpl. lia. }
  replace ((k ++ sp) ++ CHAR_EQUALS :: rest)
    with ((k ++ sp ++ [CHAR_EQUALS]) ++ rest)
    by (now rewrite <- !app_assoc).
  rewrite skipn_app, Nat.sub_diag, skipn_all. simpl. now rewrite Er.
Qed.

(** The value of a key after the loop: what the last line that assigns the
    key gives it, or the value before the loop when no line assigns it. *)
Lemma parseIni_fold_get (key : jsstring) (lines : list jsstring) :
  key <> str "__proto__" ->
  forall config,
    obj_get (fold_left parseIniLine lines config) key
    = match find (assignsKey key) (rev lines) with
      | Some line =>
          option_map (fun e => iniValueOf (snd e)) (iniAssignment line)
      | None => obj_get config key
      end.
Proof.
  intros Hkey. induction lines as [|line lines IH] using rev_ind; intros config.
  - reflexivity.
  - rewrite fold_left_app, rev_app_distr. cbn [fold_left rev app find].
    rewrite parseIniLine_reads. unfold assignsKey at 1.
    destruct (iniAssignment line) as [[k v]|] eqn:E; [|apply IH].
    unfold ini_assign.
    destruct (jseqb k (str "__proto__")) eqn:Ep.
    + apply jseqb_eq in Ep. subst k.
      assert (En : jseqb (str "__proto__") key = false).
      { apply jseqb_neq. congruence. }
      rewrite En. apply IH.
    + destruct (jseqb k key) eqn:Ek.
      * apply jseqb_eq in Ek. subst k. now rewrite obj_get_put, E.
      * rewrite obj_get_put_other; [apply IH|].
        intros ->. now rewrite jseqb_refl in Ek.
Qed.

Lemma parseIni_get (key content : jsstring) :
  key <> str "__proto__" ->
  obj_get (parseIni content) key
  = option_map iniValueOf (lastAssigned key content).
Proof.
  intros Hkey. unfold parseIni, lastAssigned.
  rewrite (@parseIni_fold_get key _ Hkey).
  destruct (find (assignsKey key) (rev (splitOn CHAR_LF content)));
    [|reflexivity].
  now destruct (iniAssignment j) as [[k v]|].
Qed.

(** X11.  [isDebugEnabled] and [hasApiKey] follow the last line of the file
    that assigns [debug], respectively [api_key], wherever that line stands:
    debug is enabled exactly when that line's text, trimmed, is [true] in
    any letter case, and an api key is present exactly when that line's text
    is not empty and is not a boolean word.  Without such a line, and
    without a readable file, both are false.  A line assigns a key when it
    is made of white space, the key, white space, the equals sign and the
    text. *)
Theorem debug_and_api_key_follow_last_line (content lead k sp v : jsstring) :
  isDebugEnabled (Some content)
  = match lastAssigned (str "debug") content with
    | Some text => jseqb (toLowerCase text) (str "true")
    | None => false
    end
  /\ hasApiKey (Some content)
     = match lastAssigned (str "api_key") content with
       | Some text =>
           negb (jseqb text [])
           && negb (jseqb (toLowerCase text) (str "true"))
           && negb (jseqb (toLowerCase text) (str "false"))
       | None => false
       end
  /\ isDebugEnabled None = false
  /\ hasApiKey None = false
  /\ (iniKey k ->
      Forall (fun c => isSpace c = true) lead ->
      Forall (fun c => isSpace c = true) sp ->
      iniAssignment (lead ++ k ++ sp ++ CHAR_EQUALS :: v) = Some (k, trim v)).
Proof.
  unfold isDebugEnabled, hasApiKey, getWakaTimeConfig.
  rewrite !parseIni_get by discriminate.
  repeat split.
  - destruct (lastAssigned (str "debug") content) as [text|]; [|reflexivity].
    cbn [option_map]. unfold iniValueOf.
    destruct (jseqb (toLowerCase text) (str "true")); [reflexivity|].
    now destruct (jseqb (toLowerCase text) (str "false")).
  - destruct (lastAssigned (str "api_key") content) as [text|]; [|reflexivity].
    cbn [option_map]. unfold iniValueOf.
    destruct (jseqb (toLowerCase text) (str "true"));
      [now rewrite andb_false_r|].
    destruct (jseqb (toLowerCase text) (str "false"));
      [now rewrite andb_false_r|].
    rewrite !andb_true_r. now destruct text.
  - apply iniAssignment_line.
Qed.

Lemma debug_and_api_key_follow_last_line_witness :
  iniAssignment (str "  " ++ str "debug" ++ str " " ++ CHAR_EQUALS :: str " TRUE ")
  = Some (str "debug", trim (str " TRUE ")).
Proof.
  apply (proj2 (proj2 (proj2 (proj2
           (debug_and_api_key_follow_last_line [] (str "  ") (str "debug")
              (str " ") (str " TRUE ")))))).
  - apply iniKey_debug.
  - repeat constructor.
  - repeat constructor.
Defined.

(** The layout of the documentation: a section header first, an indented
    key, a later line of another key, and a line feed at the end. *)
Example ini_readme_layout :
  isDebugEnabled
    (Some (str "[settings]" ++ CHAR_LF :: str "  debug = TRUE"
             ++ CHAR_LF :: str "api_key = waka_123" ++ [CHAR_LF])) = true
  /\ hasApiKey
       (Some (str "[settings]" ++ CHAR_LF :: str "  debug = TRUE"
                ++ CHAR_LF :: str "api_key = waka_123" ++ [CHAR_LF])) = true
  /\ isDebugEnabled (Some (str "debug=true")) = true
  /\ isDebugEnabled
       (Some (str "debug = true" ++ CHAR_LF :: str "debug = off")) = false
  /\ lastAssigned (str "debug")
       (str "[settings]" ++ CHAR_LF :: str "  debug = TRUE"
          ++ CHAR_LF :: str "api_key = waka_123" ++ [CHAR_LF])
     = Some (str "TRUE").
Proof. repeat split; vm_compute; reflexivity. Qed.

Lemma parseIniLine_ignored (config : iniConfig) (line : jsstring) :
  iniIgnored line = true -> parseIniLine config line = config.
Proof.
  unfold iniIgnored, iniNoise, parseIniLine. intros H.
  destruct (jseqb (trim line) [] || startsWith (trim line) (str "#")
            || startsWith (trim line) (str "[")); [reflexivity|].
  simpl in H. destruct (indexOf CHAR_EQUALS (trim line)) as [[|i]|];
    [reflexivity | discriminate | reflexivity].
Qed.

Lemma splitOn_free (sep : cu) (s : jsstring) :
  Forall (fun l => ~ In sep l) (splitOn sep s).
Proof.
  induction s as [|c s IH]; simpl.
  - repeat constructor. intros [].
  - destruct (cu_eqb c sep) eqn:E.
    + constructor; [intros []|exact IH].
    + destruct (splitOn sep s) as [|seg rest].
      * repeat constructor. intros [->|[]].
        now rewrite (proj2 (cu_eqb_eq sep sep) eq_refl) in E.
      * apply Forall_cons_iff in IH as [Hseg Hrest].
        constructor; [|exact Hrest]. intros [->|Hin]; [|contradiction].
        now rewrite (proj2 (cu_eqb_eq sep sep) eq_refl) in E.
Qed.

Lemma splitOn_joinWith (sep : cu) (l : jsstring) (ls : list jsstring) :
  Forall (fun x => ~ In sep x) (l :: ls) ->
  splitOn sep (joinWith [sep] (l :: ls)) = l :: ls.
Proof.
  revert l. induction ls as [|l2 ls IH]; intros l H.
  - apply Forall_cons_iff in H as [Hl _]. simpl. now apply splitOn_single.
  - apply Forall_cons_iff in H as [Hl H].
    change (joinWith [sep] (l :: l2 :: ls))
      with (l ++ sep :: joinWith [sep] (l2 :: ls)).
    now rewrite splitOn_app, (splitOn_single sep l Hl), IH.
Qed.

(** A text is its lines joined by line feeds. *)
Lemma joinWith_splitOn (sep : cu) (s : jsstring) :
  joinWith [sep] (splitOn sep s) = s.
Proof.
  induction s as [|c s IH]; [reflexivity|]. simpl.
  destruct (cu_eqb c sep) eqn:E.
  - apply cu_eqb_eq in E. subst c.
    destruct (splitOn sep s) as [|seg rest] eqn:Es;
      [now apply splitOn_nonempty in Es|].
    change (joinWith [sep] ([] :: seg :: rest))
      with (sep :: joinWith [sep] (seg :: rest)).
    now rewrite IH.
  - destruct (splitOn sep s) as [|seg rest] eqn:Es;
      [now apply splitOn_nonempty in Es|].
    destruct rest as [|seg2 rest].
    + simpl in *. now rewrite IH.
    + change (joinWith [sep] ((c :: seg) :: seg2 :: rest))
        with (c :: joinWith [sep] (seg :: seg2 :: rest)).
      now rewrite IH.
Qed.

Lemma parseIni_lines (ls : list jsstring) :
  Forall (fun l => ~ In CHAR_LF l) ls ->
  parseIni (joinWith [CHAR_LF] ls) = fold_left parseIniLine ls [].
Proof.
  intros H. destruct ls as [|l ls]; [reflexivity|].
  unfold parseIni. now rewrite splitOn_joinWith.
Qed.

(** X12.  A blank line, a comment, a section header and a line with no
    [=] after its first character change nothing, wherever the line stands
    in the file, first and last line included: the file without the line is
    parsed to the same configuration.  So the keys of all sections share
    one namespace. *)
Theorem ini_ignored_lines (content : jsstring) (ls1 ls2 : list jsstring)
    (line : jsstring) :
  splitOn CHAR_LF content = ls1 ++ line :: ls2 ->
  iniIgnored line = true ->
  parseIni content = parseIni (joinWith [CHAR_LF] (ls1 ++ ls2)).
Proof.
  intros Hlines Hi.
  pose proof (splitOn_free CHAR_LF content) as Hfree.
  rewrite Hlines in Hfree. apply Forall_app in Hfree as [H1 H2].
  apply Forall_cons_iff in H2 as [_ H2].
  rewrite parseIni_lines by (apply Forall_app; now split).
  unfold parseIni. rewrite Hlines, !fold_left_app. cbn [fold_left].
  now rewrite parseIniLine_ignored.
Qed.

Lemma ini_ignored_lines_witness :
  parseIni (str "[settings]" ++ CHAR_LF :: str "api_key = k" ++ [CHAR_LF])
  = parseIni (joinWith [CHAR_LF] ([] ++ [str "api_key = k"; []])).
Proof.
  apply (@ini_ignored_lines
           (str "[settings]" ++ CHAR_LF :: str "api_key = k" ++ [CHAR_LF])
           [] [str "api_key = k"; []] (str "[settings]")).
  - reflexivity.
  - reflexivity.
Defined.

Lemma indexOf_firstn (c : cu) (s : jsstring) :
  forall i, indexOf c s = Some i -> ~ In c (firstn i s).
Proof.
  induction s as [|x s IH]; intros i H; simpl in H; [discriminate|].
  destruct (cu_eqb x c) eqn:E.
  - injection H as <-. simpl. tauto.
  - destruct (indexOf c s) as [j|]; [|discriminate]. injection H as <-.
    simpl. intros [->|Hin].
    + rewrite (proj2 (cu_eqb_eq c c) eq_refl) in E. discriminate E.
    + now apply (IH j).
Qed.

Lemma trim_nonempty (c : cu) (t : jsstring) :
  isSpace c = false -> trim (c :: t) <> [].
Proof.
  intros Hc E. destruct (trim_spec (c :: t)) as (l & r & Es & Hl & Hr & _).
  rewrite E in Es. simpl in Es.
  assert (Hall : Forall (fun c => isSpace c = true) (c :: t))
    by (rewrite Es; apply Forall_app; now split).
  apply Forall_cons_iff in Hall as [H _]. congruence.
Qed.

Lemma obj_put_Forall {V : Type} (P : jsstring * V -> Prop)
    (o : list (jsstring * V)) (k : jsstring) (v : V) :
  Forall P o -> P (k, v) -> Forall P (obj_put o k v).
Proof.
  intros Ho Hp. induction Ho as [|[k' v'] o Hx Ho IH]; simpl.
  - now repeat constructor.
  - destruct (jseqb k k') eqn:E.
    + apply jseqb_eq in E. subst k'. now constructor.
    + now constructor.
Qed.

Lemma iniValueOf_ok (x : jsstring) :
  match iniValueOf (trim x) with
  | IniBool _ => True
  | IniString s =>
      trim s = s
      /\ jseqb (toLowerCase s) (str "true") = false
      /\ jseqb (toLowerCase s) (str "false") = false
  end.
Proof.
  unfold iniValueOf.
  destruct (jseqb (toLowerCase (trim x)) (str "true")) eqn:Et; [exact I|].
  destruct (jseqb (toLowerCase (trim x)) (str "false")) eqn:Ef; [exact I|].
  repeat split; auto. apply trim_idempotent.
Qed.

Lemma parseIniLine_ok (config : iniConfig) (line : jsstring) :
  Forall iniEntryOk config -> Forall iniEntryOk (parseIniLine config line).
Proof.
  intros Hc. unfold parseIniLine.
  destruct (jseqb (trim line) []) eqn:E0; [exact Hc|]. cbn [orb].
  destruct (startsWith (trim line) (str "#") || startsWith (trim line) (str "["));
    [exact Hc|].
  destruct (indexOf CHAR_EQUALS (trim line)) as [i|] eqn:Ei; [|exact Hc].
  destruct (Nat.ltb 0 i) eqn:Epos; [|exact Hc].
  unfold ini_assign.
  destruct (jseqb (trim (slice (trim line) 0 i)) (str "__proto__")) eqn:Ep;
    [exact Hc|].
  apply obj_put_Forall; [exact Hc|].
  unfold iniEntryOk. cbn [fst snd]. unfold slice. simpl skipn.
  repeat split.
  - apply jseqb_neq in E0.
    destruct (trim line) as [|c t] eqn:Et; [contradiction|].
    destruct i as [|i]; [discriminate Epos|]. simpl firstn.
    apply trim_nonempty.
    destruct (trim_spec line) as (l & r & _ & _ & _ & Hf & _).
    rewrite Et in Hf. now apply (Hf c t).
  - apply trim_idempotent.
  - intros Hin. apply trim_In in Hin. now apply (indexOf_firstn _ _ Ei).
  - now apply jseqb_neq.
  - apply iniValueOf_ok.
Qed.

(** X13.  Every key of a parsed configuration is not empty, has no white
    space around it, holds no [=] and is not [__proto__]; every string value
    is trimmed and is not a boolean word in any letter case. *)
Theorem parseIni_entries_well_formed (content k : jsstring) (v : iniValue) :
  In (k, v) (parseIni content) ->
  k <> [] /\ trim k = k /\ ~ In CHAR_EQUALS k /\ k <> str "__proto__"
  /\ match v with
     | IniBool _ => True
     | IniString s =>
         trim s = s
         /\ jseqb (toLowerCase s) (str "true") = false
         /\ jseqb (toLowerCase s) (str "false") = false
     end.
Proof.
  intros Hin.
  assert (Hall : Forall iniEntryOk (parseIni content)).
  { unfold parseIni. generalize (splitOn CHAR_LF content) as lines.
    assert (H0 : Forall iniEntryOk (@nil (jsstring * iniValue)))
      by constructor.
    revert H0. generalize (@nil (jsstring * iniValue)) as config.
    intros config H0 lines. revert config H0.
    induction lines as [|line lines IH]; intros config H0; [exact H0|].
    simpl. apply IH. now apply parseIniLine_ok. }
  rewrite Forall_forall in Hall. exact (Hall (k, v) Hin).
Qed.

Lemma parseIni_entries_well_formed_witness :
  str "api_key" <> [] /\ trim (str "api_key") = str "api_key"
  /\ ~ In CHAR_EQUALS (str "api_key") /\ str "api_key" <> str "__proto__"
  /\ (trim (str "a=b") = str "a=b"
      /\ jseqb (toLowerCase (str "a=b")) (str "true") = false
      /\ jseqb (toLowerCase (str "a=b")) (str "false") = false).
Proof.
  apply (@parseIni_entries_well_formed (str "  api_key =  a=b ")
           (str "api_key") (IniString (str "a=b"))).
  vm_compute. left. reflexivity.
Defined.

(** * The hook installer *)



Lemma isCommand_iff (command : jsstring) (entry : jsval) :
  isCommand command entry = true <-> entry = JString command.
Proof.
  destruct entry; simpl; try (split; [discriminate | intros H; discriminate H]).
  rewrite jseqb_eq. split; [now intros -> | intros H; now injection H].
Qed.

Lemma hasNotifyEntry_iff (entries : list jsval) (command : jsstring) :
  hasNotifyEntry entries command = true <-> In (JString command) entries.
Proof.
  unfold hasNotifyEntry. rewrite existsb_exists. split.
  - intros (x & Hx & E). apply isCommand_iff in E. now subst.
  - intros H. exists (JString command). split; [exact H|].
    now apply isCommand_iff.
Qed.

Lemma removeNotifyEntry_In (entries : list jsval) (command : jsstring)
    (x : jsval) :
  In x (removeNotifyEntry entries command)
  <-> In x entries /\ x <> JString command.
Proof.
  unfold removeNotifyEntry. rewrite filter_In, negb_true_iff.
  split; intros [H1 H2]; split; auto.
  - intros E. apply isCommand_iff in E. congruence.
  - destruct (isCommand command x) eqn:E; [|reflexivity].
    apply isCommand_iff in E. contradiction.
Qed.

Lemma removeNotifyEntry_absent (entries : list jsval) (command : jsstring) :
  hasNotifyEntry entries command = false ->
  removeNotifyEntry entries command = entries.
Proof.
  unfold hasNotifyEntry, removeNotifyEntry.
  induction entries as [|e entries IH]; simpl; [reflexivity|].
  intros H. apply orb_false_iff in H as [He H]. rewrite He. simpl.
  now rewrite IH.
Qed.

Lemma removeNotifyEntry_appended (entries : list jsval) (command : jsstring) :
  hasNotifyEntry entries command = false ->
  removeNotifyEntry (entries ++ [JString command]) command = entries.
Proof.
  intros H. unfold removeNotifyEntry. rewrite filter_app.
  fold (removeNotifyEntry entries command).
  rewrite (removeNotifyEntry_absent entries command H). simpl.
  rewrite jseqb_refl. simpl. apply app_nil_r.
Qed.

Lemma hasNotifyEntry_removed (entries : list jsval) (command : jsstring) :
  hasNotifyEntry (removeNotifyEntry entries command) command = false.
Proof.
  destruct (hasNotifyEntry (removeNotifyEntry entries command) command) eqn:E;
    [|reflexivity].
  apply hasNotifyEntry_iff, removeNotifyEntry_In in E as [_ E].
  now contradiction E.
Qed.

Lemma prop_put (config : tomlConfig) (k : jsstring) (v : jsval) :
  prop (obj_put config k v) k = v.
Proof. unfold prop. now rewrite obj_get_put. Qed.

Lemma prop_put_other (config : tomlConfig) (k k2 : jsstring) (v : jsval) :
  k2 <> k -> prop (obj_put config k v) k2 = prop config k2.
Proof. intros H. unfold prop. now rewrite obj_get_put_other. Qed.

(** X14.  Removing the command from the notify entries leaves no entry
    equal to it and keeps every other entry, in order; removing it from
    entries it was just appended to gives the entries back. *)
Theorem removeNotifyEntry_spec (entries : list jsval) (command : jsstring) :
  hasNotifyEntry (removeNotifyEntry entries command) command = false
  /\ (forall x, In x (removeNotifyEntry entries command)
                <-> In x entries /\ x <> JString command)
  /\ (hasNotifyEntry entries command = false ->
      removeNotifyEntry entries command = entries
      /\ removeNotifyEntry (entries ++ [JString command]) command = entries).
Proof.
  split; [apply hasNotifyEntry_removed|].
  split; [intros x; apply removeNotifyEntry_In|].
  intros H. split;
    [now apply removeNotifyEntry_absent | now apply removeNotifyEntry_appended].
Qed.

Lemma removeNotifyEntry_spec_witness :
  removeNotifyEntry [JString (str "hook-a"); JNumber 7] (str "codex-wakatime")
  = [JString (str "hook-a"); JNumber 7]
  /\ removeNotifyEntry
       ([JString (str "hook-a"); JNumber 7] ++ [JString (str "codex-wakatime")])
       (str "codex-wakatime")
     = [JString (str "hook-a"); JNumber 7].
Proof.
  apply (proj2 (proj2 (removeNotifyEntry_spec
                         [JString (str "hook-a"); JNumber 7]
                         (str "codex-wakatime")))).
  reflexivity.
Defined.

(** X15.  When [installHook] writes, the configuration it writes has the
    command as the last notify entry after the entries that were there, and
    every other key as before; installing again on it writes nothing. *)
Theorem install_is_idempotent (config config' : tomlConfig) :
  installHook_config config = Some config' ->
  prop config' NOTIFY
  = JArray (normalizeNotifyValue (prop config NOTIFY)
            ++ [JString (str "codex-wakatime")])
  /\ (forall k, k <> NOTIFY -> prop config' k = prop config k)
  /\ installHook_config config' = None.
Proof.
  unfold installHook_config. change (hd [] getPluginCommand) with (str "codex-wakatime").
  destruct (hasNotifyEntry (normalizeNotifyValue (prop config NOTIFY))
              (str "codex-wakatime")) eqn:E; [discriminate|].
  intros H.
  assert (Ec : config'
               = obj_put config NOTIFY
                   (JArray (normalizeNotifyValue (prop config NOTIFY)
                            ++ [JString (str "codex-wakatime")])))
    by congruence.
  subst config'. clear H. rewrite prop_put. repeat split.
  - intros k Hk. now apply prop_put_other.
  - cbn [normalizeNotifyValue].
    assert (Hhas : hasNotifyEntry
                     (normalizeNotifyValue (prop config NOTIFY)
                      ++ [JString (str "codex-wakatime")])
                     (str "codex-wakatime") = true).
    { apply hasNotifyEntry_iff, in_app_iff. right. now left. }
    now rewrite Hhas.
Qed.

Lemma install_is_idempotent_witness :
  prop (obj_put config_with_hooks NOTIFY
          (JArray [JString (str "hook-a"); JString (str "hook-b");
                   JString (str "codex-wakatime")])) NOTIFY
  = JArray (normalizeNotifyValue (prop config_with_hooks NOTIFY)
            ++ [JString (str "codex-wakatime")])
  /\ (forall k, k <> NOTIFY ->
        prop (obj_put config_with_hooks NOTIFY
                (JArray [JString (str "hook-a"); JString (str "hook-b");
                         JString (str "codex-wakatime")])) k
        = prop config_with_hooks k)
  /\ installHook_config
       (obj_put config_with_hooks NOTIFY
          (JArray [JString (str "hook-a"); JString (str "hook-b");
                   JString (str "codex-wakatime")])) = None.
Proof.
  apply (install_is_idempotent config_with_hooks). reflexivity.
Defined.

Lemma obj_put_keys_In {V : Type} (o : list (jsstring * V)) (k x : jsstring)
    (v : V) :
  In x (map fst (obj_put o k v)) -> x = k \/ In x (map fst o).
Proof.
  induction o as [|[k' v'] o IH]; simpl.
  - intros [<-|[]]. now left.
  - destruct (jseqb k k'); simpl.
    + intros [<-|H]; right; [now left | now right].
    + intros [<-|H]; [right; now left|].
      apply IH in H as [->|H]; [now left | right; now right].
Qed.

Lemma obj_put_NoDup {V : Type} (o : list (jsstring * V)) (k : jsstring)
    (v : V) :
  NoDup (map fst o) -> NoDup (map fst (obj_put o k v)).
Proof.
  induction o as [|[k' v'] o IH]; intros Hnd; simpl.
  - repeat constructor. intros [].
  - apply NoDup_cons_iff in Hnd as [Hk Hnd]. simpl in Hk.
    destruct (jseqb k k') eqn:Ek; simpl.
    + now constructor.
    + constructor; [|now apply IH].
      intros Hin. apply obj_put_keys_In in Hin as [->|Hin];
        [now rewrite jseqb_refl in Ek | contradiction].
Qed.



(** The cases of the tests of the installer: the command is removed and the
    other entry kept; the key goes with the last entry; nothing is written
    when the command is not there. *)
Example uninstall_cases :
  uninstallHook_config config_installed
  = Some [(str "model", JString (str "o3"));
          (NOTIFY, JArray [JString (str "hook-a")])]
  /\ uninstallHook_config [(NOTIFY, JArray [JString (str "codex-wakatime")])]
     = Some []
  /\ uninstallHook_config [(NOTIFY, JString (str "codex-wakatime"))]
     = Some []
  /\ uninstallHook_config config_with_hooks = None.
Proof. repeat split. Qed.

(** ** Values written and read back *)

Lemma sliceInner_wrap (a b : cu) (m : jsstring) :
  sliceInner (a :: m ++ [b]) = m.
Proof.
  unfold sliceInner, slice. cbn [length]. rewrite length_app. cbn [length].
  replace (S (length m + 1) - 1) with (S (length m)) by lia.
  cbn [firstn skipn]. rewrite firstn_app, Nat.sub_diag, firstn_all.
  simpl. apply app_nil_r.
Qed.

Lemma endsWith_wrap (a b : cu) (m : jsstring) :
  endsWith (a :: m ++ [b]) [b] = true.
Proof.
  unfold endsWith. apply startsWith_iff. exists (rev (a :: m)).
  now rewrite app_comm_cons, rev_app_distr.
Qed.

Lemma isQuoted_quote (s : jsstring) : isQuoted (QUOTE2 :: s ++ [QUOTE2]) = true.
Proof.
  unfold isQuoted. rewrite endsWith_wrap.
  assert (E : startsWith (QUOTE2 :: s ++ [QUOTE2]) [QUOTE2] = true)
    by (apply startsWith_iff; now exists (s ++ [QUOTE2])).
  now rewrite E.
Qed.

Lemma trim_quote (l s : jsstring) :
  Forall (fun c => isSpace c = true) l ->
  trim (l ++ QUOTE2 :: s ++ [QUOTE2]) = QUOTE2 :: s ++ [QUOTE2].
Proof.
  intros Hl. rewrite <- (app_nil_r (QUOTE2 :: s ++ [QUOTE2])) at 1.
  apply (@trim_unique l (QUOTE2 :: s ++ [QUOTE2]) []); auto.
  - intros c t E. now injection E as <- _.
  - intros c t E. rewrite app_comm_cons in E.
    now apply app_inj_tail in E as [_ <-].
Qed.

Lemma splitOn_joined (q : jsstring) (qs : list jsstring) :
  Forall (fun x => ~ In CHAR_COMMA x) (q :: qs) ->
  splitOn CHAR_COMMA (joinWith (str ", ") (q :: qs))
  = q :: map (cons CHAR_SPACE) qs.
Proof.
  revert q. induction qs as [|q2 qs IH]; intros q H.
  - apply Forall_cons_iff in H as [Hq _]. simpl. now apply splitOn_single.
  - apply Forall_cons_iff in H as [Hq H].
    change (joinWith (str ", ") (q :: q2 :: qs))
      with (q ++ CHAR_COMMA :: CHAR_SPACE :: joinWith (str ", ") (q2 :: qs)).
    rewrite splitOn_app, (splitOn_single CHAR_COMMA q Hq).
    change (splitOn CHAR_COMMA (CHAR_SPACE :: joinWith (str ", ") (q2 :: qs)))
      with (match splitOn CHAR_COMMA (joinWith (str ", ") (q2 :: qs)) with
            | seg :: rest => (CHAR_SPACE :: seg) :: rest
            | [] => [[CHAR_SPACE]]
            end).
    now rewrite (IH q2 H).
Qed.

Section TomlRoundTrip.
Variable Number_ : jsstring -> option N.
Variable String_ : jsval -> jsstring.

Lemma parseTomlItem_quote (l s : jsstring) :
  Forall (fun c => isSpace c = true) l ->
  parseTomlItem (l ++ QUOTE2 :: s ++ [QUOTE2]) = JString s.
Proof.
  intros Hl. unfold parseTomlItem. rewrite (trim_quote s Hl).
  now rewrite isQuoted_quote, sliceInner_wrap.
Qed.

(** X17.  What [formatTomlValue] writes for a string, a boolean or an
    array of strings is read back as the same value by the value reader of
    [parseToml], provided no string of the array holds a comma. *)
Theorem toml_value_round_trip :
  (forall s, parseTomlValue Number_ (formatTomlValue String_ (JString s))
             = JString s)
  /\ (forall b, parseTomlValue Number_ (formatTomlValue String_ (JBool b))
                = JBool b)
  /\ (forall items,
        Forall (fun s => ~ In CHAR_COMMA s) items ->
        parseTomlValue Number_
          (formatTomlValue String_ (JArray (map JString items)))
        = JArray (map JString items)).
Proof.
  split; [|split].
  - intros s. unfold parseTomlValue, formatTomlValue.
    rewrite isQuoted_quote, sliceInner_wrap. reflexivity.
  - intros [|]; reflexivity.
  - intros items Hitems.
    set (qs := map (fun s => QUOTE2 :: s ++ [QUOTE2]) items).
    assert (Ef : formatTomlValue String_ (JArray (map JString items))
                 = 91%N :: joinWith (str ", ") qs ++ [93%N]).
    { unfold formatTomlValue. now rewrite map_map. }
    rewrite Ef. unfold parseTomlValue.
    assert (Es : startsWith (91%N :: joinWith (str ", ") qs ++ [93%N]) (str "[")
                 = true)
      by (apply startsWith_iff; now exists (joinWith (str ", ") qs ++ [93%N])).
    assert (Ee : endsWith (91%N :: joinWith (str ", ") qs ++ [93%N]) (str "]")
                 = true) by apply endsWith_wrap.
    rewrite Es, Ee, sliceInner_wrap. cbn [andb].
    destruct items as [|it items]; [reflexivity|].
    assert (Hq : Forall (fun x => ~ In CHAR_COMMA x) qs).
    { unfold qs. apply Forall_forall. intros x Hx.
      apply in_map_iff in Hx as (y & <- & Hy).
      rewrite Forall_forall in Hitems. specialize (Hitems y Hy).
      simpl. rewrite in_app_iff. simpl.
      intros [H|[H|[H|[]]]]; try discriminate H. contradiction. }
    assert (Htrim : trim (joinWith (str ", ") qs) = joinWith (str ", ") qs).
    { rewrite <- (app_nil_r (joinWith (str ", ") qs)) at 1.
      apply (@trim_unique [] (joinWith (str ", ") qs) []); auto.
      - intros c t E. unfold qs in E. simpl in E.
        destruct (map (fun s0 => QUOTE2 :: s0 ++ [QUOTE2]) items);
          injection E as <- _; reflexivity.
      - intros c t E. unfold qs in E. clear Hq Hitems Ef Es Ee qs.
        revert it t E. induction items as [|it2 items IH]; intros it t E.
        + simpl in E. rewrite app_comm_cons in E.
          now apply app_inj_tail in E as [_ <-].
        + change (joinWith (str ", ")
                    (map (fun s0 => QUOTE2 :: s0 ++ [QUOTE2]) (it :: it2 :: items)))
            with ((QUOTE2 :: it ++ [QUOTE2]) ++ str ", "
                  ++ joinWith (str ", ")
                       (map (fun s0 => QUOTE2 :: s0 ++ [QUOTE2]) (it2 :: items)))
            in E.
          destruct (exists_last
                      (l := joinWith (str ", ")
                              (map (fun s0 => QUOTE2 :: s0 ++ [QUOTE2])
                                 (it2 :: items)))) as (t' & z & Ez).
          { simpl. destruct (map _ items); discriminate. }
          rewrite Ez, !app_assoc in E. apply app_inj_tail in E as [_ <-].
          now apply (IH it2 t'). }
    rewrite Htrim.
    assert (Hne : jseqb (joinWith (str ", ") qs) [] = false).
    { apply jseqb_neq. unfold qs. simpl.
      destruct (map (fun s0 => QUOTE2 :: s0 ++ [QUOTE2]) items); discriminate. }
    rewrite Hne. cbn [negb]. f_equal.
    unfold qs in *. cbn [map] in *.
    rewrite splitOn_joined by exact Hq.
    cbn [map].
    pose proof (@parseTomlItem_quote [] it (Forall_nil _)) as Hit.
    cbn [app] in Hit. rewrite Hit. f_equal. rewrite !map_map. apply map_ext. intros x.
    apply (@parseTomlItem_quote [CHAR_SPACE] x).
    now repeat constructor.
Qed.
End TomlRoundTrip.

Lemma toml_value_round_trip_witness :
  parseTomlValue (fun _ => None)
    (formatTomlValue (fun _ => [])
       (JArray (map JString [str "hook-a"; str "hook b"; str "codex-wakatime"])))
  = JArray (map JString [str "hook-a"; str "hook b"; str "codex-wakatime"]).
Proof.
  apply (proj2 (proj2 (toml_value_round_trip (fun _ => None) (fun _ => [])))).
  repeat constructor; simpl; intuition discriminate.
Defined.

Example toml_comma_breaks_round_trip :
  parseTomlValue (fun _ => None)
    (formatTomlValue (fun _ => []) (JArray [JString (str "sh -c a,b")]))
  = JArray [JString (QUOTE2 :: str "sh -c a"); JString (str "b" ++ [QUOTE2])].
Proof. vm_compute. reflexivity. Qed.

(** * A write verb and its path are detected *)

Section GreedyComplete.
Variable R : Type.
Variable ic : bool.

(** No split of the input lets the continuation succeed. *)
Lemma rep_greedy_none (a : atom) (s : jsstring) :
  forall lo hi (k : jsstring -> option R),
    (forall u s', s = u ++ s' ->
                  Forall (fun c => atom_matches ic a c = true) u ->
                  lo <= length u -> k s' = None) ->
    rep_greedy ic a lo hi s k = None.
Proof.
  induction s as [|c s IH]; intros lo hi k H; simpl.
  - destruct lo; [|reflexivity].
    apply (H [] []); [reflexivity|constructor|simpl; lia].
  - assert (Hstop : match lo with 0 => k (c :: s) | S _ => None end = None).
    { destruct lo; [|reflexivity].
      apply (H [] (c :: s)); [reflexivity|constructor|simpl; lia]. }
    destruct (hi_allows hi && atom_matches ic a c) eqn:E; [|exact Hstop].
    apply andb_true_iff in E as [_ Hc].
    rewrite IH; [exact Hstop|].
    intros u s' -> Hu Hlo.
    apply (H (c :: u) s'); [reflexivity|now constructor|simpl; lia].
Qed.

(** Greedy repetition without an upper bound: the longest split that lets
    the continuation succeed is taken. *)
Lemma rep_greedy_longest (a : atom) (w : jsstring) :
  forall lo s' (k : jsstring -> option R) x,
    Forall (fun c => atom_matches ic a c = true) w ->
    lo <= length w ->
    k s' = Some x ->
    (forall u s'', u <> [] -> s' = u ++ s'' ->
                   Forall (fun c => atom_matches ic a c = true) u ->
                   k s'' = None) ->
    rep_greedy ic a lo None (w ++ s') k = Some x.
Proof.
  induction w as [|c w IH]; intros lo s' k x Hw Hlo Hk Hfail.
  - simpl in Hlo. assert (lo = 0) by lia. subst lo. simpl.
    destruct s' as [|c s']; simpl; [exact Hk|].
    destruct (atom_matches ic a c) eqn:Hc; [|exact Hk].
    rewrite rep_greedy_none; [exact Hk|].
    intros u s'' -> Hu _. apply (Hfail (c :: u) s''); auto. discriminate.
  - apply Forall_cons_iff in Hw as [Hc Hw]. simpl. rewrite Hc. simpl.
    rewrite (IH (pred lo) s' k x); auto. simpl in Hlo. lia.
Qed.

(** Greedy repetition takes all of a run that the next character ends. *)
Lemma rep_greedy_run (a : atom) (w : jsstring) :
  forall lo hi s' (k : jsstring -> option R) x,
    Forall (fun c => atom_matches ic a c = true) w ->
    lo <= length w <= hi ->
    (forall c t, s' = c :: t -> atom_matches ic a c = false) ->
    k s' = Some x ->
    rep_greedy ic a lo (Some hi) (w ++ s') k = Some x.
Proof.
  induction w as [|c w IH]; intros lo hi s' k x Hw Hlen Hnext Hk.
  - simpl in Hlen. assert (lo = 0) by lia. subst lo. simpl.
    destruct s' as [|c s']; simpl; [exact Hk|].
    rewrite (Hnext c s' eq_refl), andb_false_r. exact Hk.
  - apply Forall_cons_iff in Hw as [Hc Hw]. simpl in Hlen.
    destruct hi as [|hi]; [lia|]. simpl. rewrite Hc. simpl.
    rewrite (IH (pred lo) hi s' k x); auto. lia.
Qed.
End GreedyComplete.

Lemma backtick_mismatch (c : cu) :
  c <> CHAR_BACKTICK -> lit_matches true c CHAR_BACKTICK = false.
Proof.
  intros H. unfold lit_matches, canonicalize, cu_eqb, in_range, CHAR_BACKTICK in *.
  simpl.
  destruct ((97 <=? c)%N && (c <=? 122)%N) eqn:E.
  - apply andb_true_iff in E as [E1%N.leb_le E2%N.leb_le].
    apply N.eqb_neq. lia.
  - now apply N.eqb_neq.
Qed.

Lemma space_not_backtick (c : cu) : isSpace c = true -> c <> CHAR_BACKTICK.
Proof. intros H ->. discriminate H. Qed.

Lemma space_not_dot (c : cu) : isSpace c = true -> c <> CHAR_DOT.
Proof. intros H ->. discriminate H. Qed.

Lemma space_not_word (c : cu) : isSpace c = true -> isWord c = false.
Proof.
  intros H. destruct (isWord c) eqn:E; [|reflexivity].
  apply isWord_not_space in E. congruence.
Qed.

Lemma path_class_matches (c : cu) :
  isSpace c = false -> c <> CHAR_BACKTICK ->
  atom_matches true (ANoneOf true [CHAR_BACKTICK; CHAR_LF]) c = true.
Proof.
  intros Hs Hb. cbn [atom_matches existsb]. rewrite Hs.
  rewrite (backtick_mismatch Hb). cbn [andb orb].
  assert (E : lit_matches true c CHAR_LF = false).
  { unfold lit_matches, canonicalize, cu_eqb, in_range, CHAR_LF. simpl.
    destruct ((97 <=? c)%N && (c <=? 122)%N) eqn:E.
    - apply andb_true_iff in E as [E1%N.leb_le E2%N.leb_le].
      apply N.eqb_neq. lia.
    - apply N.eqb_neq. intros ->. discriminate Hs. }
  now rewrite E.
Qed.

Lemma word_not_backtick (c : cu) : isWord c = true -> c <> CHAR_BACKTICK.
Proof. intros H ->. discriminate H. Qed.

Lemma word_not_dot (c : cu) : isWord c = true -> c <> CHAR_DOT.
Proof. intros H ->. discriminate H. Qed.

Lemma dot_mismatch (ic : bool) (c : cu) :
  c <> CHAR_DOT -> lit_matches ic c CHAR_DOT = false.
Proof.
  intros H. destruct (lit_matches ic c CHAR_DOT) eqn:E; [|reflexivity].
  apply lit_matches_dot in E. contradiction.
Qed.

(** After the dot of a bare path, no run of path characters ends before
    another dot. *)
Lemma ext_suffix_no_dot (ext rest u s2 : jsstring) :
  Forall (fun c => isWord c = true) ext ->
  endsPath rest ->
  ext ++ rest = u ++ s2 ->
  Forall (fun c => atom_matches true (ANoneOf true [CHAR_BACKTICK; CHAR_LF]) c = true) u ->
  s2 = [] \/ exists c t, s2 = c :: t /\ c <> CHAR_DOT.
Proof.
  revert u. induction ext as [|e ext IH]; intros u Hext Hrest E Hu.
  - simpl in E. destruct Hrest as [-> | (ws & r & -> & Hws)].
    + destruct u; [|discriminate]. simpl in E. now left.
    + destruct u as [|c u].
      * simpl in E. subst s2. right. exists ws, r. split; [reflexivity|].
        now apply space_not_dot.
      * simpl in E. injection E as <- _. apply Forall_cons_iff in Hu as [Hc _].
        cbn [atom_matches] in Hc. rewrite Hws in Hc. discriminate.
  - apply Forall_cons_iff in Hext as [He Hext].
    destruct u as [|c u].
    + simpl in E. subst s2. right. exists e, (ext ++ rest).
      split; [reflexivity|]. now apply word_not_dot.
    + simpl in E. injection E as <- E. apply Forall_cons_iff in Hu as [_ Hu].
      now apply (IH u).
Qed.

Lemma firstn_prefix (p rest : jsstring) :
  firstn (length (p ++ rest) - length rest) (p ++ rest) = p.
Proof.
  rewrite length_app, Nat.add_sub, firstn_app, Nat.sub_diag, firstn_all.
  simpl. apply app_nil_r.
Qed.

(** The tail of the action patterns takes the white space and the whole bare
    path, and captures the path. *)
Lemma action_tail_match (R : Type) (k : jsstring -> option jsstring -> option R)
    (p rest : jsstring) (cap : option jsstring) (x : R) :
  barePath p -> endsPath rest ->
  k rest (Some p) = Some x ->
  rmatch true (seq action_tail) (CHAR_SPACE :: p ++ rest) cap k = Some x.
Proof.
  intros (stem & ext & Hp & Hne & Hstem & Hlen & Hext) Hrest Hk.
  destruct stem as [|c0 stem]; [contradiction|].
  pose proof Hstem as Hstem0. apply Forall_cons_iff in Hstem0 as [[Hc0s Hc0b] _].
  cbn [seq action_tail rmatch plus opt dot_ext].
  change (CHAR_SPACE :: p ++ rest) with ([CHAR_SPACE] ++ (p ++ rest)).
  apply rep_greedy_longest.
  - repeat constructor.
  - simpl. lia.
  - apply (@rep_greedy_run _ true (ALit CHAR_BACKTICK) [] 0 1 (p ++ rest)).
    + constructor.
    + simpl. lia.
    + intros c t E. subst p. simpl in E. injection E as <- _.
      now apply backtick_mismatch.
    + rewrite Hp at 1. rewrite <- app_assoc.
      apply rep_greedy_longest.
      * eapply Forall_impl; [|exact Hstem]. intros c [? ?].
        now apply path_class_matches.
      * simpl. lia.
      * cbn [app atom_matches]. 
        replace (lit_matches true CHAR_DOT CHAR_DOT) with true by reflexivity.
        apply rep_greedy_run.
        -- exact Hext.
        -- exact Hlen.
        -- intros c t ->. destruct Hrest as [E | (ws & r & E & Hws)];
             [discriminate|]. injection E as <- _. now apply space_not_word.
        -- apply (@rep_greedy_run _ true (ALit CHAR_BACKTICK) [] 0 1 rest).
           ++ constructor.
           ++ simpl. lia.
           ++ intros c t ->. destruct Hrest as [E | (ws & r & E & Hws)];
                [discriminate|]. injection E as <- _.
              apply backtick_mismatch. now apply space_not_backtick.
           ++ rewrite firstn_prefix. exact Hk.
      * intros u s2 Hu E Hcls.
        destruct u as [|d u]; [contradiction|]. simpl in E.
        injection E as <- E. apply Forall_cons_iff in Hcls as [_ Hcls].
        destruct (ext_suffix_no_dot _ Hext Hrest E Hcls)
          as [-> | (c & t & -> & Hc)]; [reflexivity|].
        cbn [atom_matches]. now rewrite (dot_mismatch true Hc).
  - intros u s2 Hu E Hsp. subst p.
    destruct u as [|d u]; [contradiction|]. simpl in E.
    injection E as <- _. apply Forall_cons_iff in Hsp as [Hsp _].
    cbn [atom_matches] in Hsp. congruence.
Qed.

Section VerbAlternation.
Variable R : Type.
Variable K : jsstring -> option jsstring -> option R.
Variable tl : jsstring.
Variable x : R.
Hypothesis HK : K (CHAR_SPACE :: tl) None = Some x.
Hypothesis HKfail : forall c s, isSpace c = false -> K (c :: s) None = None.

Ltac pick_verb :=
  cbn; repeat (first [rewrite HK | rewrite HKfail by reflexivity]; cbn);
  reflexivity.

(** The alternation of the write verbs passes a verb that white space
    follows: a shorter verb that is a prefix of it fails on the next
    character. *)
Lemma write_verbs_match (verb : jsstring) :
  In verb WRITE_VERBS ->
  rmatch true (alt WRITE_VERBS) (verb ++ CHAR_SPACE :: tl) None K = Some x.
Proof.
  intros H. unfold WRITE_VERBS in H. simpl in H.
  repeat (destruct H as [<- | H]; [pick_verb|]). contradiction.
Qed.

Lemma read_verbs_match (verb : jsstring) :
  In verb READ_VERBS ->
  rmatch true (alt READ_VERBS) (verb ++ CHAR_SPACE :: tl) None K = Some x.
Proof.
  intros H. unfold READ_VERBS in H. simpl in H.
  repeat (destruct H as [<- | H]; [pick_verb|]). contradiction.
Qed.

Lemma action_verbs_match (verb : jsstring) :
  In verb (READ_VERBS ++ WRITE_VERBS) ->
  rmatch true (alt (READ_VERBS ++ WRITE_VERBS)) (verb ++ CHAR_SPACE :: tl) None K
  = Some x.
Proof.
  intros H. unfold READ_VERBS, WRITE_VERBS in H. simpl in H.
  repeat (destruct H as [<- | H]; [pick_verb|]). contradiction.
Qed.
End VerbAlternation.

Lemma action_tail_needs_space (R : Type)
    (k : jsstring -> option jsstring -> option R) (c : cu) (s : jsstring) :
  isSpace c = false -> rmatch true (seq action_tail) (c :: s) None k = None.
Proof.
  intros Hc. cbn [seq action_tail rmatch plus rep_greedy atom_matches].
  now rewrite Hc, andb_false_r.
Qed.

(** A verb of the alternation, white space and a bare path: the action
    pattern matches at the start of the text and captures the path. *)
Lemma action_pattern_exec (vs : list jsstring) (verb p rest : jsstring) :
  (forall (K : jsstring -> option jsstring -> option (nat * option jsstring))
          tl x,
      K (CHAR_SPACE :: tl) None = Some x ->
      (forall c s, isSpace c = false -> K (c :: s) None = None) ->
      rmatch true (alt vs) (verb ++ CHAR_SPACE :: tl) None K = Some x) ->
  barePath p -> endsPath rest ->
  exists n,
    exec_at (mkPattern (seq (alt vs :: action_tail)) true)
      (verb ++ CHAR_SPACE :: p ++ rest) = Some (n, Some p).
Proof.
  intros Halt Hp Hrest. eexists. unfold exec_at. cbn [p_re p_ic].
  change (seq (alt vs :: action_tail)) with (RSeq (alt vs) (seq action_tail)).
  cbn [rmatch]. apply Halt.
  - apply action_tail_match; [exact Hp|exact Hrest|reflexivity].
  - intros c s Hc. now apply action_tail_needs_space.
Qed.

Lemma matchAll_head (pat : pattern) (s : jsstring) (n : nat)
    (cap : option jsstring) :
  s <> [] -> exec_at pat s = Some (n, cap) -> In cap (matchAll pat s).
Proof.
  intros Hs E. destruct s as [|c s]; [contradiction|].
  unfold matchAll. cbn [scan]. rewrite E. now left.
Qed.

Lemma barePath_nonempty (p : jsstring) : barePath p -> p <> [].
Proof.
  intros (stem & ext & -> & Hne & _). destruct stem; [contradiction|discriminate].
Qed.

Lemma hitsOf_one (pat : pattern) (ps : list pattern) (msg cwd p : jsstring) :
  In pat ps -> In p (hitsOf [pat] msg cwd) -> In p (hitsOf ps msg cwd).
Proof.
  intros Hpat H. apply hitsOf_In in H as (pat' & m & fp & [<-|[]] & Hm & E & ->).
  apply hitsOf_In. now exists pat, m, fp.
Qed.

Lemma accepted_valid (p : jsstring) :
  p <> [] -> isValidFilePath p = true -> accepted (Some p) = Some p.
Proof.
  intros Hp Hv. unfold accepted. rewrite Hv.
  destruct p; [contradiction|reflexivity].
Qed.

(** ** Matches that start before the verb *)

Lemma scan_reaches (pat : pattern) (tail : jsstring) (cap : option jsstring) :
  forall pre skip,
    skip <= length pre ->
    (forall pre1 pre2 len c,
        pre = pre1 ++ pre2 -> pre2 <> [] ->
        exec_at pat (pre2 ++ tail) = Some (len, c) -> len <= length pre2) ->
    In cap (scan pat tail 0) -> In cap (scan pat (pre ++ tail) skip).
Proof.
  induction pre as [|ch pre IH]; intros skip Hskip H Hin.
  - simpl in Hskip. assert (skip = 0) by lia. subst. exact Hin.
  - assert (Hrec : forall n, n <= length pre ->
                             In cap (scan pat (pre ++ tail) n)).
    { intros n Hn. apply IH; [exact Hn| |exact Hin].
      intros pre1 pre2 len c -> Hne E. now apply (H (ch :: pre1) pre2 len c). }
    cbn [app scan]. destruct skip as [|n].
    + destruct (exec_at pat (ch :: pre ++ tail)) as [[len c]|] eqn:E.
      * right. apply Hrec.
        assert (Hlen : len <= length (ch :: pre)).
        { apply (H [] (ch :: pre) len c); [reflexivity|discriminate|exact E]. }
        simpl in Hlen. lia.
      * apply Hrec. lia.
    + apply Hrec. simpl in Hskip. lia.
Qed.

Lemma alpha_match_not_space (c l : cu) :
  isAlpha l = true -> lit_matches true c l = true -> isSpace c = false.
Proof.
  intros Hl Hc. apply isWord_not_space. apply lit_matches_canon in Hc.
  unfold isAlpha, isWord, canonicalize, in_range in *.
  apply orb_true_iff in Hl.
  rewrite !orb_true_iff, !andb_true_iff, !N.leb_le.
  destruct ((97 <=? c)%N && (c <=? 122)%N) eqn:Ec.
  - apply andb_true_iff in Ec as [E1%N.leb_le E2%N.leb_le]. left. left. right. lia.
  - apply andb_false_iff in Ec.
    destruct ((97 <=? l)%N && (l <=? 122)%N) eqn:El.
    + apply andb_true_iff in El as [E1%N.leb_le E2%N.leb_le].
      left. left. left. lia.
    + destruct Hl as [Hl|Hl]; [|congruence].
      apply andb_true_iff in Hl as [E1%N.leb_le E2%N.leb_le].
      left. left. left. lia.
Qed.

Lemma alpha_not_space (c : cu) : isAlpha c = true -> isSpace c = false.
Proof.
  intros H. apply isWord_not_space. unfold isAlpha, isWord in *.
  now rewrite H.
Qed.

Lemma backtick_match_not_space (c : cu) :
  lit_matches true c CHAR_BACKTICK = true -> isSpace c = false.
Proof.
  intros H. destruct (N.eq_dec c CHAR_BACKTICK) as [->|Hn]; [reflexivity|].
  now rewrite (backtick_mismatch Hn) in H.
Qed.

(** A match of an action pattern: a run without white space, white space,
    and a run without white space that holds a dot. *)
Lemma action_match_shape (vs : list jsstring) (w : jsstring) :
  Forall (Forall (fun c => isAlpha c = true)) vs ->
  lang true (seq (alt vs :: action_tail)) w ->
  exists a sp b,
    w = a ++ sp ++ b
    /\ spaceFree a
    /\ Forall (fun c => isSpace c = true) sp /\ sp <> []
    /\ spaceFree b /\ In CHAR_DOT b.
Proof.
  intros Hvs L.
  change (seq (alt vs :: action_tail))
    with (RSeq (alt vs)
            (RSeq (plus ASpace)
               (RSeq (opt (ALit CHAR_BACKTICK))
                  (RSeq (RGroup (seq (plus (ANoneOf true [CHAR_BACKTICK; CHAR_LF])
                                        :: dot_ext)))
                     (opt (ALit CHAR_BACKTICK)))))) in L.
  remember (alt vs) as V eqn:EV in L.
  remember (seq (plus (ANoneOf true [CHAR_BACKTICK; CHAR_LF]) :: dot_ext))
    as B eqn:EB in L.
  unfold plus, opt in L.
  inversion L as [| |r1 r2 w1 w2 L1 L2| | | |]; subst r1 r2 w; clear L.
  inversion L2 as [| |r1 r2 wsp w3 Lsp L3| | | |]; subst r1 r2 w2; clear L2.
  inversion L3 as [| |r1 r2 wb1 w4 Lb1 L4| | | |]; subst r1 r2 w3; clear L3.
  inversion L4 as [| |r1 r2 wp wb2 Lp Lb2| | | |]; subst r1 r2 w4; clear L4.
  inversion Lsp as [| | | | |lo hi a w' Hlo _ Hsp|]; subst lo hi a w'; clear Lsp.
  inversion Lb1 as [| | | | |lo hi a w' _ _ Hb1|]; subst lo hi a w'; clear Lb1.
  inversion Lb2 as [| | | | |lo hi a w' _ _ Hb2|]; subst lo hi a w'; clear Lb2.
  inversion Lp as [| | | | | |r w' Lbody]; subst r w'; clear Lp.
  rewrite EV in L1. rewrite EB in Lbody.
  apply lang_alt in L1 as (v & Hv & L1). apply lang_lit in L1.
  apply dot_ext_shape_class in Lbody
    as (stem & ext & Hwp & _ & _ & _ & Hfree).
  exists w1, wsp, (wb1 ++ wp ++ wb2). repeat split.
  - rewrite Forall_forall in Hvs. specialize (Hvs v Hv).
    clear Hv. revert Hvs. induction L1 as [|c l w1 v Hc _ IH]; intros Hvs.
    + constructor.
    + apply Forall_cons_iff in Hvs as [Hl Hvs]. constructor.
      * now apply (alpha_match_not_space c l).
      * now apply IH.
  - exact Hsp.
  - intros ->. simpl in Hlo. lia.
  - unfold spaceFree. rewrite !Forall_app. repeat split.
    + eapply Forall_impl; [|exact Hb1]. intros c Hc.
      now apply backtick_match_not_space.
    + exact Hfree.
    + eapply Forall_impl; [|exact Hb2]. intros c Hc.
      now apply backtick_match_not_space.
  - rewrite !in_app_iff. right. left. rewrite Hwp.
    apply in_or_app. right. now left.
Qed.

(** A run without white space in front of a text is within the first word of
    the text. *)
Lemma spaceFree_prefix (b s' v t : jsstring) :
  spaceFree b -> b ++ s' = v ++ CHAR_SPACE :: t -> incl b v.
Proof.
  intros Hb E. apply app_eq_app in E as [m [[E1 E2]|[E1 E2]]].
  - destruct m as [|m0 m].
    + rewrite app_nil_r in E1. subst b. apply incl_refl.
    + simpl in E2. injection E2 as <- _. subst b.
      unfold spaceFree in Hb. rewrite Forall_app in Hb. destruct Hb as [_ Hb].
      apply Forall_cons_iff in Hb as [Hb _]. discriminate Hb.
  - subst v. now apply incl_appl, incl_refl.
Qed.

(** No match of an action pattern runs from white space before a word
    without a dot into that word. *)
Lemma action_match_no_overlap (a sp b P l s' v t : jsstring) (ws : cu) :
  spaceFree a -> Forall (fun c => isSpace c = true) sp -> sp <> [] ->
  spaceFree b -> In CHAR_DOT b ->
  isSpace ws = true ->
  a ++ sp ++ b = (P ++ [ws]) ++ l ->
  l ++ s' = v ++ CHAR_SPACE :: t ->
  spaceFree v -> ~ In CHAR_DOT v -> v <> [] ->
  False.
Proof.
  intros Ha Hsp Hspne Hb Hdot Hws E El Hv Hvdot Hvne.
  assert (Hbl : b = l -> False).
  { intros <-. apply Hvdot.
    now apply (@spaceFree_prefix b s' v t Hb El). }
  rewrite app_assoc in E. apply app_eq_app in E as [m [[E1 E2]|[E1 E2]]].
  - destruct m as [|m0 m].
    + apply Hbl. now rewrite E2.
    + assert (Hm0 : isSpace m0 = false).
      { subst l. destruct v as [|v0 v]; [contradiction|].
        simpl in El. injection El as -> _.
        now apply Forall_cons_iff in Hv as [Hv _]. }
      apply app_eq_app in E1 as [x [[E3 E4]|[E3 E4]]].
      * subst a. unfold spaceFree in Ha. rewrite !Forall_app in Ha.
        destruct Ha as [[_ Ha] _]. apply Forall_cons_iff in Ha as [Ha _].
        congruence.
      * subst sp. rewrite Forall_app in Hsp. destruct Hsp as [_ Hsp].
        apply Forall_cons_iff in Hsp as [Hsp _]. congruence.
  - destruct (exists_last (l := m)) as (m' & z & ->).
    + intros ->. rewrite app_nil_r in E1. simpl in E2. now apply Hbl.
    + rewrite app_assoc in E1. apply app_inj_tail in E1 as [_ <-].
      subst b. unfold spaceFree in Hb. rewrite !Forall_app in Hb.
      destruct Hb as [[_ Hb] _]. apply Forall_cons_iff in Hb as [Hb _].
      congruence.
Qed.

Lemma action_match_bound (vs : list jsstring) (pre1 pre2 v t : jsstring)
    (len : nat) (c : option jsstring) :
  Forall (Forall (fun ch => isAlpha ch = true)) vs ->
  wordStart (pre1 ++ pre2) -> pre2 <> [] ->
  spaceFree v -> ~ In CHAR_DOT v -> v <> [] ->
  exec_at (mkPattern (seq (alt vs :: action_tail)) true)
    (pre2 ++ v ++ CHAR_SPACE :: t) = Some (len, c) ->
  len <= length pre2.
Proof.
  intros Hvs Hpre Hne Hv Hvdot Hvne E.
  assert (Hlast : exists P ws, pre2 = P ++ [ws] /\ isSpace ws = true).
  { destruct Hpre as [Hnil | (pre' & ws & Hpre & Hws)].
    - apply app_eq_nil in Hnil as [_ ->]. contradiction.
    - destruct (exists_last Hne) as (P & z & ->).
      rewrite app_assoc in Hpre. apply app_inj_tail in Hpre as [_ ->].
      now exists P, ws. }
  destruct Hlast as (P & ws & -> & Hws).
  unfold exec_at in E. cbn [p_re p_ic] in E.
  apply rmatch_sound in E as (w & s' & cap' & Es & L & Ek).
  injection Ek as <- _. rewrite Es, length_app, Nat.add_sub.
  apply action_match_shape in L as (a & sp & b & -> & Ha & Hsp & Hspne & Hb & Hdot);
    [|exact Hvs].
  symmetry in Es. apply app_eq_app in Es as [l [[E1 E2]|[E1 E2]]].
  - exfalso.
    apply (@action_match_no_overlap a sp b P l s' v t ws); auto.
  - rewrite E1, !length_app. lia.
Qed.

Lemma verbs_are_alphabetic :
  Forall (Forall (fun c => isAlpha c = true)) (READ_VERBS ++ WRITE_VERBS).
Proof. repeat constructor. Qed.

Lemma alpha_word (v : jsstring) :
  Forall (fun c => isAlpha c = true) v -> spaceFree v /\ ~ In CHAR_DOT v.
Proof.
  intros H. split.
  - eapply Forall_impl; [|exact H]. intros c. apply alpha_not_space.
  - intros Hin. rewrite Forall_forall in H. apply H in Hin. discriminate Hin.
Qed.

Lemma action_pattern_hit (vs : list jsstring) (pre verb p rest cwd : jsstring) :
  (forall (K : jsstring -> option jsstring -> option (nat * option jsstring))
          tl x,
      K (CHAR_SPACE :: tl) None = Some x ->
      (forall c s, isSpace c = false -> K (c :: s) None = None) ->
      rmatch true (alt vs) (verb ++ CHAR_SPACE :: tl) None K = Some x) ->
  Forall (Forall (fun c => isAlpha c = true)) vs ->
  In verb vs -> verb <> [] ->
  wordStart pre ->
  barePath p -> isValidFilePath p = true -> endsPath rest ->
  In (normalizePath p cwd)
     (hitsOf [mkPattern (seq (alt vs :: action_tail)) true]
        (pre ++ verb ++ CHAR_SPACE :: p ++ rest) cwd).
Proof.
  intros Halt Hvs Hverb Hvne Hpre Hp Hv Hrest.
  destruct (@action_pattern_exec vs verb p rest Halt Hp Hrest) as (n & E).
  assert (Hal : Forall (fun c => isAlpha c = true) verb).
  { rewrite Forall_forall in Hvs. now apply Hvs. }
  destruct (alpha_word Hal) as [Hfree Hdot].
  apply hitsOf_In. eexists _, (Some p), p. split; [now left|].
  split; [|split; [|reflexivity]].
  - unfold matchAll. apply scan_reaches; [lia| |].
    + intros pre1 pre2 len c -> Hne Ex.
      now apply (@action_match_bound vs pre1 pre2 verb (p ++ rest) len c).
    + apply (@matchAll_head _ _ n); [|exact E].
      destruct verb; discriminate.
  - apply accepted_valid; [|exact Hv]. now apply barePath_nonempty.
Qed.

(** X18.  A write verb (Create, Created, Modify, Modified, Update, Updated,
    Write, Wrote, Edit, Edited, Delete, Deleted) at the start of the message
    or after white space, one space and a bare path that the validator
    accepts, followed by white space or by the end of the message:
    extractFiles returns the normalized path with isWrite true, and
    extractFilePaths returns the path. *)
Theorem write_verb_is_detected (pre verb p rest cwd : jsstring) :
  In verb WRITE_VERBS -> wordStart pre ->
  barePath p -> isValidFilePath p = true -> endsPath rest ->
  In (mkFile (normalizePath p cwd) true)
     (extractFiles (Some (pre ++ verb ++ CHAR_SPACE :: p ++ rest)) cwd)
  /\ In (normalizePath p cwd)
        (extractFilePaths (Some (pre ++ verb ++ CHAR_SPACE :: p ++ rest)) cwd).
Proof.
  intros Hverb Hpre Hp Hv Hrest.
  pose proof verbs_are_alphabetic as Hal.
  assert (Hne : verb <> []).
  { intros ->. simpl in Hverb. intuition discriminate. }
  split.
  - rewrite extractFiles_shape. apply in_or_app. left.
    apply in_map_iff. exists (normalizePath p cwd). split; [reflexivity|].
    apply firstSeen_nil_In. cbn [textOf]. unfold writeHits.
    apply (@action_pattern_hit WRITE_VERBS); auto.
    + intros K tl x HK HKfail. now apply write_verbs_match.
    + now apply Forall_app in Hal as [_ Hal].
  - apply extractFilePaths_In. right.
    apply (@action_pattern_hit (READ_VERBS ++ WRITE_VERBS)); auto.
    + intros K tl x HK HKfail. apply action_verbs_match; auto.
      apply in_or_app. now right.
    + apply in_or_app. now right.
Qed.

Lemma write_verb_is_detected_witness :
  In (mkFile (normalizePath (str "src/app.ts") (str "/work")) true)
     (extractFiles
        (Some (str "Read a.js then " ++ str "Modified" ++ CHAR_SPACE
                 :: str "src/app.ts" ++ str " to fix the bug."))
        (str "/work"))
  /\ In (normalizePath (str "src/app.ts") (str "/work"))
        (extractFilePaths
           (Some (str "Read a.js then " ++ str "Modified" ++ CHAR_SPACE
                    :: str "src/app.ts" ++ str " to fix the bug."))
           (str "/work")).
Proof.
  apply write_verb_is_detected.
  - simpl. tauto.
  - right. exists (str "Read a.js then"), CHAR_SPACE. split; reflexivity.
  - exists (str "src/app"), (str "ts"). simpl.
    repeat split; try lia; try discriminate;
      repeat constructor; discriminate.
  - reflexivity.
  - right. eexists _, _. split; reflexivity.
Defined.

(** X19.  A read verb (Read, List) at the start of the message or after
    white space, one space and a bare path that the validator accepts,
    followed by white space or by the end of the message: both entry points
    return the normalized path. *)
Theorem read_verb_is_detected (pre verb p rest cwd : jsstring) :
  In verb READ_VERBS -> wordStart pre ->
  barePath p -> isValidFilePath p = true -> endsPath rest ->
  In (normalizePath p cwd)
     (map path
        (extractFiles (Some (pre ++ verb ++ CHAR_SPACE :: p ++ rest)) cwd))
  /\ In (normalizePath p cwd)
        (extractFilePaths (Some (pre ++ verb ++ CHAR_SPACE :: p ++ rest)) cwd).
Proof.
  intros Hverb Hpre Hp Hv Hrest.
  pose proof verbs_are_alphabetic as Hal.
  assert (Hne : verb <> []).
  { intros ->. simpl in Hverb. intuition discriminate. }
  split.
  - apply extractFiles_In. right.
    apply (@hitsOf_one READ_ACTION); [simpl; tauto|].
    apply (@action_pattern_hit READ_VERBS); auto.
    + intros K tl x HK HKfail. now apply read_verbs_match.
    + now apply Forall_app in Hal as [Hal _].
  - apply extractFilePaths_In. right.
    apply (@action_pattern_hit (READ_VERBS ++ WRITE_VERBS)); auto.
    + intros K tl x HK HKfail. apply action_verbs_match; auto.
      apply in_or_app. now left.
    + apply in_or_app. now left.
Qed.

Lemma read_verb_is_detected_witness :
  In (normalizePath (str "src/app.ts") (str "/work"))
     (map path
        (extractFiles
           (Some ([] ++ str "Read" ++ CHAR_SPACE :: str "src/app.ts" ++ []))
           (str "/work")))
  /\ In (normalizePath (str "src/app.ts") (str "/work"))
        (extractFilePaths
           (Some ([] ++ str "Read" ++ CHAR_SPACE :: str "src/app.ts" ++ []))
           (str "/work")).
Proof.
  apply read_verb_is_detected.
  - simpl. tauto.
  - now left.
  - exists (str "src/app"), (str "ts"). simpl.
    repeat split; try lia; try discriminate;
      repeat constructor; discriminate.
  - reflexivity.
  - now left.
Defined.

(** * Delimited paths and code block headers are detected *)

Lemma matchAll_skip (pat : pattern) (pre s : jsstring) :
  (forall ch t, In ch pre -> exec_at pat (ch :: t) = None) ->
  matchAll pat (pre ++ s) = matchAll pat s.
Proof.
  unfold matchAll. induction pre as [|ch pre IH]; intros H; [reflexivity|].
  cbn [app scan]. rewrite (H ch (pre ++ s)) by now left.
  apply IH. intros ch' t Hin. apply H. now right.
Qed.

Lemma shared_hit_in_both (msg cwd p : jsstring) :
  In p (hitsOf SHARED_PATTERNS msg cwd) ->
  In p (map path (extractFiles (Some msg) cwd))
  /\ In p (extractFilePaths (Some msg) cwd).
Proof.
  intros H. split.
  - apply extractFiles_In. now left.
  - apply extractFilePaths_In. now left.
Qed.

Section DelimitedPath.
Variables ao cls ac : atom.

(** After the dot of a delimited path, no run of class characters ends
    before another dot. *)
Lemma delimited_suffix_no_dot (ext tail u s2 : jsstring) :
  Forall (fun c => isWord c = true) ext ->
  (forall c t, tail = c :: t ->
               atom_matches false cls c = false /\ c <> CHAR_DOT) ->
  ext ++ tail = u ++ s2 ->
  Forall (fun c => atom_matches false cls c = true) u ->
  s2 = [] \/ exists c t, s2 = c :: t /\ c <> CHAR_DOT.
Proof.
  revert u. induction ext as [|e ext IH]; intros u Hext Htail E Hu.
  - simpl in E. destruct u as [|c u].
    + simpl in E. subst s2. destruct tail as [|c t]; [now left|].
      right. exists c, t. split; [reflexivity|]. now apply (Htail c t).
    + simpl in E. subst tail. apply Forall_cons_iff in Hu as [Hc _].
      destruct (Htail c (u ++ s2) eq_refl) as [Hc' _]. congruence.
  - apply Forall_cons_iff in Hext as [He Hext].
    destruct u as [|c u].
    + simpl in E. subst s2. right. exists e, (ext ++ tail).
      split; [reflexivity|]. now apply word_not_dot.
    + simpl in E. injection E as <- E. apply Forall_cons_iff in Hu as [_ Hu].
      now apply (IH u).
Qed.

(** An opening delimiter, a path of class characters with a final
    extension, and a closing delimiter: the pattern matches at the start and
    captures the path. *)
Lemma delimited_exec (o c : cu) (stem ext rest : jsstring) :
  atom_matches false ao o = true ->
  atom_matches false ac c = true ->
  atom_matches false cls c = false -> c <> CHAR_DOT -> isWord c = false ->
  stem <> [] ->
  Forall (fun ch => atom_matches false cls ch = true) stem ->
  1 <= length ext <= 6 ->
  Forall (fun ch => isWord ch = true) ext ->
  exists n,
    exec_at
      (mkPattern (seq [RAtom ao; RGroup (seq (plus cls :: dot_ext)); RAtom ac])
         false)
      (o :: (stem ++ CHAR_DOT :: ext) ++ c :: rest)
    = Some (n, Some (stem ++ CHAR_DOT :: ext)).
Proof.
  intros Ho Hc Hcc Hcd Hcw Hne Hstem Hlen Hext. eexists.
  unfold exec_at. cbn [p_re p_ic seq dot_ext plus rmatch]. rewrite Ho.
  rewrite <- app_assoc at 1.
  apply rep_greedy_longest.
  - exact Hstem.
  - destruct stem; [contradiction|simpl; lia].
  - cbn [app atom_matches].
    replace (lit_matches false CHAR_DOT CHAR_DOT) with true by reflexivity.
    apply rep_greedy_run.
    + exact Hext.
    + exact Hlen.
    + intros c' t E. injection E as <- _. exact Hcw.
    + rewrite Hc. rewrite (firstn_prefix (stem ++ CHAR_DOT :: ext) (c :: rest)).
      reflexivity.
  - intros u s2 Hu E Hcls.
    destruct u as [|d u]; [contradiction|]. simpl in E.
    injection E as <- E. apply Forall_cons_iff in Hcls as [_ Hcls].
    assert (Htail : forall c' t, c :: rest = c' :: t ->
                      atom_matches false cls c' = false /\ c' <> CHAR_DOT).
    { intros c' t E'. injection E' as <- _. now split. }
    destruct (delimited_suffix_no_dot _ Hext Htail E Hcls)
      as [-> | (c' & t & -> & Hc')]; [reflexivity|].
    cbn [atom_matches]. now rewrite (dot_mismatch false Hc').
Qed.

Lemma delimited_hit (o c : cu) (pre p stem ext rest cwd : jsstring) :
  (forall ch, In ch pre -> atom_matches false ao ch = false) ->
  atom_matches false ao o = true ->
  atom_matches false ac c = true ->
  atom_matches false cls c = false -> c <> CHAR_DOT -> isWord c = false ->
  p = stem ++ CHAR_DOT :: ext ->
  stem <> [] ->
  Forall (fun ch => atom_matches false cls ch = true) stem ->
  1 <= length ext <= 6 ->
  Forall (fun ch => isWord ch = true) ext ->
  isValidFilePath p = true ->
  In (normalizePath p cwd)
     (hitsOf
        [mkPattern (seq [RAtom ao; RGroup (seq (plus cls :: dot_ext)); RAtom ac])
           false]
        (pre ++ o :: p ++ c :: rest) cwd).
Proof.
  intros Hpre Ho Hc Hcc Hcd Hcw Hp Hne Hstem Hlen Hext Hv.
  destruct (@delimited_exec o c stem ext rest Ho Hc Hcc Hcd Hcw Hne Hstem Hlen Hext)
    as (n & E).
  rewrite <- Hp in E.
  apply hitsOf_In. eexists _, (Some p), p. split; [now left|].
  split; [|split; [|reflexivity]].
  - rewrite matchAll_skip.
    + apply (@matchAll_head _ _ n); [discriminate|exact E].
    + intros ch t Hin. unfold exec_at. cbn [p_re p_ic seq rmatch].
      now rewrite (Hpre ch Hin).
  - apply accepted_valid; [|exact Hv]. subst p.
    destruct stem; [contradiction|discriminate].
Qed.
End DelimitedPath.

Lemma not_backtick_class (c : cu) :
  isSpace c = false -> c <> CHAR_BACKTICK ->
  atom_matches false (ANoneOf true [CHAR_BACKTICK]) c = true.
Proof.
  intros Hs Hb. cbn [atom_matches existsb lit_matches]. rewrite Hs.
  assert (E : cu_eqb c CHAR_BACKTICK = false).
  { destruct (cu_eqb c CHAR_BACKTICK) eqn:E; [|reflexivity].
    apply cu_eqb_eq in E. contradiction. }
  now rewrite E.
Qed.

Lemma not_quote_class (c : cu) :
  isSpace c = false -> c <> QUOTE2 -> c <> QUOTE1 ->
  atom_matches false (ANoneOf true [QUOTE2; QUOTE1]) c = true.
Proof.
  intros Hs H2 H1. cbn [atom_matches existsb lit_matches]. rewrite Hs.
  assert (E2 : cu_eqb c QUOTE2 = false).
  { destruct (cu_eqb c QUOTE2) eqn:E; [|reflexivity].
    apply cu_eqb_eq in E. contradiction. }
  assert (E1 : cu_eqb c QUOTE1 = false).
  { destruct (cu_eqb c QUOTE1) eqn:E; [|reflexivity].
    apply cu_eqb_eq in E. contradiction. }
  now rewrite E2, E1.
Qed.

Lemma cu_eqb_neq (a b : cu) : a <> b -> cu_eqb a b = false.
Proof.
  intros H. destruct (cu_eqb a b) eqn:E; [|reflexivity].
  apply cu_eqb_eq in E. contradiction.
Qed.

(** X20.  A bare path in single backticks that the validator accepts, after
    a text without backticks, is returned by both entry points. *)
Theorem backtick_path_is_detected (pre p rest cwd : jsstring) :
  ~ In CHAR_BACKTICK pre ->
  barePath p -> isValidFilePath p = true ->
  In (normalizePath p cwd)
     (map path
        (extractFiles
           (Some (pre ++ CHAR_BACKTICK :: p ++ CHAR_BACKTICK :: rest)) cwd))
  /\ In (normalizePath p cwd)
        (extractFilePaths
           (Some (pre ++ CHAR_BACKTICK :: p ++ CHAR_BACKTICK :: rest)) cwd).
Proof.
  intros Hpre (stem & ext & Hp & Hne & Hstem & Hlen & Hext) Hv.
  apply shared_hit_in_both.
  apply (@hitsOf_one BACKTICK_PATH); [simpl; tauto|].
  apply (@delimited_hit (ALit CHAR_BACKTICK) (ANoneOf true [CHAR_BACKTICK])
           (ALit CHAR_BACKTICK) CHAR_BACKTICK CHAR_BACKTICK pre p stem ext);
    try reflexivity; try discriminate; auto.
  - intros ch Hin. cbn [atom_matches lit_matches]. apply cu_eqb_neq.
    intros ->. contradiction.
  - eapply Forall_impl; [|exact Hstem]. intros c [? ?].
    now apply not_backtick_class.
Qed.

Lemma backtick_path_is_detected_witness :
  In (normalizePath (str "src/app.ts") (str "/work"))
     (map path
        (extractFiles
           (Some (str "See " ++ CHAR_BACKTICK :: str "src/app.ts"
                    ++ CHAR_BACKTICK :: str " for details"))
           (str "/work")))
  /\ In (normalizePath (str "src/app.ts") (str "/work"))
        (extractFilePaths
           (Some (str "See " ++ CHAR_BACKTICK :: str "src/app.ts"
                    ++ CHAR_BACKTICK :: str " for details"))
           (str "/work")).
Proof.
  apply backtick_path_is_detected.
  - simpl. intuition discriminate.
  - exists (str "src/app"), (str "ts"). simpl.
    repeat split; try lia; try discriminate;
      repeat constructor; discriminate.
  - reflexivity.
Defined.

(** X21.  A path between two quotes, each double or single and not
    necessarily the same, that the validator accepts, after a text without
    quotes, is returned by both entry points. *)
Theorem quoted_path_is_detected (q1 q2 : cu) (pre p rest cwd : jsstring) :
  In q1 [QUOTE2; QUOTE1] -> In q2 [QUOTE2; QUOTE1] ->
  ~ In QUOTE2 pre -> ~ In QUOTE1 pre ->
  quotedPath p -> isValidFilePath p = true ->
  In (normalizePath p cwd)
     (map path (extractFiles (Some (pre ++ q1 :: p ++ q2 :: rest)) cwd))
  /\ In (normalizePath p cwd)
        (extractFilePaths (Some (pre ++ q1 :: p ++ q2 :: rest)) cwd).
Proof.
  intros Hq1 Hq2 Hpre2 Hpre1 (stem & ext & Hp & Hne & Hstem & Hlen & Hext) Hv.
  apply shared_hit_in_both.
  apply (@hitsOf_one QUOTED_PATH); [simpl; tauto|].
  apply (@delimited_hit (AOneOf [QUOTE2; QUOTE1]) (ANoneOf true [QUOTE2; QUOTE1])
           (AOneOf [QUOTE2; QUOTE1]) q1 q2 pre p stem ext); auto.
  - intros ch Hin. cbn [atom_matches existsb lit_matches].
    rewrite !cu_eqb_neq; [reflexivity| |]; intros ->; contradiction.
  - destruct Hq1 as [<-|[<-|[]]]; reflexivity.
  - destruct Hq2 as [<-|[<-|[]]]; reflexivity.
  - destruct Hq2 as [<-|[<-|[]]]; reflexivity.
  - destruct Hq2 as [<-|[<-|[]]]; discriminate.
  - destruct Hq2 as [<-|[<-|[]]]; reflexivity.
  - eapply Forall_impl; [|exact Hstem]. intros c (? & ? & ?).
    now apply not_quote_class.
Qed.

Lemma quoted_path_is_detected_witness :
  In (normalizePath (str "src/app.ts") (str "/work"))
     (map path
        (extractFiles
           (Some (str "Open " ++ QUOTE1 :: str "src/app.ts" ++ QUOTE2 :: str "."))
           (str "/work")))
  /\ In (normalizePath (str "src/app.ts") (str "/work"))
        (extractFilePaths
           (Some (str "Open " ++ QUOTE1 :: str "src/app.ts" ++ QUOTE2 :: str "."))
           (str "/work")).
Proof.
  apply quoted_path_is_detected.
  - simpl. tauto.
  - simpl. tauto.
  - simpl. intuition discriminate.
  - simpl. intuition discriminate.
  - exists (str "src/app"), (str "ts"). simpl.
    repeat split; try lia; try discriminate;
      repeat constructor; discriminate.
  - reflexivity.
Defined.

(** A code block header: three backticks, a language tag of word
    characters, a colon, and the text up to the end of the line. *)
Lemma code_block_header_exec (lang raw rest : jsstring) :
  Forall (fun c => isWord c = true) lang ->
  raw <> [] ->
  Forall (fun c => c <> CHAR_LF /\ c <> CHAR_BACKTICK) raw ->
  endsHeader rest ->
  exists n,
    exec_at CODE_BLOCK_HEADER
      (str "```" ++ lang ++ COLON :: raw ++ rest) = Some (n, Some raw).
Proof.
  intros Hlang Hne Hraw Hrest. eexists.
  unfold exec_at. cbn [CODE_BLOCK_HEADER p_re p_ic].
  change (str "```") with [CHAR_BACKTICK; CHAR_BACKTICK; CHAR_BACKTICK].
  cbn [seq lit star plus rmatch app atom_matches lit_matches].
  replace (cu_eqb CHAR_BACKTICK CHAR_BACKTICK) with true by reflexivity.
  apply rep_greedy_longest.
  - exact Hlang.
  - lia.
  - replace (cu_eqb COLON COLON) with true by reflexivity.
    apply rep_greedy_longest.
    + eapply Forall_impl; [|exact Hraw]. intros c [Hl Hb].
      cbn [atom_matches existsb lit_matches andb orb].
      now rewrite (cu_eqb_neq Hl), (cu_eqb_neq Hb).
    + destruct raw; [contradiction|simpl; lia].
    + now rewrite firstn_prefix.
    + intros u s2 Hu E Hcls. destruct u as [|d u]; [contradiction|].
      apply Forall_cons_iff in Hcls as [Hd _].
      destruct Hrest as [-> | (c & r & -> & Hc)]; [discriminate|].
      simpl in E. injection E as <- _.
      destruct Hc as [-> | ->]; discriminate Hd.
  - intros u s2 Hu E Hw. destruct u as [|d u]; [contradiction|].
    apply Forall_cons_iff in Hw as [Hd _]. simpl in E. injection E as <- _.
    discriminate Hd.
Qed.

(** X22.  A code block header after a text without backticks: the text
    between the colon and the end of the line, when the validator accepts
    it, is returned normalized by both entry points. *)
Theorem code_block_header_is_detected (pre lang raw rest cwd : jsstring) :
  ~ In CHAR_BACKTICK pre ->
  Forall (fun c => isWord c = true) lang ->
  Forall (fun c => c <> CHAR_LF /\ c <> CHAR_BACKTICK) raw ->
  endsHeader rest ->
  isValidFilePath raw = true ->
  In (normalizePath raw cwd)
     (map path
        (extractFiles
           (Some (pre ++ str "```" ++ lang ++ COLON :: raw ++ rest)) cwd))
  /\ In (normalizePath raw cwd)
        (extractFilePaths
           (Some (pre ++ str "```" ++ lang ++ COLON :: raw ++ rest)) cwd).
Proof.
  intros Hpre Hlang Hraw Hrest Hv.
  assert (Hne : raw <> []) by (intros ->; discriminate Hv).
  apply shared_hit_in_both.
  apply (@hitsOf_one CODE_BLOCK_HEADER); [simpl; tauto|].
  destruct (code_block_header_exec Hlang Hne Hraw Hrest) as (n & E).
  apply hitsOf_In. eexists _, (Some raw), raw. split; [now left|].
  split; [|split; [|reflexivity]].
  - rewrite matchAll_skip.
    + apply (@matchAll_head _ _ n); [discriminate|exact E].
    + intros ch t Hin. unfold exec_at. cbn [CODE_BLOCK_HEADER p_re p_ic].
      change (str "```") with [CHAR_BACKTICK; CHAR_BACKTICK; CHAR_BACKTICK].
      cbn [seq lit rmatch atom_matches lit_matches].
      rewrite cu_eqb_neq; [reflexivity|]. intros ->. contradiction.
  - now apply accepted_valid.
Qed.

Lemma code_block_header_is_detected_witness :
  In (normalizePath (str "src/index.ts") (str "/work"))
     (map path
        (extractFiles
           (Some (str "Here: " ++ str "```" ++ str "typescript"
                    ++ COLON :: str "src/index.ts" ++ CHAR_LF :: str "const x = 1;"))
           (str "/work")))
  /\ In (normalizePath (str "src/index.ts") (str "/work"))
        (extractFilePaths
           (Some (str "Here: " ++ str "```" ++ str "typescript"
                    ++ COLON :: str "src/index.ts" ++ CHAR_LF :: str "const x = 1;"))
           (str "/work")).
Proof.
  apply code_block_header_is_detected.
  - simpl. intuition discriminate.
  - repeat constructor.
  - repeat constructor; discriminate.
  - right. eexists _, _. split; [reflexivity|]. now left.
  - reflexivity.
Defined.
